(** * Structured-data validation (schemarama): a shallow embedding

    The development follows the JavaScript sources of the validator:
    - [Utils]: helpers/utils.js ([uniqueBy], [stronglyConnectedComponents],
      [quadsToShapes], [getShape], [removeUrls], [formatString]);
    - [Validator]: validator.js (class ValidationReport, class ShexValidator);
    - [SchemaValidator]: schema-validator.js ([recursiveValidate],
      [validateSchemaOrg]) together with [stringToQuads] of parser.js.

    JavaScript strings are embedded as [string]; a code unit is an [ascii],
    so the texts covered are those whose code units are below 256.  A value
    that is either [undefined] or a string is an [option string]. Objects used
    as dictionaries are [gmap]s, arrays and insertion-ordered [Map]s are lists.
    An exception is a [Throw] in the [Result] monad. *)

From stdpp Require Import gmap strings list fin_maps.
From Stdlib Require Import Ascii String.
From Stdlib Require QArith.

Open Scope string_scope.
Open Scope list_scope.
Open Scope nat_scope.

(** ** JavaScript values, truthiness and exceptions *)
Module JS.

(** [undefined] or a string. *)
Definition jstr : Type := option string.

(** [!!v]: [undefined] and the empty string are falsy. *)
Definition truthy (v : jstr) : bool :=
  match v with
  | Some s => negb (String.eqb s EmptyString)
  | None => false
  end.

(** [a || b] *)
Definition orElse (a b : jstr) : jstr := if truthy a then a else b.

(** [a || ''] *)
Definition orEmpty (a : jstr) : string :=
  match orElse a (Some EmptyString) with
  | Some s => s
  | None => EmptyString
  end.

(** [a === b] on strings-or-undefined. *)
Definition strictEq (a b : jstr) : bool := bool_decide (a = b).

(** ['' + v]: string conversion as done by [+=]. *)
Definition toString (v : jstr) : string :=
  match v with
  | Some s => s
  | None => "undefined"
  end.

Definition chars (s : string) : list ascii := list_ascii_of_string s.
Definition str (l : list ascii) : string := string_of_list_ascii l.

(** Modelled from the spec: the error classes of helpers/errors.js, which
    the sources only import. [InvalidDataError] (invalid input, recovered
    locally) and [ShexValidationError] (unknown failure shape, fatal) are
    two unrelated classes, so [instanceof] tells them apart. [TypeError]
    and [RangeError] are the built-in ones that the modelled code can raise. *)
Inductive Error : Type :=
| InvalidDataError (msg : string)
| ShexValidationError (msg : string)
| TypeError (msg : string)
| RangeError (msg : string).

Inductive Result (A : Type) : Type :=
| Ok (a : A)
| Throw (e : Error).
Arguments Ok {A} a.
Arguments Throw {A} e.

Definition bind {A B} (r : Result A) (k : A → Result B) : Result B :=
  match r with
  | Ok a => k a
  | Throw e => Throw e
  end.

(** A [for ... of] loop whose body may throw. *)
Fixpoint forM {A S} (body : S → A → Result S) (l : list A) (s : S) : Result S :=
  match l with
  | [] => Ok s
  | a :: l' => bind (body s a) (forM body l')
  end.

(** A loop whose body recurses on bounded depth ([None]: depth exhausted). *)
Fixpoint foldM {A S} (body : S → A → option S) (l : list A) (s : S) : option S :=
  match l with
  | [] => Some s
  | a :: l' =>
      match body s a with
      | Some s' => foldM body l' s'
      | None => None
      end
  end.

End JS.

#[global] Instance Result_bind : MBind JS.Result := λ A B k r, JS.bind r k.
#[global] Instance Result_ret : MRet JS.Result := @JS.Ok.

(** ** helpers/utils.js: text helpers *)
Module Text.
Import JS.

Definition isChar (c d : ascii) : bool := Ascii.eqb c d.

(** Line terminators, which [.] does not match. *)
Definition isLineTerminator (c : ascii) : bool :=
  isChar c "010" || isChar c "013".

(** The class [\s]. *)
Definition isWhiteSpace (c : ascii) : bool :=
  bool_decide (nat_of_ascii c ∈ [9; 10; 11; 12; 13; 32; 160]).

Fixpoint takeWhile {A} (p : A → bool) (l : list A) : list A :=
  match l with
  | [] => []
  | c :: r => if p c then c :: takeWhile p r else []
  end.

(** Greatest index whose element satisfies [p]: where a greedy quantifier
    stops after backtracking. *)
Fixpoint lastIndexWhere {A} (p : A → bool) (l : list A) : option nat :=
  match l with
  | [] => None
  | c :: r =>
      match lastIndexWhere p r with
      | Some j => Some (S j)
      | None => if p c then Some 0 else None
      end
  end.

Fixpoint stripPrefix (p l : list ascii) : option (list ascii) :=
  match p, l with
  | [], _ => Some l
  | a :: p', b :: l' => if isChar a b then stripPrefix p' l' else None
  | _ :: _, [] => None
  end.

(** *** formatString *)

(** [/{(.+)}/] tried right after an opening brace: [rest] is the text that
    follows the brace. The group is at least one character long, runs over
    no line terminator and, being greedy, ends at the last closing brace.
    Returns the group and the text after the match. *)
Definition matchPlaceholder (rest : list ascii)
  : option (list ascii * list ascii) :=
  match takeWhile (λ c, negb (isLineTerminator c)) rest with
  | [] => None
  | _ :: run =>
      match lastIndexWhere (λ c, isChar c "}") run with
      | Some j => Some (take (S j) rest, drop (S (S j)) rest)
      | None => None
      end
  end.

(** [replacer(match, val)] *)
Definition replacer (args : gmap string jstr) (match_ val : string) : string :=
  match args !! val with
  | Some v => orEmpty v
  | None => match_
  end.

(** [s.replace(/{(.+)}/g, replacer)]: leftmost matches, scanning resumes
    after each match. [fuel] bounds the number of scanning steps. *)
Fixpoint replacePlaceholders (fuel : nat) (args : gmap string jstr)
  (l : list ascii) : list ascii :=
  match fuel with
  | 0 => l
  | S fuel' =>
      match l with
      | [] => []
      | c :: rest =>
          if isChar c "{" then
            match matchPlaceholder rest with
            | Some (val, after) =>
                chars (replacer args (str ("{"%char :: val ++ ["}"%char])) (str val))
                  ++ replacePlaceholders fuel' args after
            | None => c :: replacePlaceholders fuel' args rest
            end
          else c :: replacePlaceholders fuel' args rest
      end
  end.

Definition substitute (args : gmap string jstr) (t : string) : string :=
  str (replacePlaceholders (List.length (chars t)) args (chars t)).

(** [formatString(s, args)]; [s] is [undefined] when the messages table has
    no entry, and [s.replace] then raises a TypeError. *)
Definition formatString (s : jstr) (args : gmap string jstr) : Result string :=
  match s with
  | None => Throw (TypeError "Cannot read properties of undefined")
  | Some t => Ok (substitute args t)
  end.

(** The text has no line terminator. *)
Definition singleLine (s : string) : bool :=
  forallb (λ c, negb (isLineTerminator c)) (chars s).

(** The text up to its first line terminator. *)
Definition firstLine (s : string) : string :=
  str (takeWhile (λ c, negb (isLineTerminator c)) (chars s)).

(** *** removeUrls *)

(** [/https?:\/\/[^\s]+[/#]/] tried at the head of [l]; returns the text
    after the match. *)
Definition matchUrl (l : list ascii) : option (list ascii) :=
  match
    match stripPrefix (chars "https://") l with
    | Some r => Some r
    | None => stripPrefix (chars "http://") l
    end
  with
  | None => None
  | Some rest =>
      match takeWhile (λ c, negb (isWhiteSpace c)) rest with
      | [] => None
      | _ :: run =>
          match lastIndexWhere (λ c, isChar c "/" || isChar c "#") run with
          | Some j => Some (drop (S (S j)) rest)
          | None => None
          end
      end
  end.

(** [text.match(urlRegexp)] is not null. *)
Fixpoint hasUrl (l : list ascii) : bool :=
  match l with
  | [] => false
  | _ :: rest => bool_decide (is_Some (matchUrl l)) || hasUrl rest
  end.

(** [text.replace(urlRegexp, '')] *)
Fixpoint replaceUrls (fuel : nat) (l : list ascii) : list ascii :=
  match fuel with
  | 0 => l
  | S fuel' =>
      match l with
      | [] => []
      | c :: rest =>
          match matchUrl l with
          | Some after => replaceUrls fuel' after
          | None => c :: replaceUrls fuel' rest
          end
      end
  end.

(** The [while] loop of [removeUrls]. *)
Fixpoint removeUrlsLoop (fuel : nat) (l : list ascii) : list ascii :=
  match fuel with
  | 0 => l
  | S fuel' =>
      if hasUrl l then removeUrlsLoop fuel' (replaceUrls (List.length l) l) else l
  end.

Definition removeUrls (text : string) : string :=
  str (removeUrlsLoop (S (List.length (chars text))) (chars text)).

(** [namespace(base)] *)
Definition namespace (base : string) : string → string :=
  λ prop, base +:+ prop.

(** [key.includes('@')] *)
Definition includesChar (c : ascii) (s : string) : bool :=
  existsb (λ x, isChar x c) (chars s).

End Text.

(** ** The triple store (n3) *)
Module Rdf.

Inductive TermType : Type := NamedNode | BlankNode | Literal.

#[global] Instance TermType_eq_dec : EqDecision TermType.
Proof. solve_decision. Defined.

(** A term as the program reads it: [termType], [id] and [value]. *)
Record Term : Type := mkTerm { termType : TermType; id : string; value : string }.

Record Quad : Type := mkQuad { subject : Term; predicate : Term; object : Term }.

(** The [Store] of the n3 library: triples in a fixed enumeration order,
    keyed by the ids of their terms, with pattern lookups in which each
    position is either an id or a wildcard. *)
Notation Store := (list Quad) (only parsing).

Definition isLiteral (t : Term) : bool := bool_decide (termType t = Literal).

Definition matchesId (pattern : option string) (t : Term) : bool :=
  match pattern with
  | None => true
  | Some i => String.eqb i (id t)
  end.

(** [store.getQuads(s, p, o)] *)
Definition getQuads (store : Store) (s p o : option string) : list Quad :=
  List.filter
    (λ q, matchesId s (subject q) && matchesId p (predicate q)
          && matchesId o (object q))
    store.

Fixpoint uniqueTerms (l : list Term) : list Term :=
  match l with
  | [] => []
  | t :: r => t :: List.filter (λ u, negb (String.eqb (id u) (id t))) (uniqueTerms r)
  end.

(** [store.getSubjects()] *)
Definition getSubjects (store : Store) : list Term :=
  uniqueTerms (map subject store).

Definition sameQuad (a b : Quad) : bool :=
  String.eqb (id (subject a)) (id (subject b))
  && String.eqb (id (predicate a)) (id (predicate b))
  && String.eqb (id (object a)) (id (object b)).

(** [store.addQuad(quad)]: a triple already present is not added again. *)
Definition addQuad (store : Store) (q : Quad) : Store :=
  if existsb (sameQuad q) store then store else store ++ [q].

(** Term ids of n3 keep literals apart from nodes (a literal id starts
    with a double quote), so no literal object carries the id of a subject. *)
Definition wfStore (store : Store) : Prop :=
  ∀ q q', q ∈ store → q' ∈ store →
    isLiteral (object q) = true → id (object q) ≠ id (subject q').

End Rdf.

(** ** helpers/utils.js *)
Module Utils.
Import JS Rdf.
Export Text.

(** *** uniqueBy *)

(** [item[key]] *)
Definition getField (item : gmap string jstr) (key : string) : jstr :=
  default None (item !! key).

(** [keys.forEach(key => val += item[key])] *)
Definition uniqueKey (keys : list string) (item : gmap string jstr) : string :=
  foldl (λ val key, val +:+ toString (getField item key)) EmptyString keys.

(** [seen[val] = true] on the plain object [seen]: every name becomes an own
    property, except ["__proto__"], whose assignment of a non-object is
    ignored. *)
Definition markSeen (seen : gset string) (val : string) : gset string :=
  if String.eqb val "__proto__" then seen else {[val]} ∪ seen.

(** The callback of [items.filter], item after item. Once the own property
    ["hasOwnProperty"] is set, [seen.hasOwnProperty] is no longer callable. *)
Fixpoint uniqueByFrom (seen : gset string) (keys : list string)
  (items : list (gmap string jstr)) : Result (list (gmap string jstr)) :=
  match items with
  | [] => Ok []
  | item :: rest =>
      let val := uniqueKey keys item in
      if bool_decide ("hasOwnProperty" ∈ seen) then
        Throw (TypeError "seen.hasOwnProperty is not a function")
      else if bool_decide (val ∈ seen) then uniqueByFrom seen keys rest
      else
        kept ← uniqueByFrom (markSeen seen val) keys rest;
        Ok (item :: kept)
  end.

Definition uniqueBy (items : list (gmap string jstr)) (keys : list string)
  : Result (list (gmap string jstr)) :=
  uniqueByFrom ∅ keys items.

(** *** stronglyConnectedComponents *)

(** [[...new Set(l)]]: first occurrences, in order. *)
Fixpoint dedup (l : list string) : list string :=
  match l with
  | [] => []
  | x :: r => x :: List.filter (λ y, negb (String.eqb y x)) (dedup r)
  end.

Definition nodesOf (store : Store) : list string :=
  dedup (map id (getSubjects store)).

(** [used.get(v)] read as a condition. *)
Definition isUsed (used : gmap string bool) (v : string) : bool :=
  default false (used !! v).

(** [for (const node of nodes) used.set(node, false)] *)
Definition resetUsed (nodes : list string) (used : gmap string bool)
  : gmap string bool :=
  foldl (λ u node, <[node := false]> u) used nodes.

(** [forwardDfs(vertex)] acting on the captured [used] and [order];
    [fuel] bounds the depth of the recursion. *)
Fixpoint forwardDfs (store : Store) (nodes : list string) (fuel : nat)
  (vertex : string) (st : gmap string bool * list string)
  : option (gmap string bool * list string) :=
  match fuel with
  | 0 => None
  | S fuel' =>
      match
        foldM
          (λ (st : gmap string bool * list string) quad,
             if negb (isLiteral (object quad))
                && bool_decide (id (object quad) ∈ nodes)
                && negb (isUsed st.1 (id (object quad)))
             then forwardDfs store nodes fuel' (id (object quad)) st
             else Some st)
          (getQuads store (Some vertex) None None)
          (<[vertex := true]> st.1, st.2)
      with
      | Some st' => Some (st'.1, st'.2 ++ [vertex])
      | None => None
      end
  end.

(** [backwardDfs(vertex)] acting on the captured [used] and [component]. *)
Fixpoint backwardDfs (store : Store) (fuel : nat)
  (vertex : string) (st : gmap string bool * list string)
  : option (gmap string bool * list string) :=
  match fuel with
  | 0 => None
  | S fuel' =>
      foldM
        (λ (st : gmap string bool * list string) quad,
           if negb (isUsed st.1 (id (subject quad)))
           then backwardDfs store fuel' (id (subject quad)) st
           else Some st)
        (getQuads store None None (Some vertex))
        (<[vertex := true]> st.1, st.2 ++ [vertex])
  end.

(** [components.set(x, idx)] on an insertion-ordered [Map]. *)
Fixpoint mapSet {V} (m : list (string * V)) (k : string) (v : V)
  : list (string * V) :=
  match m with
  | [] => [(k, v)]
  | (k', v') :: r =>
      if String.eqb k' k then (k', v) :: r else (k', v') :: mapSet r k v
  end.

Fixpoint mapGet {V} (m : list (string * V)) (k : string) : option V :=
  match m with
  | [] => None
  | (k', v') :: r => if String.eqb k' k then Some v' else mapGet r k
  end.

Definition mapHas {V} (m : list (string * V)) (k : string) : bool :=
  bool_decide (is_Some (mapGet m k)).

(** The state of the second pass: [used], [component], [components] and
    [componentIdx]. *)
Record Pass2 : Type := mkPass2 {
  used2 : gmap string bool;
  component : list string;
  components : list (string * nat);
  componentIdx : nat
}.

(** The body of the last [for] loop once [node] is read. *)
Definition collectComponent (store : Store) (fuel : nat) (st : Pass2)
  (node : string) : option Pass2 :=
  if negb (isUsed (used2 st) node) then
    match backwardDfs store fuel node (used2 st, component st) with
    | None => None
    | Some (used', component') =>
        Some (mkPass2 used' []
                (foldl (λ cs x, mapSet cs x (componentIdx st))
                   (components st) component')
                (S (componentIdx st)))
    end
  else Some st.

(** One round of the last [for] loop; [order[...]] out of range would be
    [undefined], which the loop never meets ([None] here). *)
Definition pass2Step (store : Store) (fuel : nat) (nodes order : list string)
  (st : Pass2) (i : nat) : option Pass2 :=
  match order !! (List.length nodes - 1 - i) with
  | None => None
  | Some node => collectComponent store fuel st node
  end.

Definition stronglyConnectedComponents (fuel : nat) (store : Store)
  : option (list (string * nat)) :=
  let nodes := nodesOf store in
  match
    foldM
      (λ (st : gmap string bool * list string) node,
         if negb (isUsed st.1 node)
         then forwardDfs store nodes fuel node st
         else Some st)
      nodes (resetUsed nodes ∅, [])
  with
  | None => None
  | Some (used, order) =>
      match
        foldM (pass2Step store fuel nodes order)
          (List.seq 0 (List.length nodes))
          (mkPass2 (resetUsed nodes used) [] [] 0)
      with
      | None => None
      | Some st => Some (components st)
      end
  end.

(** *** quadsToShapes and getShape *)

(** The first argument of [getShape]: a node id (a string) at the call of
    [quadsToShapes], a term object at the recursive calls. *)
Inductive ShapeId : Type :=
| IdString (s : string)
| IdTerm (t : Term).

(** [id.id]: a string has no such property. *)
Definition idProp (i : ShapeId) : jstr :=
  match i with
  | IdString _ => None
  | IdTerm t => Some (id t)
  end.

(** The id under which the store looks the argument up. *)
Definition lookupId (i : ShapeId) : string :=
  match i with
  | IdString s => s
  | IdTerm t => id t
  end.

(** [shapes.get(key)]: the keys of [shapes] are node ids, that is strings,
    and a [Map] never finds a term object among them. *)
Definition shapesGet (shapes : list (string * option Store)) (key : ShapeId)
  : option Store :=
  match key with
  | IdString s => mjoin (mapGet shapes s)
  | IdTerm _ => None
  end.

(** [getShape(id, store, shapes, parsed)]; [parsed] is shared by all the
    calls and returned with the result. [None]: depth [fuel] exhausted. *)
Fixpoint getShape (fuel : nat) (i : ShapeId) (store : Store)
  (shapes : list (string * option Store)) (parsed : list jstr)
  : option (option Store * list jstr) :=
  match fuel with
  | 0 => None
  | S fuel' =>
      let parsed := parsed ++ [idProp i] in
      let shapeQuads := getQuads store (Some (lookupId i)) None None in
      if Nat.eqb (List.length shapeQuads) 0 then Some (None, parsed)
      else
        match
          foldM
            (λ (st : list Quad * list jstr) quad,
               if negb (isLiteral (object quad))
                  && bool_decide (Some (id (object quad)) ∈ st.2)
               then Some st
               else
                 match
                   match shapesGet shapes (IdTerm (object quad)) with
                   | Some found => Some (Some found, st.2)
                   | None => getShape fuel' (IdTerm (object quad)) store shapes st.2
                   end
                 with
                 | None => None
                 | Some (Some nestedStore, parsed') =>
                     if Nat.ltb 0 (List.length (getQuads nestedStore None None None))
                     then Some (st.1 ++ getQuads nestedStore None None None, parsed')
                     else Some (st.1, parsed')
                 | Some (None, parsed') => Some (st.1, parsed')
                 end)
            (getQuads store (Some (lookupId i)) None None)
            (shapeQuads, parsed)
        with
        | None => None
        | Some (quads, parsed') => Some (Some (foldl addQuad [] quads), parsed')
        end
  end.

(** The first loop of [quadsToShapes]: components that something outside
    points into. *)
Definition demoted (store : Store) (components : list (string * nat))
  : gset nat :=
  foldl
    (λ (notRoot : gset nat) quad,
       match mapGet components (id (subject quad)),
             mapGet components (id (object quad)) with
       | Some cs, Some co =>
           if negb (isLiteral (object quad)) && negb (Nat.eqb cs co)
           then notRoot ∪ {[co]} else notRoot
       | _, _ => notRoot
       end)
    ∅ (getQuads store None None None).

Definition quadsToShapes (fuel : nat) (store : Store)
  : option (list (string * option Store)) :=
  match stronglyConnectedComponents fuel store with
  | None => None
  | Some components =>
      match
        foldM
          (λ (st : list (string * option Store) * gset nat) entry,
             if negb (bool_decide (entry.2 ∈ st.2)) then
               match getShape fuel (IdString entry.1) store st.1 [] with
               | None => None
               | Some (shape, _) =>
                   Some (mapSet st.1 entry.1 shape, st.2 ∪ {[entry.2]})
               end
             else Some st)
          components ([], demoted store components)
      with
      | None => None
      | Some (shapes, _) => Some shapes
      end
  end.

End Utils.

(** ** The declarations of @shexjs *)
Module Shex.
Import JS.

#[local] Set Warnings "-register-all".

(** [ReportItem]: a node of the failure tree of shex.js. An optional
    sub-object ([triple], [ctx], [constraint]) is [None] when absent and
    otherwise carries its only field. *)
Inductive ReportItem : Type := mkReportItem {
  type : jstr;
  property : jstr;
  node : jstr;
  shape : jstr;
  unexpectedTriples : option (list jstr);
  triple : option jstr;
  ctx : option jstr;
  code : jstr;
  constraint : option jstr;
  errors : list ReportItem
}.

(** [Report = ReportItem | Array<ReportItem>] *)
Inductive Report : Type :=
| Single (item : ReportItem)
| Many (items : list ReportItem).

(** [TripleConstraint], with its annotations as (predicate, object.value). *)
Record TripleConstraint : Type := mkTripleConstraint {
  predicate : string;
  annotations : option (list (string * string))
}.

(** The [expression] of a target shape. *)
Inductive Expression : Type :=
| OneConstraint (tc : TripleConstraint)
| EachOf (expressions : list TripleConstraint).

(** [Shape = TargetShape | IntermediateShape] *)
Inductive Shape : Type := mkShape {
  shapeType : string;
  shapeId : string;
  expression : option Expression;
  shapeExprs : option (list Shape)
}.

Record Schema : Type := mkSchema { shapes : list Shape }.

End Shex.

(** ** validator.js *)
Module Validator.
Import JS Text Shex.

Definition rdf : string → string :=
  namespace "http://www.w3.org/1999/02/22-rdf-syntax-ns#".
Definition rdfs : string → string :=
  namespace "http://www.w3.org/2000/01/rdf-schema#".

(** [LocalizedMessages] *)
Record LocalizedMessages : Type := mkMessages {
  severity : gmap string string;
  failureTypes : gmap string string
}.

(** [{annotations, messages}]; a localized annotation is kept as the list
    of its entries, in the order of [Object.entries]. *)
Record Localization : Type := mkLocalization {
  locAnnotations : gmap string (list (string * string));
  messages : LocalizedMessages
}.

(** The label of the second [case] of [simplify], an expression that
    JavaScript evaluates before comparing. *)
Definition missingCaseLabel : jstr :=
  orElse (Some "MissingProperty")
    (orElse (Some "ExcessTripleViolation") (Some "NegatedProperty")).

(** The object literal of STEP 4. *)
Definition newFailure (r : ReportItem) (parentNode parentShape : jstr)
  : gmap string jstr :=
  <["type" := type r]>
  (<["property" := orElse (property r) (mjoin (constraint r))]>
  (<["message" := Some EmptyString]>
  (<["node" := orElse (orElse (mjoin (triple r)) parentNode) (Some EmptyString)]>
  (<["shape" := orElse parentShape (Some EmptyString)]>
  (<["severity" := Some "error"]> ∅))))).

(** The object pushed for an unexpected triple (STEP 3). *)
Definition closedFailure (r : ReportItem) (predicate : jstr)
  (message : string) (parentNode parentShape : jstr) : gmap string jstr :=
  <["type" := type r]>
  (<["property" := predicate]>
  (<["message" := Some message]>
  (<["node" := orElse parentNode (Some EmptyString)]>
  (<["shape" := parentShape]>
  (<["severity" := Some "error"]> ∅))))).

(** STEP 1 *)
Definition isSkipped (r : ReportItem) : bool :=
  negb (truthy (type r))
  || strictEq (type r) (Some "ShapeAndResults")
  || strictEq (type r) (Some "ShapeOrResults")
  || strictEq (property r) (Some (rdf "type"))
  || match constraint r with
     | Some p => strictEq p (Some (rdf "type"))
     | None => false
     end
  || strictEq (type r) (Some "NodeConstraintViolation")
  || strictEq (type r) (Some "ShapeOrFailure")
  || strictEq (type r) (Some "ShapeTest").

(** STEP 2 *)
Definition isNested (r : ReportItem) : bool :=
  strictEq (type r) (Some "ShapeAndFailure")
  || strictEq (type r) (Some "Failure")
  || strictEq (type r) (Some "SemActFailure")
  || strictEq (type r) (Some "FailureList")
  || strictEq (type r) (Some "ExtendedResults")
  || strictEq (type r) (Some "ExtensionFailure")
  || (negb (truthy (type r)) && true (* [jsonReport.errors], an array *)).

(** [this.failureMessages[jsonReport.type]] *)
Definition template (failureMessages : gmap string string) (r : ReportItem)
  : jstr :=
  failureMessages !! toString (type r).

(** [simplify(jsonReport, parentNode, parentShape)] on one report item;
    [this.failures] is passed in and returned. The array case (STEP 0) is
    the loop [forM] over the elements. *)
Fixpoint simplifyItem (failureMessages : gmap string string)
  (jsonReport : ReportItem) (parentNode parentShape : jstr)
  (failures : list (gmap string jstr)) {struct jsonReport}
  : Result (list (gmap string jstr)) :=
  match jsonReport with
  | mkReportItem _ _ node_ shape_ unexpected _ _ code_ _ errors_ =>
    if isSkipped jsonReport then Ok failures
    else if isNested jsonReport then
      forM (λ failures subReport,
              simplifyItem failureMessages subReport
                (orElse node_ parentNode) (orElse shape_ parentShape) failures)
        errors_ failures
    else if strictEq (type jsonReport) (Some "ClosedShapeViolation") then
      match unexpected with
      | Some triples =>
          forM
            (λ failures predicate,
               message ← formatString (template failureMessages jsonReport)
                           {[ "property" := Some (orEmpty predicate) ]};
               Ok (failures ++
                     [closedFailure jsonReport predicate message
                        parentNode parentShape]))
            triples failures
      | None => Ok failures
      end
    else
      let failure := newFailure jsonReport parentNode parentShape in
      if strictEq (type jsonReport) (Some "TypeMismatch") then
        message ← formatString (template failureMessages jsonReport) failure;
        failures' ← forM (λ failures subReport,
                            simplifyItem failureMessages subReport None None
                              failures)
                      errors_ failures;
        Ok (failures' ++ [<["message" := Some message]> failure])
      else if strictEq (type jsonReport) missingCaseLabel then
        message ← formatString (template failureMessages jsonReport) failure;
        Ok (failures ++ [<["message" := Some message]> failure])
      else if strictEq (type jsonReport) (Some "BooleanSemActFailure") then
        if negb (truthy (mjoin (ctx jsonReport))) then Ok failures
        else
          message ← formatString (template failureMessages jsonReport)
                      (<["property" := Utils.getField failure "property"]>
                         {[ "code" := code_ ]});
          Ok (failures ++ [<["message" := Some message]> failure])
      else
        Throw (ShexValidationError
                 ("Unknown failure type " +:+ toString (type jsonReport)))
  end.

(** STEP 0 *)
Definition simplify (failureMessages : gmap string string)
  (jsonReport : Report) (parentNode parentShape : jstr)
  (failures : list (gmap string jstr)) : Result (list (gmap string jstr)) :=
  match jsonReport with
  | Single item =>
      simplifyItem failureMessages item parentNode parentShape failures
  | Many items =>
      forM (λ failures subReport,
              simplifyItem failureMessages subReport parentNode parentShape
                failures)
        items failures
  end.

(** [getShapeCore(node)] *)
Fixpoint getShapeCore (node : Shape) : option Shape :=
  if String.eqb (shapeType node) "Shape" then Some node
  else
    match node with
    | mkShape _ _ _ (Some exprs) =>
        (fix first (l : list Shape) : option Shape :=
           match l with
           | [] => None
           | nestedStruct :: rest =>
               match getShapeCore nestedStruct with
               | Some core => Some core
               | None => first rest
               end
           end) exprs
    | mkShape _ _ _ None => None
    end.

(** The state of a [ValidationReport] after its constructor. *)
Record ValidationReport : Type := mkValidationReport {
  failures : list (gmap string jstr);
  shapesMap : gmap string (option Shape);
  failureMessages : gmap string string;
  severityMessages : gmap string string;
  annotationKeys : option (list (string * string));
  localizedAnnotations : gmap string (list (string * string))
}.

(** [getAnnotations(shape, property)] *)
Definition getAnnotations (this : ValidationReport) (shape_ property_ : string)
  : gmap string string :=
  match mjoin (shapesMap this !! shape_) with
  | None => ∅
  | Some shapeObj =>
      match expression shapeObj with
      | None => ∅
      | Some expr =>
          let propStructure :=
            match expr with
            | EachOf exprs =>
                head (List.filter (λ x, String.eqb (predicate x) property_) exprs)
            | OneConstraint tc =>
                if String.eqb (predicate tc) property_ then Some tc else None
            end in
          match propStructure with
          | None => ∅
          | Some ps =>
              match annotations ps with
              | None => ∅
              | Some l => foldl (λ mapper x, <[x.1 := x.2]> mapper) ∅ l
              end
          end
      end
  end.

(** Removal of the first element that satisfies [p]: what
    [failures.filter(x => !missingFailures.includes(x))] does with the
    object found by [filter(...)[0]], objects being compared by identity. *)
Fixpoint removeFirst {A} (p : A → bool) (l : list A) : list A :=
  match l with
  | [] => []
  | x :: r => if p x then r else x :: removeFirst p r
  end.

(** [removeMissingIfTypeMismatch()] *)
Definition removeMissingIfTypeMismatch (failures : list (gmap string jstr))
  : list (gmap string jstr) :=
  let typeMismatches :=
    List.filter (λ x, strictEq (Utils.getField x "type") (Some "TypeMismatch"))
      failures in
  foldl
    (λ failures typeMismatch,
       removeFirst
         (λ x, strictEq (Utils.getField x "property")
                 (Utils.getField typeMismatch "property")
               && strictEq (Utils.getField x "type") (Some "MissingProperty"))
         failures)
    failures typeMismatches.

(** [new ValidationReport(jsonReport, schema, localization, options)] *)
Definition newValidationReport (jsonReport : Report) (schema : Schema)
  (localization : Localization) (options : option (list (string * string)))
  : Result ValidationReport :=
  let shapesMap :=
    foldl (λ m shape, <[shapeId shape := getShapeCore shape]> m) ∅
      (shapes schema) in
  simplified ← simplify (failureTypes (messages localization)) jsonReport
                 None None [];
  Ok (mkValidationReport (removeMissingIfTypeMismatch simplified) shapesMap
        (failureTypes (messages localization))
        (severity (messages localization))
        options (locAnnotations localization)).

(** [addLocalizedAnnotations(failure, id)] *)
Definition addLocalizedAnnotations (this : ValidationReport)
  (failure : gmap string jstr) (id : string) : gmap string jstr :=
  match localizedAnnotations this !! id with
  | None => failure
  | Some entries =>
      foldl
        (λ failure entry,
           if negb (includesChar "@" entry.1)
           then <[entry.1 := Some entry.2]> failure
           else failure)
        failure entries
  end.

(** The body of the [map] callback of [toStructuredDataReport]. *)
Definition toStructuredDataFailure (this : ValidationReport)
  (err : gmap string jstr) : gmap string jstr :=
  let failure : gmap string jstr :=
    <["property" := Utils.getField err "property"]>
    (<["message" := Utils.getField err "message"]>
    (<["shape" := Utils.getField err "shape"]>
    (<["node" := Utils.getField err "node"]>
    (<["severity" := Some "error"]> ∅)))) in
  let failure :=
    match annotationKeys this with
    | Some keys =>
        if truthy (Utils.getField err "shape")
           && truthy (Utils.getField err "property") then
          let shapeAnnotations :=
            getAnnotations this (toString (Utils.getField err "shape"))
              (toString (Utils.getField err "property")) in
          let failure :=
            foldl
              (λ (failure : gmap string jstr) (entry : string * string),
                 let annotation :=
                   orElse (shapeAnnotations !! entry.2)
                     (Utils.getField failure entry.1) in
                 if truthy annotation then <[entry.1 := annotation]> failure
                 else failure)
              failure keys in
          match shapeAnnotations !! rdfs "label" with
          | Some label => addLocalizedAnnotations this failure (orEmpty (Some label))
          | None => failure
          end
        else failure
    | None => failure
    end in
  <["severityLabel" :=
      severityMessages this !! toString (Utils.getField failure "severity")]>
    failure.

(** [toStructuredDataReport()] *)
Definition toStructuredDataReport (this : ValidationReport)
  : list (gmap string jstr) :=
  map (toStructuredDataFailure this) (failures this).

(** [class ShexValidator]; the validation algorithm of @shexjs/core is an
    external collaborator, given as [shexValidate schema store node shape]. *)
Record ShexValidator : Type := mkShexValidator {
  vShapes : Schema;
  vLocalization : Localization;
  vOptions : option (list (string * string));
  shexValidate : Schema → Rdf.Store → string → string → Report;
  dummyUrl : string
}.

(** [validate(data, shape, {baseUrl})] for [data] a store; returns the
    [failures] of the result. [dummyUrl] stands for the random URL. *)
Definition validate (this : ShexValidator) (data : Rdf.Store)
  (shape_ : string) (baseUrl : jstr) : Result (list (gmap string jstr)) :=
  let baseUrl := toString (orElse baseUrl (Some (dummyUrl this))) in
  report ← newValidationReport
             (shexValidate this (vShapes this) data baseUrl shape_)
             (vShapes this) (vLocalization this) (vOptions this);
  Ok (toStructuredDataReport report).

End Validator.

(** ** schema-validator.js and parser.js *)
Module SchemaValidator.
Import JS Rdf Utils.

Definition rdf : string → string :=
  namespace "http://www.w3.org/1999/02/22-rdf-syntax-ns#".
Definition schema : string → string := namespace "http://schema.org/".
Definition shex : string → string := namespace "http://schema.org/shex#".

#[local] Set Warnings "-register-all".

(** [LH.SchemaramaStructuredData.Hierarchy] *)
Inductive Hierarchy : Type := mkHierarchy {
  service : string;
  nested : option (list Hierarchy)
}.

(** The annotations map of the module. *)
Definition annotations : list (string * string) :=
  [("url", schema "url");
   ("description", schema "description");
   ("severity", schema "identifier")].

(** What the module loads or calls and the sources do not contain: the
    assets (hierarchy.json, shexj.json, the localization tables), the
    validation algorithm of @shexjs/core, the three streaming parsers and
    the random URL of [dummyUrl]. A parser yields a store, [undefined]
    ([None]) or rejects ([Throw]). *)
Record Env : Type := mkEnv {
  hierarchy : Hierarchy;
  shapes : Shex.Schema;
  localeAnnotations : gmap string (list (string * string));
  localeMessages : Validator.LocalizedMessages;
  shexLibrary : Shex.Schema → Store → string → string → Shex.Report;
  randomUrl : string;
  parseJsonLd : string → string → Result (option Store);
  parseMicrodata : string → string → Result (option Store);
  parseRdfa : string → string → Result (option Store)
}.

Definition shapeIds (env : Env) : list string :=
  map Shex.shapeId (Shex.shapes (shapes env)).

Definition shexValidator (env : Env) : Validator.ShexValidator :=
  Validator.mkShexValidator (shapes env)
    (Validator.mkLocalization (localeAnnotations env) (localeMessages env))
    (Some annotations) (shexLibrary env) (randomUrl env).

(** [failures.forEach(failure => {...})] *)
Definition tagFailure (service_ type_ : string) (failure : gmap string jstr)
  : gmap string jstr :=
  <["node" := Some (removeUrls type_)]>
    (<["service" := Some service_]> failure).

(** The failures of the current hierarchy node, before its children are
    visited. *)
Definition ownFailures (env : Env) (hierarchyNode : Hierarchy)
  (store : Store) (id : string) (typeQuad : Quad)
  : Result (list (gmap string jstr)) :=
  let type_ := removeUrls (value (object typeQuad)) in
  let startShape :=
    shex ("Valid" +:+ service hierarchyNode +:+ removeUrls type_) in
  failures ←
    (if bool_decide (startShape ∈ shapeIds env)
     then Validator.validate (shexValidator env) store startShape (Some id)
     else Ok []);
  Ok (map (tagFailure (service hierarchyNode) type_) failures).

(** [.filter(x => !properties.has(x.property))] *)
Definition notShadowed (properties : list jstr) (x : gmap string jstr) : bool :=
  negb (bool_decide (getField x "property" ∈ properties)).

(** The loop over [hierarchyNode.nested]; [validateNested] is the
    recursive call on a child. *)
Fixpoint nestedLoop
  (validateNested : Hierarchy → Result (list (gmap string jstr)))
  (properties : list jstr) (children : list Hierarchy)
  (failures : list (gmap string jstr)) : Result (list (gmap string jstr)) :=
  match children with
  | [] => Ok failures
  | nestedService :: rest =>
      found ← validateNested nestedService;
      let nestedFailures := List.filter (notShadowed properties) found in
      nestedLoop validateNested properties rest
        (if Nat.ltb 0 (List.length nestedFailures)
         then failures ++ nestedFailures else failures)
  end.

(** [recursiveValidate(hierarchyNode, shapeStore, id)]; [shapeStore] is
    [None] for an [undefined] entry of the shapes map. *)
Fixpoint recursiveValidate (env : Env) (hierarchyNode : Hierarchy)
  (shapeStore : option Store) (id : string) {struct hierarchyNode}
  : Result (list (gmap string jstr)) :=
  match shapeStore with
  | None => Throw (TypeError "Cannot read properties of undefined")
  | Some store =>
      match getQuads store (Some id) (Some (rdf "type")) None with
      | [] =>
          Throw (InvalidDataError
                   "Markup doesn't have a type. Validation can't be performed")
      | typeQuad :: _ =>
          failures ← ownFailures env hierarchyNode store id typeQuad;
          let properties := map (λ failure, getField failure "property") failures in
          match hierarchyNode with
          | mkHierarchy _ (Some children) =>
              nestedLoop (λ nestedService,
                            recursiveValidate env nestedService shapeStore id)
                properties children failures
          | mkHierarchy _ None => Ok failures
          end
      end
  end.

(** [tryParse(parser)] *)
Definition tryParse (parsed : Result (option Store)) : option Store :=
  match parsed with
  | Ok quads => quads
  | Throw _ => None
  end.

Definition parseErrorMessage : string :=
  "Error while parsing the data. " +:+
  "This could be caused by incorrect data or incorrect data format. " +:+
  "Possible formats: json-ld, microdata, rdfa".

(** [stringToQuads(text, url)] of parser.js *)
Definition stringToQuads (env : Env) (text url : string) : Result Store :=
  let res :=
    match tryParse (parseJsonLd env text url) with
    | Some store => Some store
    | None =>
        match tryParse (parseMicrodata env text url) with
        | Some store => Some store
        | None => tryParse (parseRdfa env text url)
        end
    end in
  match res with
  | None => Throw (InvalidDataError parseErrorMessage)
  | Some store =>
      if Nat.eqb (List.length (getQuads store None None None)) 0
      then Throw (InvalidDataError parseErrorMessage)
      else Ok store
  end.

(** [utils.quadsToShapes(store)] as called here; running out of depth is
    the stack overflow of the engine. *)
Definition shapesOf (store : Store) : Result (list (string * option Store)) :=
  match quadsToShapes (2 + List.length store) store with
  | Some shapes_ => Ok shapes_
  | None => Throw (RangeError "Maximum call stack size exceeded")
  end.

Definition dedupKeys : list string := ["property"; "shape"; "severity"].

(** The [for] loop over [shapes.entries()]. [report] is extended in place,
    so what was pushed before an exception stays: the loop returns the
    report together with the exception that ended it, if any. *)
Fixpoint validateEntities (env : Env) (entries : list (string * option Store))
  (report : list (gmap string jstr))
  : list (gmap string jstr) * option Error :=
  match entries with
  | [] => (report, None)
  | (id, shape) :: rest =>
      match
        found ← recursiveValidate env (hierarchy env) shape id;
        uniqueBy found dedupKeys
      with
      | Ok failures =>
          validateEntities env rest
            (if Nat.ltb 0 (List.length failures)
             then report ++ failures else report)
      | Throw e => (report, Some e)
      end
  end.

(** The body of the [try] block for one item. *)
Definition validateItem (env : Env) (item url : string)
  (report : list (gmap string jstr))
  : list (gmap string jstr) * option Error :=
  match store ← stringToQuads env item url; shapesOf store with
  | Throw e => (report, Some e)
  | Ok shapes_ => validateEntities env shapes_ report
  end.

(** The [for] loop over [data] with its [catch] clause. *)
Fixpoint validateItems (env : Env) (data : list string) (url : string)
  (report : list (gmap string jstr)) : Result (list (gmap string jstr)) :=
  match data with
  | [] => Ok report
  | item :: rest =>
      match validateItem env item url report with
      | (report', None) => validateItems env rest url report'
      | (report', Some (InvalidDataError _)) => validateItems env rest url report'
      | (_, Some e) => Throw e
      end
  end.

Definition validateSchemaOrg (env : Env) (data : list string) (url : string)
  : Result (list (gmap string jstr)) :=
  validateItems env data url [].

End SchemaValidator.

(** ** Notions used to state the properties of the graph algorithms *)
Module Graph.
Import JS Rdf Utils.

(** An edge of the store: from the subject of a triple to its object,
    literal objects excluded. *)
Definition edge (store : Store) (x y : string) : Prop :=
  ∃ q, q ∈ store ∧ id (subject q) = x ∧ isLiteral (object q) = false
       ∧ id (object q) = y.

Definition reachable (store : Store) : string → string → Prop :=
  rtc (edge store).

Definition mutuallyReachable (store : Store) (x y : string) : Prop :=
  reachable store x y ∧ reachable store y x.

(** The vertices [forwardDfs] may move to from [v], in the order of its loop. *)
Definition succs (store : Store) (nodes : list string) (v : string)
  : list string :=
  omap (λ quad, if negb (isLiteral (object quad))
                   && bool_decide (id (object quad) ∈ nodes)
                then Some (id (object quad)) else None)
    (getQuads store (Some v) None None).

(** The vertices [backwardDfs] may move to from [v]. *)
Definition preds (store : Store) (v : string) : list string :=
  map (λ quad, id (subject quad)) (getQuads store None None (Some v)).

(** Paths all of whose vertices satisfy [W]. *)
Inductive reachIn (E : string → string → Prop) (W : string → Prop)
  : string → string → Prop :=
| reachIn_refl x : W x → reachIn E W x x
| reachIn_step x y z : W x → E x y → reachIn E W y z → reachIn E W x z.

(** The vertices of [nodes] not yet marked in [used]. *)
Definition white (nodes : list string) (used : gmap string bool) (x : string)
  : Prop :=
  x ∈ nodes ∧ isUsed used x = false.

Definition countWhite (nodes : list string) (used : gmap string bool) : nat :=
  List.length (List.filter (λ x, negb (isUsed used x)) nodes).

(** [b] occurs in [l] at the position of [c] or before it. *)
Definition atOrBefore (l : list string) (b c : string) : Prop :=
  ∃ l1 l2, l = l1 ++ c :: l2 ∧ b ∈ l1 ++ [c].

(** The property of a finishing order that the second pass relies on:
    whatever a vertex reaches is finished no later than some vertex of its
    own component. *)
Definition finishing (E : string → string → Prop) (W : string → Prop)
  (l : list string) : Prop :=
  ∀ a b, a ∈ l → reachIn E W a b →
    ∃ c, c ∈ l ∧ reachIn E W a c ∧ reachIn E W c a ∧ atOrBefore l b c.

(** The loops that start a traversal at each unmarked vertex of a list. *)
Definition visitAll (store : Store) (nodes : list string) (fuel : nat)
  (cs : list string) (st : gmap string bool * list string)
  : option (gmap string bool * list string) :=
  foldM (λ (st : gmap string bool * list string) c,
           if negb (isUsed st.1 c) then forwardDfs store nodes fuel c st
           else Some st) cs st.

Definition visitAllBack (store : Store) (fuel : nat)
  (cs : list string) (st : gmap string bool * list string)
  : option (gmap string bool * list string) :=
  foldM (λ (st : gmap string bool * list string) c,
           if negb (isUsed st.1 c) then backwardDfs store fuel c st
           else Some st) cs st.

(** What a traversal leaves behind: the vertices it marks and appends. *)
Definition marks (used used' : gmap string bool) (new : list string) : Prop :=
  ∀ x, isUsed used' x = true ↔ isUsed used x = true ∨ x ∈ new.

(** The edges each traversal follows. *)
Definition fwd (store : Store) (nodes : list string) (x y : string) : Prop :=
  y ∈ succs store nodes x.
Definition bwd (store : Store) (x y : string) : Prop :=
  y ∈ preds store x.

(** [forwardDfs] at depth [fuel]: it returns, and appends the unmarked
    vertices its start reaches through unmarked vertices, in finishing
    order. *)
Definition forwardSpec (store : Store) (nodes : list string) (fuel : nat)
  : Prop :=
  ∀ v used order,
    v ∈ nodes → isUsed used v = false → countWhite nodes used ≤ fuel →
    ∃ used' new,
      forwardDfs store nodes fuel v (used, order) = Some (used', order ++ new)
      ∧ marks used used' new
      ∧ NoDup new
      ∧ (∀ x, x ∈ new ↔ reachIn (fwd store nodes) (white nodes used) v x)
      ∧ finishing (fwd store nodes) (white nodes used) new.

(** [backwardDfs] at depth [fuel]. *)
Definition backwardSpec (store : Store) (fuel : nat) : Prop :=
  ∀ v used comp,
    v ∈ nodesOf store → isUsed used v = false →
    countWhite (nodesOf store) used ≤ fuel →
    ∃ used' new,
      backwardDfs store fuel v (used, comp) = Some (used', comp ++ new)
      ∧ marks used used' new
      ∧ NoDup new
      ∧ (∀ x, x ∈ new ↔
              reachIn (bwd store) (white (nodesOf store) used) v x).

(** Reachability and mutual reachability among the nodes of the store. *)
Definition reach (store : Store) : string → string → Prop :=
  reachIn (fwd store (nodesOf store)) (λ x, x ∈ nodesOf store).

(** The finishing order, read on the vertices not yet collected. *)
Definition restFinishing (store : Store) (order : list string)
  (used : gmap string bool) : Prop :=
  ∀ a b, a ∈ order → isUsed used a = false → reach store a b →
    isUsed used b = false
    ∧ ∃ c, isUsed used c = false ∧ reach store a c ∧ reach store c a
           ∧ atOrBefore order b c.

(** The components collected so far are the classes of mutual reachability. *)
Definition sound (store : Store) (order : list string) (st : Pass2) : Prop :=
  (∀ a b ca cb, (a, ca) ∈ components st → (b, cb) ∈ components st →
     (ca = cb ↔ reach store a b ∧ reach store b a))
  ∧ (∀ a b, isUsed (used2 st) a = true → reach store a b → reach store b a →
       isUsed (used2 st) b = true)
  ∧ restFinishing store order (used2 st).

(** The invariant of the last loop, [back] being the part of [order]
    already gone through. *)
Definition pass2Inv (store : Store) (order back : list string) (st : Pass2)
  : Prop :=
  component st = []
  ∧ (∀ x, isUsed (used2 st) x = true ↔ x ∈ (components st).*1)
  ∧ (∀ x, x ∈ (components st).*1 → x ∈ nodesOf store)
  ∧ (∀ x, x ∈ back → isUsed (used2 st) x = true)
  ∧ NoDup (components st).*1
  ∧ (∀ x c, (x, c) ∈ components st → c < componentIdx st)
  ∧ (wfStore store → sound store order st).
End Graph.

(** ** Notions used to state the properties of shape extraction *)
Module Shapes.
Import JS Rdf Utils.

(** The ids that occur as objects. *)
Definition objectIds (store : Store) : list string :=
  dedup (map (λ q, id (object q)) store).

(** How many object ids [parsed] does not hold yet: what bounds the depth
    of [getShape]. *)
Definition countFresh (store : Store) (parsed : list jstr) : nat :=
  List.length
    (List.filter (λ o, negb (bool_decide (Some o ∈ parsed))) (objectIds store)).

(** [getShape] at depth [fuel]: it returns, and only adds to [parsed]. *)
Definition getShapeSpec (store : Store) (fuel : nat) : Prop :=
  ∀ i shapes parsed,
    (getQuads store (Some (lookupId i)) None None = [] ∧ 1 ≤ fuel)
    ∨ countFresh store (parsed ++ [idProp i]) + 2 ≤ fuel →
    ∃ r parsed',
      getShape fuel i store shapes parsed = Some (r, parsed')
      ∧ (∀ x, x ∈ parsed ++ [idProp i] → x ∈ parsed').

(** No triple is held twice. *)
Definition noRepeat (st : Store) : Prop :=
  ∀ i j a b, i < j → st !! i = Some a → st !! j = Some b → sameQuad a b = false.

(** A decidable form of [wfStore]. *)
Definition wfStoreb (store : Store) : bool :=
  forallb
    (λ q, negb (isLiteral (object q))
          || forallb (λ q', negb (String.eqb (id (object q)) (id (subject q'))))
               store)
    store.
End Shapes.

(** ** Notions used to state the properties of the report *)
Module Report.
Import JS Rdf Utils SchemaValidator.

(** No two entries of [l] carry the same key, the key ["__proto__"] apart. *)
Definition distinctKeys {A} (key : A → string) (l : list A) : Prop :=
  ∀ i j f g, i < j → l !! i = Some f → l !! j = Some g →
    key f = key g → key f = "__proto__".

(** Every first occurrence of a key in [items] is in [out]. *)
Definition keepsFirst {A} (key : A → string) (seen : gset string)
  (items out : list A) : Prop :=
  ∀ l1 f l2, items = l1 ++ f :: l2 → key f ∉ seen →
    key f ∉ map key l1 → f ∈ out.

(** A failure as [validate] returns it for some store and shape. *)
Definition produced (env : Env) (f : gmap string jstr) : Prop :=
  ∃ store shape_ baseUrl failures,
    Validator.validate (shexValidator env) store shape_ baseUrl = Ok failures
    ∧ f ∈ failures.

(** The failures that one entity adds to the report. *)
Definition entityChunk (env : Env) (chunk : list (gmap string jstr)) : Prop :=
  ∃ id shape_ found,
    recursiveValidate env (hierarchy env) shape_ id = Ok found
    ∧ uniqueBy found dedupKeys = Ok chunk.

Definition children (node : Hierarchy) : list Hierarchy :=
  default [] (nested node).

Definition properties (failures : list (gmap string jstr)) : list jstr :=
  map (λ failure, getField failure "property") failures.
End Report.

(** ** Concrete inputs *)
Module Examples.
Import JS Rdf Utils.



Definition namedNode (iri : string) : Term := mkTerm NamedNode iri iri.

Definition literal (text : string) : Term :=
  mkTerm Literal (String "034" text +:+ String "034" EmptyString) text.

Definition triple (s p o : string) : Quad :=
  mkQuad (namedNode s) (namedNode p) (namedNode o).

(** [A] points to [B], which is the subject of no triple. *)
Definition objectOnlyStore : Store := [triple "A" "p" "B"].

(** [A] and [B] point to each other. *)
Definition mutualStore : Store := [triple "A" "p" "B"; triple "B" "p" "A"].

(** A chain into a cycle, with a literal on the way. *)
Definition chainStore : Store :=
  [triple "A" "p" "B"; triple "B" "p" "C"; triple "C" "p" "B";
   triple "D" "p" "A";
   mkQuad (namedNode "D") (namedNode "n") (literal "x")].

Definition typeIri : string := "http://www.w3.org/1999/02/22-rdf-syntax-ns#type".


Definition untypedThenTyped : Store :=
  [triple "http://example.org/a" "http://schema.org/name" "http://example.org/n";
   triple "http://example.org/b" typeIri "http://schema.org/Thing"].

Definition plainItem (type_ property_ : string) : Shex.ReportItem :=
  Shex.mkReportItem (Some type_) (Some property_) None None None None None
    None None [].

(** What shex.js reports for a missing [name]. *)
Definition missingName (node_ shape_ : string) : Shex.Report :=
  Shex.Single
    (Shex.mkReportItem (Some "Failure") None (Some node_) (Some shape_)
       None None None None None
       [plainItem "MissingProperty" "http://schema.org/name"]).

Definition thingShapeId : string := "http://schema.org/shex#ValidSchemaThing".

Definition labelIri : string := "http://www.w3.org/2000/01/rdf-schema#label".

(** A shape whose [name] constraint carries a description and a label. *)
Definition thingShape : Shex.Shape :=
  Shex.mkShape "Shape" thingShapeId
    (Some (Shex.OneConstraint
             (Shex.mkTripleConstraint "http://schema.org/name"
                (Some [("http://schema.org/description", "Add a name");
                       (labelIri, "name-label")]))))
    None.

Definition enMessages : Validator.LocalizedMessages :=
  Validator.mkMessages
    (<["error" := "error"]> {[ "warning" := "warning" ]})
    (<["MissingProperty" := "Property {property} not found"]>
     (<["TypeMismatch" :=
          "Value provided for property {property} has an unexpected type"]>
     (<["ExcessTripleViolation" := "Property {property} has too many values"]>
     (<["NegatedProperty" := "Property {property} is not allowed"]>
      {[ "BooleanSemActFailure" := "Property {property} failed check {code}" ]})))).

(** A localized annotation that redefines [description] and [severity]. *)
Definition enAnnotations : gmap string (list (string * string)) :=
  {[ "name-label" :=
       [("@shape", thingShapeId); ("@property", "http://schema.org/name");
        ("description", "A localized text"); ("severity", "warning")] ]}.

Definition exEnv (document : Store)
  (localeAnnotations : gmap string (list (string * string)))
  : SchemaValidator.Env :=
  SchemaValidator.mkEnv
    (SchemaValidator.mkHierarchy "Schema" None)
    (Shex.mkSchema [thingShape])
    localeAnnotations enMessages
    (λ _ _ node_ shape_, missingName node_ shape_)
    "https://example.org/0000000000000000"
    (λ _ _, Ok (Some document))
    (λ _ _, Ok None)
    (λ _ _, Ok None).

(** The failure that [exEnv] reports for an entity of type Thing. *)
Definition thingFailure : gmap string jstr :=
  <["property" := Some "http://schema.org/name"]>
  (<["message" := Some "Property http://schema.org/name not found"]>
  (<["shape" := Some thingShapeId]>
  (<["node" := Some "Thing"]>
  (<["severity" := Some "error"]>
  (<["description" := Some "Add a name"]>
  (<["severityLabel" := Some "error"]>
   {[ "service" := Some "Schema" ]})))))).

(** The failure of the nested service that is not shadowed in [nestedEnv]. *)
Definition imageFailure : gmap string jstr :=
  <["property" := Some "http://schema.org/image"]>
  (<["message" := Some "Property http://schema.org/image not found"]>
  (<["shape" := Some EmptyString]>
  (<["node" := Some "Thing"]>
  (<["severity" := Some "error"]>
  (<["severityLabel" := Some "error"]>
   {[ "service" := Some "Google" ]}))))).

Definition oneThing : Store :=
  [triple "http://example.org/a" typeIri "http://schema.org/Thing"].


(** A hierarchy with one nested service, both services with a shape. *)
Definition nestedEnv : SchemaValidator.Env :=
  SchemaValidator.mkEnv
    (SchemaValidator.mkHierarchy "Schema"
       (Some [SchemaValidator.mkHierarchy "Google" None]))
    (Shex.mkSchema
       [thingShape;
        Shex.mkShape "Shape" "http://schema.org/shex#ValidGoogleThing" None None])
    ∅ enMessages
    (λ _ _ node_ shape_,
       if String.eqb shape_ thingShapeId then missingName node_ shape_
       else
         Shex.Many [plainItem "MissingProperty" "http://schema.org/name";
                    plainItem "MissingProperty" "http://schema.org/image"])
    "https://example.org/0000000000000000"
    (λ _ _, Ok (Some oneThing))
    (λ _ _, Ok None)
    (λ _ _, Ok None).

(** The validation library reports an excess triple. *)
Definition excessEnv : SchemaValidator.Env :=
  SchemaValidator.mkEnv
    (SchemaValidator.mkHierarchy "Schema" None)
    (Shex.mkSchema [thingShape])
    ∅ enMessages
    (λ _ _ _ _,
       Shex.Single (plainItem "ExcessTripleViolation" "http://schema.org/name"))
    "https://example.org/0000000000000000"
    (λ _ _, Ok (Some oneThing))
    (λ _ _, Ok None)
    (λ _ _, Ok None).

Definition exReport : Validator.ValidationReport :=
  Validator.mkValidationReport [] ∅ ∅ ∅ (Some SchemaValidator.annotations)
    enAnnotations.

(** A failure whose description was set from the shape. *)
Definition describedFailure : gmap string jstr :=
  <["property" := Some "http://schema.org/name"]>
  (<["description" := Some "Add a name"]>
   {[ "severity" := Some "error" ]}).

End Examples.

(** ** parser.js: the parsers *)
Module Parser.
Import JS Rdf.

(** What a streaming parser of the libraries emits for a text: the quads of
    its [data] events and then either [end] or an [error]. *)
Record Stream : Type := mkStream {
  data : list Quad;
  error : option Error
}.

(** The body of the promise that [parseJsonLd], [parseRdfa] and
    [parseMicrodata] share: every quad goes to a new store, an error
    rejects, and at the end an empty store resolves to [undefined]. *)
Definition collect (stream : Stream) : Result (option Store) :=
  let store := foldl addQuad [] (data stream) in
  match error stream with
  | Some err => Throw err
  | None =>
      if Nat.eqb (List.length (getQuads store None None None)) 0
      then Ok None else Ok (Some store)
  end.

(** [parseJsonLd(text, baseUrl)], [jsonLdParser] being the parser of
    jsonld-streaming-parser. *)
Definition parseJsonLd (jsonLdParser : string → string → Stream)
  (text baseUrl : string) : Result (option Store) :=
  collect (jsonLdParser text baseUrl).

(** [parseRdfa(text, baseUrl)] *)
Definition parseRdfa (rdfaParser : string → string → Stream)
  (text baseUrl : string) : Result (option Store) :=
  collect (rdfaParser text baseUrl).

(** [parseMicrodata(text, baseUrl)] *)
Definition parseMicrodata (microdataParser : string → string → Stream)
  (text baseUrl : string) : Result (option Store) :=
  collect (microdataParser text baseUrl).


(** [parseNQuads(text, baseUrl)] *)
Definition parseNQuads (turtleParser : string → string → Result (list Quad))
  (text baseUrl : string) : Result Store :=
  quads ← turtleParser text baseUrl;
  Ok (foldl addQuad [] quads).

(** The module with its three streaming parsers in place. *)
Definition withParsers (env : SchemaValidator.Env)
  (jsonLdParser microdataParser rdfaParser : string → string → Stream)
  : SchemaValidator.Env :=
  SchemaValidator.mkEnv
    (SchemaValidator.hierarchy env) (SchemaValidator.shapes env)
    (SchemaValidator.localeAnnotations env) (SchemaValidator.localeMessages env)
    (SchemaValidator.shexLibrary env) (SchemaValidator.randomUrl env)
    (parseJsonLd jsonLdParser) (parseMicrodata microdataParser)
    (parseRdfa rdfaParser).

(** The first stream, in the order the parsers are tried, that ends
    without an error and carries a quad. *)
Definition firstParsed (streams : list Stream) : option Stream :=
  head (List.filter
          (λ s, bool_decide (error s = None)
                && negb (Nat.eqb (List.length (data s)) 0))
          streams).

End Parser.

(** ** helpers/utils.js: dummyUrl *)
Module Url.
Import JS.

Definition characters : string :=
  "ABCDEFGHIJKLMNOPQRSTUVWXYZabcdefghijklmnopqrstuvwxyz0123456789".

(** [s.charAt(i)]: the empty string when [i] is out of range. *)
Definition charAt (s : string) (i : nat) : string :=
  match String.get i s with
  | Some c => String c EmptyString
  | None => EmptyString
  end.

(** [dummyUrl(length)]; [random i] is the value that
    [Math.floor(Math.random() * characters.length)] takes in round [i]. *)
Definition dummyUrl (random : nat → nat) (length : nat) : string :=
  foldl (λ result i, result +:+ charAt characters (random i))
    "https://example.org/" (List.seq 0 length).

End Url.

(** ** The audit: structured-data.js *)
Module StructuredData.
Import JS Utils.

(** A value of a table row: a string or [undefined], or the link object
    that replaces [url]. *)
Inductive Cell : Type :=
| Text (v : jstr)
| Link (text url : jstr).

Notation Row := (gmap string Cell) (only parsing).

(** The callback of [report.forEach]: the element after its fields were
    rewritten. [toUpperCase] is the method of strings. *)
Definition formatElement (toUpperCase : string → string)
  (element : gmap string jstr) : Result Row :=
  let element :=
    if truthy (getField element "message")
    then <["message" := Some (removeUrls (toString (getField element "message")))]>
           element
    else element in
  let element :=
    if truthy (getField element "property")
    then <["property" := Some (removeUrls (toString (getField element "property")))]>
           element
    else element in
  match getField element "node" with
  | None => Throw (TypeError "Cannot read properties of undefined (reading 'match')")
  | Some node =>
      let element := <["node" := Some (removeUrls node)]> element in
      match orElse (getField element "severityLabel") (getField element "severity") with
      | None =>
          Throw (TypeError "Cannot read properties of undefined (reading 'toUpperCase')")
      | Some label =>
          let element :=
            <["message" :=
                Some (toUpperCase label +:+ ":" +:+ String "010" "        "
                      +:+ toString (getField element "message") +:+ ". "
                      +:+ orEmpty (getField element "description"))]> element in
          Ok (<["url" := Link (getField element "service") (getField element "url")]>
                (Text <$> element))
      end
  end.

(** The names that every plain object inherits from [Object.prototype]. *)
Definition objectPrototypeNames : list string :=
  ["constructor"; "hasOwnProperty"; "isPrototypeOf"; "propertyIsEnumerable";
   "toLocaleString"; "toString"; "valueOf"; "__proto__";
   "__defineGetter__"; "__defineSetter__"; "__lookupGetter__"; "__lookupSetter__"].

(** [reportItem.node] used as a property name. *)
Definition nodeKey (reportItem : Row) : string :=
  match reportItem !! "node" with
  | Some (Text v) => toString v
  | Some (Link _ _) => "[object Object]"
  | None => "undefined"
  end.

(** [groupBy(res, reportItem)]; [res] holds its own properties in the order
    of their creation. An inherited property is neither falsy nor iterable. *)
Definition groupBy (res : list (string * list Row)) (reportItem : Row)
  : Result (list (string * list Row)) :=
  match mapGet res (nodeKey reportItem) with
  | Some rows => Ok (mapSet res (nodeKey reportItem) (rows ++ [reportItem]))
  | None =>
      if bool_decide (nodeKey reportItem ∈ objectPrototypeNames)
      then Throw (TypeError "res[reportItem.node] is not iterable")
      else Ok (mapSet res (nodeKey reportItem) [reportItem])
  end.

Definition digit (c : ascii) : option N :=
  let n := N_of_ascii c in
  if (48 <=? n)%N && (n <=? 57)%N then Some (n - 48)%N else None.

Fixpoint digits (l : list ascii) (acc : N) : option N :=
  match l with
  | [] => Some acc
  | c :: r =>
      match digit c with
      | Some d => digits r (10 * acc + d)%N
      | None => None
      end
  end.

(** The array index that a property name denotes, if any: a canonical
    numeric string below [2^32 - 1]. *)
Definition arrayIndex (key : string) : option N :=
  match chars key with
  | [] => None
  | c :: r =>
      if isChar c "0" && negb (Nat.eqb (List.length r) 0) then None
      else
        match digits (c :: r) 0 with
        | Some n => if (n <? 4294967295)%N then Some n else None
        | None => None
        end
  end.

Fixpoint insertByIndex {V} (n : N) (entry : string * V)
  (l : list (N * (string * V))) : list (N * (string * V)) :=
  match l with
  | [] => [(n, entry)]
  | (m, e) :: r =>
      if (n <? m)%N then (n, entry) :: (m, e) :: r
      else (m, e) :: insertByIndex n entry r
  end.

(** [Object.entries(o)]: the array indices in ascending order, then the
    other names in the order of their creation. *)
Definition objectEntries {V} (o : list (string * V)) : list (string * V) :=
  map snd
    (foldl (λ sorted entry,
              match arrayIndex entry.1 with
              | Some n => insertByIndex n entry sorted
              | None => sorted
              end) [] o)
  ++ List.filter (λ entry, negb (bool_decide (is_Some (arrayIndex entry.1)))) o.

(** An item of the table: the array of the rows whose node is empty, or a
    group [{property, subItems: {items}}]. *)
Inductive TableItem : Type :=
| Ungrouped (rows : list Row)
| Group (property : string) (items : list Row).

(** The body of the loop over the entries of [groupedByNode]. *)
Definition tableItem (entry : string * list Row) : TableItem :=
  if String.eqb entry.1 EmptyString then Ungrouped entry.2 else Group entry.1 entry.2.

(** [StructuredData.reportToTable(report)] *)
Definition reportToTable (toUpperCase : string → string)
  (report : list (gmap string jstr)) : Result (list TableItem) :=
  rows ← forM (λ rows element,
                 row ← formatElement toUpperCase element;
                 Ok (rows ++ [row]))
            report [];
  groupedByNode ← forM groupBy rows [];
  Ok (map tableItem (objectEntries groupedByNode)).

(** The artifacts that the audit reads. *)
Record ScriptElement : Type := mkScriptElement {
  scriptType : jstr;
  content : jstr
}.

Record Artifacts : Type := mkArtifacts {
  ScriptElements : list ScriptElement;
  MainDocumentContent : string;
  finalUrl : string
}.

(** The texts handed to the validator. *)
Definition auditData (artifacts : Artifacts) : list string :=
  omap (λ scriptElement,
          if strictEq (scriptType scriptElement) (Some "application/ld+json")
             && truthy (content scriptElement)
          then content scriptElement else None)
    (ScriptElements artifacts)
  ++ [MainDocumentContent artifacts].

Definition hasSeverity (severity : string) (x : gmap string jstr) : bool :=
  strictEq (getField x "severity") (Some severity).

(** The score, as the rational number that the arithmetic denotes; the
    program holds the double nearest to it, and comparing with [0.01]
    gives the same on both, the numerator being an integer. *)
Definition score (errorsCount warningsCount : nat) : QArith_base.Q :=
  let score :=
    QArith_base.Qdiv
      (QArith_base.inject_Z
         (100 - Z.of_nat errorsCount * 10 - Z.of_nat warningsCount * 5))
      (QArith_base.inject_Z 100) in
  if QArith_base.Qlt_le_dec (QArith_base.Qmake 1 100) score then score
  else QArith_base.Qmake 1 100.

(** [StructuredData.audit(artifacts)]: the score and the items of the
    table. *)
Definition audit (env : SchemaValidator.Env) (toUpperCase : string → string)
  (artifacts : Artifacts) : Result (QArith_base.Q * list TableItem) :=
  validationFailures ←
    SchemaValidator.validateSchemaOrg env (auditData artifacts) (finalUrl artifacts);
  let report :=
    if Nat.ltb 0 (List.length validationFailures)
    then [] ++ validationFailures else [] in
  let errorsCount := List.length (List.filter (hasSeverity "error") report) in
  let warningsCount := List.length (List.filter (hasSeverity "warning") report) in
  items ← reportToTable toUpperCase report;
  Ok (score errorsCount warningsCount, items).

End StructuredData.

(** ** Notions used to state further properties *)
Module Notions.
Import JS Rdf Utils Shex.

(** How many elements of [l] satisfy [p]. *)
Definition count {A} (p : A → bool) (l : list A) : nat :=
  List.length (List.filter p l).

Definition hasType (type_ : string) (x : gmap string jstr) : bool :=
  strictEq (getField x "type") (Some type_).

(** A failure of the given type on the property [p]. *)
Definition isFailure (type_ : string) (p : jstr) (x : gmap string jstr) : bool :=
  strictEq (getField x "property") p && hasType type_ x.

(** The body of the loop of [removeMissingIfTypeMismatch]. *)
Definition dropMissing (failures : list (gmap string jstr))
  (typeMismatch : gmap string jstr) : list (gmap string jstr) :=
  Validator.removeFirst
    (λ x, strictEq (getField x "property") (getField typeMismatch "property")
          && strictEq (getField x "type") (Some "MissingProperty"))
    failures.

(** [d] is [s] or lies below it along [shapeExprs]. *)
Inductive nestedIn : Shape → Shape → Prop :=
| nestedIn_self s : nestedIn s s
| nestedIn_expr s exprs e d :
    shapeExprs s = Some exprs → e ∈ exprs → nestedIn e d → nestedIn s d.

(** The first core shape among the elements of [shapeExprs]. *)
Fixpoint firstCore (l : list Shape) : option Shape :=
  match l with
  | [] => None
  | nestedStruct :: rest =>
      match Validator.getShapeCore nestedStruct with
      | Some core => Some core
      | None => firstCore rest
      end
  end.

(** What [simplify] pushes: a failure of one of four types with severity
    [error] and a message, never about the rdf:type of a node unless it
    comes from a closed shape. *)
Definition emitted (f : gmap string jstr) : Prop :=
  getField f "type" ∈ [Some "TypeMismatch"; Some "MissingProperty";
                       Some "BooleanSemActFailure"; Some "ClosedShapeViolation"]
  ∧ getField f "severity" = Some "error"
  ∧ is_Some (getField f "message")
  ∧ is_Some (getField f "node")
  ∧ (getField f "type" ≠ Some "ClosedShapeViolation" →
     getField f "property" ≠ Some (Validator.rdf "type")).

(** The errors that the simplifier can raise. *)
Definition simplifierError (e : Error) : Prop :=
  (∃ msg, e = ShexValidationError msg) ∨ (∃ msg, e = TypeError msg).

(** The outcome of a call of [simplify] that started with [failures]:
    failures are only added, each of them as [emitted] describes, or the
    call ends with one of the two errors. *)
Definition extends (failures : list (gmap string jstr))
  (r : Result (list (gmap string jstr))) : Prop :=
  match r with
  | Ok out => ∃ new, out = failures ++ new ∧ Forall emitted new
  | Throw e => simplifierError e
  end.

(** Every triple that points to a collected vertex starts at a collected
    vertex. *)
Definition predClosed (store : Store) (st : Pass2) : Prop :=
  ∀ a b, isUsed (used2 st) b = true → Graph.bwd store b a →
    isUsed (used2 st) a = true.

(** Along a triple the number of the component does not decrease. *)
Definition ordered (store : Store) (st : Pass2) : Prop :=
  ∀ a b ca cb, (a, ca) ∈ components st → (b, cb) ∈ components st →
    Graph.bwd store b a → ca ≤ cb.

(** The keys that the last loop of [quadsToShapes] adds to [shapes]. *)
Fixpoint rootKeys (entries : list (string * nat)) (notRoot : gset nat)
  : list string :=
  match entries with
  | [] => []
  | (node, component) :: rest =>
      if bool_decide (component ∈ notRoot) then rootKeys rest notRoot
      else node :: rootKeys rest (notRoot ∪ {[component]})
  end.

(** A store holds a triple with the ids of [q]. *)
Definition holds (st : list Quad) (q : Quad) : Prop :=
  ∃ q', q' ∈ st ∧ sameQuad q q' = true.

(** The triples of a result of [getShape]. *)
Definition quadsOf (r : option (list Quad)) : list Quad := default [] r.

(** The body of the loop of [getShape], the recursive calls being made at
    depth [fuel]. *)
Definition visitObject (fuel : nat) (store : list Quad)
  (shapes : list (string * option (list Quad)))
  (st : list Quad * list jstr) (quad : Quad)
  : option (list Quad * list jstr) :=
  if negb (isLiteral (object quad))
     && bool_decide (Some (id (object quad)) ∈ st.2)
  then Some st
  else
    match
      match shapesGet shapes (IdTerm (object quad)) with
      | Some found => Some (Some found, st.2)
      | None => getShape fuel (IdTerm (object quad)) store shapes st.2
      end
    with
    | None => None
    | Some (Some nestedStore, parsed') =>
        if Nat.ltb 0 (List.length (getQuads nestedStore None None None))
        then Some (st.1 ++ getQuads nestedStore None None None, parsed')
        else Some (st.1, parsed')
    | Some (None, parsed') => Some (st.1, parsed')
    end.

(** What a traversal that took [parsed] to [parsed'] and gathered [acc]
    has done for the ids it added: their triples are gathered, and what
    they point to is parsed. *)
Definition closedOver (store : list Quad) (parsed parsed' : list jstr)
  (acc : list Quad) : Prop :=
  (∀ x, Some x ∈ parsed' → Some x ∉ parsed →
     ∀ q, q ∈ store → id (subject q) = x → holds acc q)
  ∧ (∀ x, Some x ∈ parsed' → Some x ∉ parsed →
       ∀ y, Graph.edge store x y → Some y ∈ parsed').

(** What a call of [getShape] that returns has done. *)
Definition getShapeSound (store : list Quad) (fuel : nat) : Prop :=
  ∀ i shapes parsed r parsed',
    getShape fuel i store shapes parsed = Some (r, parsed') →
    (∀ x, x ∈ parsed → x ∈ parsed')
    ∧ idProp i ∈ parsed'
    ∧ (r = None → ∀ q, q ∈ store → id (subject q) ≠ lookupId i)
    ∧ (∀ q, q ∈ quadsOf r →
         q ∈ store ∧ Graph.reachable store (lookupId i) (id (subject q)))
    ∧ (∀ q, q ∈ store → id (subject q) = lookupId i → holds (quadsOf r) q)
    ∧ (∀ y, Graph.edge store (lookupId i) y → Some y ∈ parsed')
    ∧ closedOver store parsed parsed' (quadsOf r).

(** The body of the last loop of [quadsToShapes]. *)
Definition addShape (fuel : nat) (store : list Quad)
  (st : list (string * option (list Quad)) * gset nat) (entry : string * nat)
  : option (list (string * option (list Quad)) * gset nat) :=
  if negb (bool_decide (entry.2 ∈ st.2)) then
    match getShape fuel (IdString entry.1) store st.1 [] with
    | None => None
    | Some (shape, _) => Some (mapSet st.1 entry.1 shape, st.2 ∪ {[entry.2]})
    end
  else Some st.

(** An entry of [shapes] is what [getShape] returned for its key. *)
Definition built (fuel : nat) (store : list Quad)
  (entry : string * option (list Quad)) : Prop :=
  ∃ shapes parsed',
    getShape fuel (IdString entry.1) store shapes [] = Some (entry.2, parsed').

(** The rows whose node is [key], in their order. *)
Definition rowsOf (key : string) (rows : list (gmap string StructuredData.Cell))
  : list (gmap string StructuredData.Cell) :=
  List.filter (λ row, String.eqb (StructuredData.nodeKey row) key) rows.

(** An element that the table formatting accepts. *)
Definition formattable (element : gmap string jstr) : Prop :=
  is_Some (getField element "node")
  ∧ is_Some (orElse (getField element "severityLabel") (getField element "severity"))
  ∧ removeUrls (toString (getField element "node"))
    ∉ StructuredData.objectPrototypeNames.

(** The services of a hierarchy: that of the node and those below it. *)
Fixpoint services (node : SchemaValidator.Hierarchy) : list string :=
  match node with
  | SchemaValidator.mkHierarchy service_ nested_ =>
      service_ ::
      match nested_ with
      | Some children =>
          (fix below (l : list SchemaValidator.Hierarchy) : list string :=
             match l with
             | [] => []
             | child :: rest => services child ++ below rest
             end) children
      | None => []
      end
  end.

(** The shape that [recursiveValidate] starts from for a service and the
    value of an rdf:type triple. *)
Definition startShape (service_ type_ : string) : string :=
  SchemaValidator.shex
    ("Valid" +:+ service_ +:+ removeUrls (removeUrls type_)).

(** The fields of a failure that the table formatting reads as strings. *)
Definition displayable (f : gmap string jstr) : Prop :=
  is_Some (getField f "severity") ∧ is_Some (getField f "message")
  ∧ is_Some (getField f "node").

End Notions.

(** ** Further concrete inputs *)
Module Inputs.
Import JS Rdf Utils Examples.

(** The shapes of [chainStore]: one shape, rooted at [D]. *)
Definition chainShapes : list (string * option (list Quad)) :=
  Eval vm_compute in
    match SchemaValidator.shapesOf chainStore with
    | Ok shapes => shapes
    | Throw _ => []
    end.

(** The shape stored under [D]. *)
Definition chainShape : option (list Quad) :=
  Eval vm_compute in mjoin (mapGet chainShapes "D").

(** A report whose only shape annotates [name] with a description. *)
Definition annotatedReport : Validator.ValidationReport :=
  Validator.mkValidationReport []
    {[ thingShapeId :=
         Some (Shex.mkShape "Shape" thingShapeId
                 (Some (Shex.OneConstraint
                          (Shex.mkTripleConstraint "http://schema.org/name"
                             (Some [("http://schema.org/description", "Add a name")]))))
                 None) ]}
    ∅ ∅ (Some SchemaValidator.annotations) ∅.

(** A simplified failure about [name] in that shape. *)
Definition nameMissing : gmap string jstr :=
  <["property" := Some "http://schema.org/name"]>
    {[ "shape" := Some thingShapeId ]}.

(** The row that the table formatting makes of [thingFailure]. *)
Definition thingRow : gmap string StructuredData.Cell :=
  Eval vm_compute in
    match StructuredData.formatElement (λ s, s) thingFailure with
    | Ok row => row
    | Throw _ => ∅
    end.

(** The table for the report that holds [thingFailure] alone. *)
Definition thingTable : list StructuredData.TableItem :=
  Eval vm_compute in
    match StructuredData.reportToTable (λ s, s) [thingFailure] with
    | Ok items => items
    | Throw _ => []
    end.

(** An entity of a type for which [nestedEnv] has no shape. *)
Definition onePerson : list Quad :=
  [triple "http://example.org/a" typeIri "http://schema.org/Person"].

(** An environment in which no parser accepts the text. *)
Definition noParserEnv : SchemaValidator.Env :=
  Parser.withParsers (exEnv oneThing ∅)
    (λ _ _, Parser.mkStream [] (Some (TypeError "Unexpected token")))
    (λ _ _, Parser.mkStream [] None)
    (λ _ _, Parser.mkStream [] None).

End Inputs.

(** * Properties *)

(** ** Text helpers *)
Module TextFacts.
Import JS Text.

Lemma takeWhile_app {A} (p : A → bool) (a b : list A) :
  Forall (λ x, p x = true) a →
  takeWhile p (a ++ b) = a ++ takeWhile p b.
Proof.
  induction 1 as [|x a Hx _ IH]; simpl; [done|]. by rewrite Hx, IH.
Qed.

Lemma lastIndexWhere_none {A} (p : A → bool) (l : list A) :
  Forall (λ x, p x = false) l → lastIndexWhere p l = None.
Proof.
  induction 1 as [|x l Hx _ IH]; simpl; [done|]. by rewrite IH, Hx.
Qed.

Lemma lastIndexWhere_last {A} (p : A → bool) (a b : list A) (x : A) :
  p x = true → Forall (λ y, p y = false) b →
  lastIndexWhere p (a ++ x :: b) = Some (List.length a).
Proof.
  intros Hx Hb. induction a as [|y a IH]; simpl.
  - by rewrite (lastIndexWhere_none p b Hb), Hx.
  - by rewrite IH.
Qed.

Lemma takeWhile_Forall {A} (p : A → bool) (l : list A) :
  Forall (λ x, p x = true) (takeWhile p l).
Proof.
  induction l as [|x l IH]; simpl; [constructor|].
  destruct (p x) eqn:Hx; constructor; done.
Qed.

Lemma drop_past {A} (a b : list A) (x : A) :
  drop (S (List.length a)) (a ++ x :: b) = b.
Proof. induction a as [|y a IH]; simpl; [by rewrite drop_0|done]. Qed.

(** The group captured after an opening brace runs to the last closing
    brace of the line. *)
Lemma matchPlaceholder_span (body post : list ascii) :
  body ≠ [] →
  Forall (λ c, isLineTerminator c = false) body →
  Forall (λ c, isChar c "}" = false)
    (takeWhile (λ c, negb (isLineTerminator c)) post) →
  matchPlaceholder (body ++ "}"%char :: post) = Some (body, post).
Proof.
  intros Hne Hbody Hpost. unfold matchPlaceholder.
  rewrite takeWhile_app by (eapply Forall_impl; [exact Hbody|]; by intros c ->).
  destruct body as [|c0 body]; [done|]. simpl.
  rewrite lastIndexWhere_last; [| done | done].
  f_equal. f_equal.
  - by rewrite take_app_length.
  - apply drop_past.
Qed.


Lemma chars_app (a b : string) : chars (a +:+ b) = chars a ++ chars b.
Proof. induction a as [|c a IH]; simpl; [done|]. unfold chars in *. simpl. by rewrite IH. Qed.

Lemma str_app (a b : list ascii) : str (a ++ b) = str a +:+ str b.
Proof. induction a as [|c a IH]; simpl; [done|]. unfold str in *. simpl. by rewrite IH. Qed.

Lemma chars_str (l : list ascii) : chars (str l) = l.
Proof. apply list_ascii_of_string_of_list_ascii. Qed.

Lemma str_chars (s : string) : str (chars s) = s.
Proof. apply string_of_list_ascii_of_string. Qed.

Lemma matchPlaceholder_shorter rest val after :
  matchPlaceholder rest = Some (val, after) →
  List.length after ≤ List.length rest.
Proof.
  unfold matchPlaceholder. intros H.
  destruct (takeWhile _ rest) as [|c run]; [done|].
  destruct (lastIndexWhere _ run) as [j|]; [|done].
  injection H as _ <-. rewrite length_drop. lia.
Qed.

(** Enough fuel: the scan consumes at least one character per step. *)
Lemma replacePlaceholders_fuel args fuel1 fuel2 l :
  List.length l ≤ fuel1 → List.length l ≤ fuel2 →
  replacePlaceholders fuel1 args l = replacePlaceholders fuel2 args l.
Proof.
  revert fuel2 l. induction fuel1 as [|fuel1 IH]; intros fuel2 l H1 H2.
  - destruct l; [|simpl in H1; lia]. by destruct fuel2.
  - destruct fuel2 as [|fuel2].
    { destruct l; [done|simpl in H2; lia]. }
    destruct l as [|c rest]; [done|]. simpl in H1, H2. simpl.
    destruct (isChar c "{").
    + destruct (matchPlaceholder rest) as [[val after]|] eqn:Hm.
      * apply matchPlaceholder_shorter in Hm.
        f_equal. apply IH; lia.
      * f_equal. apply IH; lia.
    + f_equal. apply IH; lia.
Qed.

Lemma replacePlaceholders_copy args pre l fuel :
  Forall (λ c, isChar c "{" = false) pre →
  List.length (pre ++ l) ≤ fuel →
  replacePlaceholders fuel args (pre ++ l)
  = pre ++ replacePlaceholders (List.length l) args l.
Proof.
  intros Hpre. revert fuel. induction Hpre as [|c pre Hc _ IH]; intros fuel Hf.
  - simpl in *. by apply replacePlaceholders_fuel.
  - simpl in Hf. destruct fuel as [|fuel]; [lia|]. simpl. rewrite Hc.
    f_equal. apply IH. lia.
Qed.

Lemma forallb_Forall_false {A} (p : A → bool) l :
  existsb p l = false → Forall (λ c, p c = false) l.
Proof.
  induction l as [|x l IH]; simpl; [constructor|].
  intros [H1 H2]%orb_false_iff. constructor; auto.
Qed.

Lemma singleLine_Forall s :
  singleLine s = true → Forall (λ c, isLineTerminator c = false) (chars s).
Proof.
  unfold singleLine. generalize (chars s). intros l.
  induction l as [|x l IH]; simpl; [constructor|].
  intros [H1 H2]%andb_true_iff. constructor; auto.
  by apply negb_true_iff.
Qed.

(** The first match of a template: the text before the first opening brace
    is copied, and the placeholder key is everything up to the last closing
    brace of the line. *)
Lemma substitute_first_span args (pre body post : string) :
  includesChar "{" pre = false →
  body ≠ EmptyString → singleLine body = true →
  includesChar "}" (firstLine post) = false →
  substitute args (pre +:+ "{" +:+ body +:+ "}" +:+ post)
  = pre +:+ replacer args ("{" +:+ body +:+ "}") body +:+ substitute args post.
Proof.
  intros Hpre Hne Hline Hpost. unfold substitute.
  rewrite !chars_app. change (chars "{") with ["{"%char]. change (chars "}") with ["}"%char].
  rewrite replacePlaceholders_copy; [| by apply forallb_Forall_false | done].
  rewrite str_app, str_chars. f_equal.
  simpl. 
  rewrite matchPlaceholder_span; cycle 1.
  - intros E. apply Hne. by rewrite <- (str_chars body), E.
  - by apply singleLine_Forall.
  - apply forallb_Forall_false. unfold includesChar, firstLine in Hpost.
    by rewrite chars_str in Hpost.
  - rewrite (str_app (chars body) ["}"%char]), (str_app (chars (replacer _ _ _))).
    rewrite !str_chars.
    f_equal. f_equal. apply replacePlaceholders_fuel; [|done].
    rewrite !length_app. simpl. lia.
Qed.


(** *** removeUrls *)

Lemma stripPrefix_length p l r :
  stripPrefix p l = Some r → List.length l = List.length p + List.length r.
Proof.
  revert l. induction p as [|a p IH]; intros l H; simpl in *.
  - by injection H as ->.
  - destruct l as [|b l]; [done|]. destruct (isChar a b); [|done].
    simpl. f_equal. by apply IH.
Qed.

Lemma matchUrl_shorter l after :
  matchUrl l = Some after → List.length after < List.length l.
Proof.
  unfold matchUrl. intros H.
  destruct (match stripPrefix (chars "https://") l with
            | Some r => Some r
            | None => stripPrefix (chars "http://") l
            end) as [rest|] eqn:Hp; [|done].
  assert (List.length rest < List.length l) as Hlt.
  { destruct (stripPrefix (chars "https://") l) as [r|] eqn:H1.
    - injection Hp as ->. apply stripPrefix_length in H1. simpl in H1. lia.
    - apply stripPrefix_length in Hp. simpl in Hp. lia. }
  destruct (takeWhile _ rest) as [|c run]; [done|].
  destruct (lastIndexWhere _ run) as [j|]; [|done].
  injection H as <-. rewrite length_drop. lia.
Qed.

Lemma replaceUrls_length fuel l :
  List.length (replaceUrls fuel l) ≤ List.length l.
Proof.
  revert l. induction fuel as [|fuel IH]; intros l; [done|].
  destruct l as [|c rest]; [done|]. cbn [replaceUrls].
  destruct (matchUrl (c :: rest)) as [after|] eqn:Hm.
  - apply matchUrl_shorter in Hm. specialize (IH after). lia.
  - cbn [List.length]. specialize (IH rest). lia.
Qed.

(** A pass over a text that holds a match removes at least one character. *)
Lemma replaceUrls_shrinks fuel l :
  List.length l ≤ fuel → hasUrl l = true →
  List.length (replaceUrls fuel l) < List.length l.
Proof.
  revert l. induction fuel as [|fuel IH]; intros l Hf Hu.
  - destruct l; [done|simpl in Hf; lia].
  - destruct l as [|c rest]; [done|]. cbn [List.length] in Hf.
    assert (List.length rest ≤ fuel) as Hf_ by lia.
    cbn [replaceUrls]. 
    destruct (matchUrl (c :: rest)) as [after|] eqn:Hm.
    + pose proof (matchUrl_shorter _ _ Hm). pose proof (replaceUrls_length fuel after). lia.
    + cbn [hasUrl] in Hu. rewrite Hm in Hu.
      rewrite bool_decide_eq_false_2 in Hu by (by intros [? ?]).
      cbn [orb] in Hu. cbn [List.length]. specialize (IH rest Hf_ Hu). lia.
Qed.

Lemma removeUrlsLoop_clean fuel l :
  List.length l < fuel → hasUrl (removeUrlsLoop fuel l) = false.
Proof.
  revert l. induction fuel as [|fuel IH]; intros l Hf; [lia|].
  simpl. destruct (hasUrl l) eqn:Hu; [|done].
  apply IH. pose proof (replaceUrls_shrinks (List.length l) l (le_n _) Hu). lia.
Qed.

(** [removeUrls] returns: its loop ends with a text in which the URL
    pattern has no match. *)
Lemma removeUrls_clean text : hasUrl (chars (removeUrls text)) = false.
Proof.
  unfold removeUrls. rewrite chars_str. apply removeUrlsLoop_clean. lia.
Qed.

Lemma removeUrls_fixed text :
  hasUrl (chars text) = false → removeUrls text = text.
Proof.
  unfold removeUrls. simpl. intros ->. apply str_chars.
Qed.

End TextFacts.

(** ** The Graph Decomposer *)
Module GraphFacts.
Import JS Rdf Utils Graph.

Section Paths.
Context (E : string → string → Prop).

Lemma reachIn_l W x y : reachIn E W x y → W x.
Proof. by destruct 1. Qed.

Lemma reachIn_r W x y : reachIn E W x y → W y.
Proof. induction 1; auto. Qed.

Lemma reachIn_mono (W W' : string → Prop) x y :
  (∀ z, W z → W' z) → reachIn E W x y → reachIn E W' x y.
Proof.
  intros HW. induction 1 as [x Hx|x y z Hx Hxy _ IH].
  - apply reachIn_refl; auto.
  - eapply reachIn_step; eauto.
Qed.

Lemma reachIn_trans W x y z :
  reachIn E W x y → reachIn E W y z → reachIn E W x z.
Proof.
  induction 1 as [x Hx|x y' y Hx Hxy _ IH]; [done|].
  intros Hz. eapply reachIn_step; eauto.
Qed.

(** A path either avoids [D] or passes through one of its vertices. *)
Lemma reachIn_split (W D : string → Prop) x y :
  (∀ z, D z ∨ ¬ D z) →
  reachIn E W x y →
  reachIn E (λ z, W z ∧ ¬ D z) x y
  ∨ ∃ u, D u ∧ reachIn E W x u ∧ reachIn E W u y.
Proof.
  intros Hdec. induction 1 as [x Hx|x y z Hx Hxy Hyz IH].
  - destruct (Hdec x) as [Hd|Hd].
    + right. exists x. split_and!; [done|by apply reachIn_refl..].
    + left. by apply reachIn_refl.
  - destruct (Hdec x) as [Hd|Hd].
    + right. exists x. split_and!; [done|by apply reachIn_refl|].
      eapply reachIn_step; eauto.
    + destruct IH as [IH|(u & Hu & H1 & H2)].
      * left. eapply reachIn_step; eauto.
      * right. exists u. split_and!; [done| |done].
        eapply reachIn_step; eauto.
Qed.

(** The part of a path after its last visit of [v]. *)
Lemma reachIn_last W v x y :
  reachIn E W x y →
  reachIn E (λ z, W z ∧ z ≠ v) x y
  ∨ y = v
  ∨ ∃ s, E v s ∧ reachIn E (λ z, W z ∧ z ≠ v) s y.
Proof.
  induction 1 as [x Hx|x y z Hx Hxy Hyz IH].
  - destruct (decide (x = v)) as [->|Hne]; [by right; left|].
    left. by apply reachIn_refl.
  - destruct IH as [IH|IH]; [|by right].
    destruct (decide (x = v)) as [->|Hne].
    + right. right. by exists y.
    + left. eapply reachIn_step; eauto.
Qed.

(** A path stays in every set that contains all that its source reaches. *)
Lemma reachIn_confined (W W' : string → Prop) x y :
  reachIn E W x y → (∀ z, reachIn E W x z → W' z) → reachIn E W' x y.
Proof.
  induction 1 as [x Hx|x y z Hx Hxy Hyz IH]; intros HW.
  - apply reachIn_refl. apply HW. by apply reachIn_refl.
  - eapply reachIn_step; [|done|].
    + apply HW. by apply reachIn_refl.
    + apply IH. intros u Hu. apply HW. eapply reachIn_step; eauto.
Qed.

Lemma reachIn_snoc W x y z :
  reachIn E W x y → E y z → W z → reachIn E W x z.
Proof.
  intros H Hyz Hz. eapply reachIn_trans; [done|].
  eapply reachIn_step; [by eapply reachIn_r|done|by apply reachIn_refl].
Qed.
End Paths.

Lemma reachIn_reverse (E E' : string → string → Prop) W x y :
  (∀ a b, W a → W b → E a b → E' b a) →
  reachIn E W x y → reachIn E' W y x.
Proof.
  intros HE. induction 1 as [x Hx|x y z Hx Hxy Hyz IH].
  - by apply reachIn_refl.
  - eapply reachIn_snoc; [done| |done].
    apply HE; [done| |done]. by eapply reachIn_l.
Qed.

(** *** Positions in a list *)

Lemma atOrBefore_app_l l1 l2 b c :
  atOrBefore l1 b c → atOrBefore (l1 ++ l2) b c.
Proof.
  intros (a1 & a2 & -> & Hb). exists a1, (a2 ++ l2).
  split; [by rewrite <- app_assoc|done].
Qed.

Lemma atOrBefore_app_r l1 l2 b c :
  atOrBefore l2 b c → atOrBefore (l1 ++ l2) b c.
Proof.
  intros (a1 & a2 & -> & Hb). exists (l1 ++ a1), a2.
  split; [by rewrite <- app_assoc|]. set_solver.
Qed.

Lemma atOrBefore_cross l1 l2 b c :
  b ∈ l1 → c ∈ l2 → atOrBefore (l1 ++ l2) b c.
Proof.
  intros Hb (a1 & a2 & ->)%list_elem_of_split. exists (l1 ++ a1), a2.
  split; [by rewrite <- app_assoc|]. set_solver.
Qed.

Lemma atOrBefore_last l b c :
  NoDup (l ++ [b]) → atOrBefore (l ++ [b]) b c → c = b.
Proof.
  intros Hnd (a1 & a2 & Heq & Hb).
  destruct (decide (c = b)) as [|Hne]; [done|exfalso].
  assert (b ∈ a1) as Hb1 by set_solver.
  destruct a2 as [|x a2 _] using rev_ind.
  - apply app_inj_tail in Heq as [_ ?]. congruence.
  - rewrite app_comm_cons, app_assoc in Heq.
    apply app_inj_tail in Heq as [Heq Hx]. subst x.
    rewrite Heq in Hnd. apply NoDup_app in Hnd as (_ & Hnd & _).
    apply (Hnd b); set_solver.
Qed.

Lemma atOrBefore_filter (P : string → Prop) {HP : ∀ x, Decision (P x)} (l : list string) b c :
  P b → P c → atOrBefore l b c → atOrBefore (filter P l) b c.
Proof.
  intros Hb Hc (a1 & a2 & -> & Hin).
  exists (filter P a1), (filter P a2). split.
  - rewrite filter_app, filter_cons_True by done. done.
  - apply elem_of_app in Hin as [Hin|Hin].
    + apply elem_of_app. left. by apply list_elem_of_filter.
    + set_solver.
Qed.


(** *** The [used] map *)

Lemma isUsed_insert_true used v x :
  isUsed (<[v := true]> used) x = true ↔ x = v ∨ isUsed used x = true.
Proof.
  unfold isUsed. destruct (decide (v = x)) as [->|Hne].
  - rewrite lookup_insert_eq. simpl. naive_solver.
  - rewrite lookup_insert_ne by done. naive_solver.
Qed.

Lemma isUsed_resetUsed nodes used x :
  isUsed (resetUsed nodes used) x = true ↔ x ∉ nodes ∧ isUsed used x = true.
Proof.
  unfold resetUsed. revert used.
  induction nodes as [|n nodes IH]; intros used; simpl.
  - set_solver.
  - rewrite IH. destruct (decide (n = x)) as [->|Hne].
    + assert (isUsed (<[x:=false]> used) x = false) as ->
        by (unfold isUsed; by rewrite lookup_insert_eq).
      set_solver.
    + assert (isUsed (<[n:=false]> used) x = isUsed used x) as ->
        by (unfold isUsed; by rewrite lookup_insert_ne).
      set_solver.
Qed.

Lemma filter_length_mono {A} (p p' : A → bool) (l : list A) :
  (∀ x, x ∈ l → p' x = true → p x = true) →
  List.length (List.filter p' l) ≤ List.length (List.filter p l).
Proof.
  induction l as [|x l IH]; intros H; simpl; [done|].
  assert (List.length (List.filter p' l) ≤ List.length (List.filter p l)) as IH'.
  { apply IH. intros y Hy. apply H. by right. }
  destruct (p' x) eqn:Hp'.
  - rewrite (H x) by (done || by left). simpl. lia.
  - destruct (p x); simpl; lia.
Qed.

Lemma filter_length_strict {A} (p p' : A → bool) (l : list A) v :
  (∀ x, x ∈ l → p' x = true → p x = true) →
  v ∈ l → p v = true → p' v = false →
  List.length (List.filter p' l) < List.length (List.filter p l).
Proof.
  induction l as [|x l IH]; intros H Hv Hpv Hp'v; [by apply elem_of_nil in Hv|].
  simpl.
  assert (List.length (List.filter p' l) ≤ List.length (List.filter p l)) as Hle.
  { apply filter_length_mono. intros y Hy. apply H. by right. }
  apply elem_of_cons in Hv as [<-|Hv].
  - rewrite Hpv, Hp'v. simpl. lia.
  - assert (List.length (List.filter p' l) < List.length (List.filter p l)) as IH'.
    { apply IH; auto. intros y Hy. apply H. by right. }
    destruct (p' x) eqn:Hp'.
    + rewrite (H x) by (done || by left). simpl. lia.
    + destruct (p x); simpl; lia.
Qed.

Lemma countWhite_mono nodes used used' :
  (∀ x, isUsed used x = true → isUsed used' x = true) →
  countWhite nodes used' ≤ countWhite nodes used.
Proof.
  intros H. apply filter_length_mono. intros x _.
  rewrite !negb_true_iff. intros H'. destruct (isUsed used x) eqn:Hu; [|done].
  by rewrite H in H'.
Qed.

Lemma countWhite_mark nodes used v :
  v ∈ nodes → isUsed used v = false →
  countWhite nodes (<[v := true]> used) < countWhite nodes used.
Proof.
  intros Hv Hu. apply (filter_length_strict _ _ _ v); [|done|by rewrite Hu|].
  - intros x _. rewrite !negb_true_iff. intros H'.
    destruct (isUsed used x) eqn:Hux; [|done].
    assert (isUsed (<[v:=true]> used) x = true) by (apply isUsed_insert_true; auto).
    congruence.
  - apply negb_false_iff, isUsed_insert_true. by left.
Qed.

Lemma countWhite_le nodes used : countWhite nodes used ≤ List.length nodes.
Proof. apply List.filter_length_le. Qed.


(** *** The first pass *)

Lemma foldM_omap {Q S} (c1 : Q → bool) (f : Q → string)
  (used : S → string → bool) (g : string → S → option S) qs st :
  foldM (λ st q, if c1 q && negb (used st (f q)) then g (f q) st else Some st) qs st
  = foldM (λ st c, if negb (used st c) then g c st else Some st)
      (omap (λ q, if c1 q then Some (f q) else None) qs) st.
Proof.
  revert st. induction qs as [|q qs IH]; intros st; simpl; [done|].
  destruct (c1 q); simpl.
  - destruct (negb (used st (f q))); [|apply IH].
    destruct (g (f q) st); [apply IH|done].
  - apply IH.
Qed.

Section Forward.
Context (store : Store) (nodes : list string).

Notation fwd := (Graph.fwd store nodes).
Notation W := (white nodes).

Lemma forwardDfs_unfold fuel v st :
  forwardDfs store nodes (S fuel) v st
  = match visitAll store nodes fuel (succs store nodes v)
            (<[v := true]> st.1, st.2) with
    | Some st' => Some (st'.1, st'.2 ++ [v])
    | None => None
    end.
Proof.
  cbn [forwardDfs]. unfold visitAll, succs.
  by rewrite <- (foldM_omap
    (λ quad, negb (isLiteral (object quad)) && bool_decide (id (object quad) ∈ nodes))
    (λ quad, id (object quad)) (λ st c, isUsed st.1 c)
    (λ c st, forwardDfs store nodes fuel c st)).
Qed.

Lemma succs_nodes v x : x ∈ succs store nodes v → x ∈ nodes.
Proof.
  unfold succs. intros (q & _ & Hq)%list_elem_of_omap.
  destruct (isLiteral (object q)); simpl in Hq; [done|].
  case_bool_decide; [|done]. by injection Hq as <-.
Qed.

Notation forwardSpec := (Graph.forwardSpec store nodes).

Lemma white_marks used used' new x :
  marks used used' new → W used' x ↔ W used x ∧ x ∉ new.
Proof.
  intros Hm. unfold white. specialize (Hm x).
  destruct (isUsed used' x), (isUsed used x); naive_solver.
Qed.

Lemma visitAll_spec fuel :
  forwardSpec fuel →
  ∀ cs used order,
    (∀ c, c ∈ cs → c ∈ nodes) → countWhite nodes used ≤ fuel →
    ∃ used' new,
      visitAll store nodes fuel cs (used, order) = Some (used', order ++ new)
      ∧ marks used used' new
      ∧ NoDup new
      ∧ (∀ x, x ∈ new ↔ ∃ c, c ∈ cs ∧ reachIn fwd (W used) c x)
      ∧ finishing fwd (W used) new.
Proof.
  intros Hdfs cs. induction cs as [|c cs IH]; intros used order Hcs Hfuel.
  - exists used, []. split_and!.
    + by rewrite app_nil_r.
    + intros x. set_solver.
    + constructor.
    + intros x. set_solver.
    + intros a b Ha. set_solver.
  - unfold visitAll. cbn [foldM]. cbn [fst].
    destruct (isUsed used c) eqn:Hc; cbn [negb].
    + destruct (IH used order) as (used' & new & Hrun & Hm & Hnd & Hin & Hfin);
        [set_solver|done|].
      exists used', new. split_and!; [done..| |done].
      intros x. rewrite Hin. split.
      * intros (c' & Hc' & Hr). exists c'. set_solver.
      * intros (c' & [->|Hc']%elem_of_cons & Hr); [|by exists c'].
        apply reachIn_l in Hr as [_ Hr]. congruence.
    + destruct (Hdfs c used order) as (used1 & new1 & Hrun1 & Hm1 & Hnd1 & Hin1 & Hfin1);
        [set_solver|done|done|].
      rewrite Hrun1.
      destruct (IH used1 (order ++ new1)) as (used' & new2 & Hrun2 & Hm2 & Hnd2 & Hin2 & Hfin2).
      { set_solver. }
      { etrans; [|exact Hfuel]. apply countWhite_mono. intros x Hx. apply Hm1. by left. }
      unfold visitAll in Hrun2. rewrite Hrun2.
      assert (∀ x, W used1 x → W used x) as Hsub.
      { intros x Hx. by apply (white_marks _ _ _ _ Hm1) in Hx as [? _]. }
      assert (∀ x, x ∈ new2 → W used1 x) as Hnew2.
      { intros x (c' & _ & Hr)%Hin2. by apply reachIn_r in Hr. }
      assert (∀ u x, u ∈ new1 → reachIn fwd (W used) u x → x ∈ new1) as Hclosed.
      { intros u x Hu Hr. apply Hin1. eapply reachIn_trans; [|exact Hr]. by apply Hin1. }
      assert (∀ a b, reachIn fwd (W used) a b →
                reachIn fwd (W used1) a b ∨ b ∈ new1) as Hsplit.
      { intros a b Hr.
        destruct (reachIn_split fwd (W used) (λ z, z ∈ new1) a b) as [Hl|(u & Hu & _ & Hub)];
          [intros z; destruct (decide (z ∈ new1)); auto|done| |].
        - left. eapply reachIn_mono; [|exact Hl].
          intros z Hz. by apply (white_marks _ _ _ _ Hm1).
        - right. by eapply Hclosed. }
      exists used', (new1 ++ new2). split_and!.
      * by rewrite app_assoc.
      * intros x. rewrite (Hm2 x), (Hm1 x). set_solver.
      * apply NoDup_app. split_and!; [done| |done].
        intros x Hx1 Hx2. apply Hnew2 in Hx2.
        apply (white_marks _ _ _ _ Hm1) in Hx2 as [_ ?]. done.
      * intros x. rewrite elem_of_app, Hin1, Hin2. split.
        -- intros [Hr|(c' & Hc' & Hr)].
           ++ exists c. split; [by left|done].
           ++ exists c'. split; [by right|]. by eapply reachIn_mono.
        -- intros (c' & [->|Hc']%elem_of_cons & Hr); [by left|].
           destruct (Hsplit _ _ Hr) as [Hr'|Hx].
           ++ right. by exists c'.
           ++ left. by apply Hin1.
      * intros a b [Ha|Ha]%elem_of_app Hr.
        -- destruct (Hfin1 a b Ha Hr) as (c0 & Hc0 & H1 & H2 & H3).
           exists c0. split_and!; [set_solver|done|done|].
           by apply atOrBefore_app_l.
        -- destruct (Hsplit _ _ Hr) as [Hr'|Hb].
           ++ destruct (Hfin2 a b Ha Hr') as (c0 & Hc0 & H1 & H2 & H3).
              exists c0. split_and!; [set_solver| | |].
              ** by eapply reachIn_mono.
              ** by eapply reachIn_mono.
              ** by apply atOrBefore_app_r.
           ++ exists a. split_and!; [set_solver| | |].
              ** apply reachIn_refl. by apply Hsub, Hnew2.
              ** apply reachIn_refl. by apply Hsub, Hnew2.
              ** by apply atOrBefore_cross.
Qed.


Lemma forwardDfs_spec fuel : forwardSpec fuel.
Proof.
  induction fuel as [|fuel IH]; intros v used order Hv Hu Hfuel.
  - exfalso. pose proof (countWhite_mark nodes used v Hv Hu). lia.
  - rewrite forwardDfs_unfold. cbn [fst snd].
    set (used1 := <[v := true]> used).
    assert (marks used used1 [v]) as Hm1.
    { intros x. unfold used1. rewrite isUsed_insert_true. set_solver. }
    destruct (visitAll_spec fuel IH (succs store nodes v) used1 order)
      as (used' & new & Hrun & Hm & Hnd & Hin & Hfin).
    { intros c. apply succs_nodes. }
    { pose proof (countWhite_mark nodes used v Hv Hu). unfold used1. lia. }
    rewrite Hrun. cbn [fst snd].
    assert (∀ x, W used1 x ↔ W used x ∧ x ≠ v) as Hw1.
    { intros x. rewrite (white_marks _ _ _ _ Hm1). set_solver. }
    assert (W used v) as Hwv by done.
    assert (∀ x, x ∈ new ++ [v] ↔ reachIn fwd (W used) v x) as Hin'.
    { intros x. rewrite elem_of_app, Hin, list_elem_of_singleton. split.
      - intros [(c & Hc & Hr)| ->]; [|by apply reachIn_refl].
        eapply reachIn_step; [done|exact Hc|].
        eapply reachIn_mono; [|exact Hr]. intros z. by rewrite Hw1; intros [? _].
      - intros Hr.
        destruct (reachIn_last fwd (W used) v v x Hr) as [Hl|[->|(s0 & Hs & Hr')]].
        + apply reachIn_l in Hl as [_ ?]. done.
        + by right.
        + left. exists s0. split; [done|].
          eapply reachIn_mono; [|exact Hr']. intros z. by rewrite Hw1. }
    exists used', (new ++ [v]). split_and!.
    + by rewrite app_assoc.
    + intros x. rewrite (Hm x), (Hm1 x). set_solver.
    + apply NoDup_app. split_and!; [done| |apply NoDup_singleton].
      intros x (c & _ & Hr)%Hin ->%list_elem_of_singleton.
      apply reachIn_r, Hw1 in Hr as [_ ?]. done.
    + done.
    + intros a b Ha Hr.
      assert (b ∈ new ++ [v]) as Hb.
      { apply Hin'. eapply reachIn_trans; [|exact Hr]. by apply Hin'. }
      assert (atOrBefore (new ++ [v]) b v) as Hbv.
      { exists new, []. done. }
      apply elem_of_app in Ha as [Ha| ->%list_elem_of_singleton].
      * destruct (reachIn_split fwd (W used) (λ z, z = v) a b)
          as [Hl|(u & -> & Hav & _)];
          [intros z; destruct (decide (z = v)); auto|done| |].
        -- destruct (Hfin a b Ha) as (c0 & Hc0 & H1 & H2 & H3).
           { eapply reachIn_mono; [|exact Hl]. intros z. by rewrite Hw1. }
           exists c0. split_and!; [set_solver| | |by apply atOrBefore_app_l].
           ++ eapply reachIn_mono; [|exact H1]. intros z. by rewrite Hw1; intros [? _].
           ++ eapply reachIn_mono; [|exact H2]. intros z. by rewrite Hw1; intros [? _].
        -- exists v. split_and!; [set_solver|done| |done].
           apply Hin'. set_solver.
      * exists v. split_and!; [set_solver| | |done]; by apply reachIn_refl.
Qed.

(** The first pass as a whole: a finishing order of all the nodes. *)
Lemma firstPass_spec fuel :
  NoDup nodes → List.length nodes ≤ fuel →
  ∃ used order,
    visitAll store nodes fuel nodes (resetUsed nodes ∅, []) = Some (used, order)
    ∧ (∀ x, isUsed used x = true → x ∈ order)
    ∧ NoDup order
    ∧ (∀ x, x ∈ order ↔ x ∈ nodes)
    ∧ finishing fwd (λ x, x ∈ nodes) order.
Proof.
  intros Hnd Hfuel.
  assert (∀ x, isUsed (resetUsed nodes ∅) x = false) as Hfresh.
  { intros x. destruct (isUsed (resetUsed nodes ∅) x) eqn:E; [|done].
    apply isUsed_resetUsed in E as [_ E]. unfold isUsed in E.
    by rewrite lookup_empty in E. }
  destruct (visitAll_spec fuel (forwardDfs_spec fuel) nodes (resetUsed nodes ∅) [])
    as (used & order & Hrun & Hm & Hnd' & Hin & Hfin); [done| |].
  { etrans; [apply countWhite_le|done]. }
  assert (∀ x, W (resetUsed nodes ∅) x ↔ x ∈ nodes) as Hw.
  { intros x. unfold white. rewrite Hfresh. naive_solver. }
  exists used, order. split_and!; [done| |done| |].
  - intros x Hx. apply Hm in Hx as [Hx|Hx]; [|done]. by rewrite Hfresh in Hx.
  - intros x. rewrite Hin. split.
    + intros (c & _ & Hr). by apply reachIn_r, Hw in Hr.
    + intros Hx. exists x. split; [done|]. by apply reachIn_refl, Hw.
  - intros a b Ha Hr.
    destruct (Hfin a b Ha) as (c0 & Hc0 & H1 & H2 & H3).
    { eapply reachIn_mono; [|exact Hr]. intros z. by rewrite Hw. }
    exists c0. split_and!; [done| | |done].
    + eapply reachIn_mono; [|exact H1]. intros z. by rewrite Hw.
    + eapply reachIn_mono; [|exact H2]. intros z. by rewrite Hw.
Qed.

End Forward.


(** *** The nodes of a store *)

Lemma dedup_elem_of l x : x ∈ dedup l ↔ x ∈ l.
Proof.
  induction l as [|y l IH]; simpl; [done|].
  rewrite !elem_of_cons, <- IH, list_elem_of_In, filter_In, <- list_elem_of_In.
  rewrite negb_true_iff, String.eqb_neq.
  destruct (decide (x = y)); naive_solver.
Qed.

Lemma NoDup_filter_bool {A} (p : A → bool) (l : list A) :
  NoDup l → NoDup (List.filter p l).
Proof.
  induction 1 as [|x l Hx _ IH]; simpl; [constructor|].
  destruct (p x); [|done]. constructor; [|done].
  rewrite list_elem_of_In, filter_In, <- list_elem_of_In. naive_solver.
Qed.

Lemma dedup_NoDup l : NoDup (dedup l).
Proof.
  induction l as [|y l IH]; simpl; constructor.
  - rewrite list_elem_of_In, filter_In, negb_true_iff, String.eqb_neq. naive_solver.
  - by apply NoDup_filter_bool.
Qed.

Lemma uniqueTerms_ids l x : x ∈ map id (uniqueTerms l) ↔ x ∈ map id l.
Proof.
  induction l as [|t l IH]; simpl; [done|].
  rewrite !elem_of_cons, <- IH, !list_elem_of_fmap.
  split.
  - intros [->|(u & -> & Hu)]; [by left|].
    apply list_elem_of_In, filter_In in Hu as [Hu _]. right.
    exists u. by rewrite list_elem_of_In.
  - intros [->|(u & -> & Hu)]; [by left|].
    destruct (decide (id u = id t)) as [?|Hne]; [by left|right].
    exists u. split; [done|].
    rewrite list_elem_of_In, filter_In, negb_true_iff, String.eqb_neq, <- list_elem_of_In.
    done.
Qed.

Lemma nodesOf_elem_of store x :
  x ∈ nodesOf store ↔ ∃ q, q ∈ store ∧ id (subject q) = x.
Proof.
  unfold nodesOf, getSubjects. rewrite dedup_elem_of, uniqueTerms_ids.
  rewrite <- list_fmap_compose, list_elem_of_fmap. naive_solver.
Qed.

Lemma nodesOf_NoDup store : NoDup (nodesOf store).
Proof. apply dedup_NoDup. Qed.

Lemma getQuads_elem_of store s p o q :
  q ∈ getQuads store s p o ↔
  q ∈ store ∧ matchesId s (subject q) = true ∧ matchesId p (predicate q) = true
  ∧ matchesId o (object q) = true.
Proof.
  unfold getQuads. rewrite list_elem_of_In, filter_In, <- list_elem_of_In.
  rewrite !andb_true_iff. naive_solver.
Qed.

Lemma matchesId_Some i t : matchesId (Some i) t = true ↔ id t = i.
Proof. simpl. rewrite String.eqb_eq. naive_solver. Qed.

Lemma succs_elem_of store nodes v x :
  x ∈ succs store nodes v ↔
  ∃ q, q ∈ store ∧ id (subject q) = v ∧ isLiteral (object q) = false
       ∧ id (object q) = x ∧ x ∈ nodes.
Proof.
  unfold succs. rewrite list_elem_of_omap. split.
  - intros (q & Hq & Hx). apply getQuads_elem_of in Hq as (Hq & Hs%matchesId_Some & _).
    destruct (isLiteral (object q)) eqn:Hl; simpl in Hx; [done|].
    case_bool_decide; [|done]. injection Hx as <-. by exists q.
  - intros (q & Hq & Hs & Hl & Hx & Hn). exists q. split.
    + apply getQuads_elem_of. split_and!; [done|by apply matchesId_Some|done..].
    + rewrite Hl. simpl. rewrite bool_decide_eq_true_2 by (by rewrite Hx). by rewrite Hx.
Qed.

Lemma preds_elem_of store v x :
  x ∈ preds store v ↔
  ∃ q, q ∈ store ∧ id (subject q) = x ∧ id (object q) = v.
Proof.
  unfold preds. rewrite list_elem_of_fmap. split.
  - intros (q & -> & Hq). apply getQuads_elem_of in Hq as (Hq & _ & _ & Ho%matchesId_Some).
    by exists q.
  - intros (q & Hq & Hs & Ho). exists q. split; [done|].
    apply getQuads_elem_of. split_and!; [done..|by apply matchesId_Some].
Qed.

(** *** The second pass: one backward traversal *)

Lemma foldM_map {Q S} (f : Q → string) (body : S → string → option S) qs st :
  foldM (λ st q, body st (f q)) qs st = foldM body (map f qs) st.
Proof.
  revert st. induction qs as [|q qs IH]; intros st; simpl; [done|].
  destruct (body st (f q)); [apply IH|done].
Qed.

Section Backward.
Context (store : Store).

Notation nodes := (nodesOf store).
Notation bwd := (Graph.bwd store).
Notation W := (white nodes).

Lemma backwardDfs_unfold fuel v st :
  backwardDfs store (S fuel) v st
  = visitAllBack store fuel (preds store v) (<[v := true]> st.1, st.2 ++ [v]).
Proof.
  cbn [backwardDfs]. unfold visitAllBack, preds.
  by rewrite <- (foldM_map (λ quad, id (subject quad))
    (λ st c, if negb (isUsed st.1 c) then backwardDfs store fuel c st else Some st)).
Qed.

Lemma preds_nodes v x : x ∈ preds store v → x ∈ nodes.
Proof.
  intros (q & Hq & Hs & _)%preds_elem_of. apply nodesOf_elem_of. by exists q.
Qed.

Notation backwardSpec := (Graph.backwardSpec store).

Lemma visitAllBack_spec fuel :
  backwardSpec fuel →
  ∀ cs used comp,
    (∀ c, c ∈ cs → c ∈ nodes) → countWhite nodes used ≤ fuel →
    ∃ used' new,
      visitAllBack store fuel cs (used, comp) = Some (used', comp ++ new)
      ∧ marks used used' new
      ∧ NoDup new
      ∧ (∀ x, x ∈ new ↔ ∃ c, c ∈ cs ∧ reachIn bwd (W used) c x).
Proof.
  intros Hdfs cs. induction cs as [|c cs IH]; intros used comp Hcs Hfuel.
  - exists used, []. split_and!.
    + by rewrite app_nil_r.
    + intros x. set_solver.
    + constructor.
    + intros x. set_solver.
  - unfold visitAllBack. cbn [foldM]. cbn [fst].
    destruct (isUsed used c) eqn:Hc; cbn [negb].
    + destruct (IH used comp) as (used' & new & Hrun & Hm & Hnd & Hin);
        [set_solver|done|].
      exists used', new. split_and!; [done..|].
      intros x. rewrite Hin. split.
      * intros (c' & Hc' & Hr). exists c'. set_solver.
      * intros (c' & [->|Hc']%elem_of_cons & Hr); [|by exists c'].
        apply reachIn_l in Hr as [_ Hr]. congruence.
    + destruct (Hdfs c used comp) as (used1 & new1 & Hrun1 & Hm1 & Hnd1 & Hin1);
        [set_solver|done|done|].
      rewrite Hrun1.
      destruct (IH used1 (comp ++ new1)) as (used' & new2 & Hrun2 & Hm2 & Hnd2 & Hin2).
      { set_solver. }
      { etrans; [|exact Hfuel]. apply countWhite_mono. intros x Hx. apply Hm1. by left. }
      unfold visitAllBack in Hrun2. rewrite Hrun2.
      exists used', (new1 ++ new2). split_and!.
      * by rewrite app_assoc.
      * intros x. rewrite (Hm2 x), (Hm1 x). set_solver.
      * apply NoDup_app. split_and!; [done| |done].
        intros x Hx1 (c' & _ & Hr)%Hin2. apply reachIn_r in Hr.
        apply (white_marks _ _ _ _ _ Hm1) in Hr as [_ ?]. done.
      * intros x. rewrite elem_of_app, Hin1, Hin2. split.
        -- intros [Hr|(c' & Hc' & Hr)].
           ++ exists c. split; [by left|done].
           ++ exists c'. split; [by right|]. eapply reachIn_mono; [|exact Hr].
              intros z Hz. by apply (white_marks _ _ _ _ _ Hm1) in Hz as [? _].
        -- intros (c' & [->|Hc']%elem_of_cons & Hr); [by left|].
           destruct (reachIn_split bwd (W used) (λ z, z ∈ new1) c' x)
             as [Hl|(u & Hu & _ & Hub)];
             [intros z; destruct (decide (z ∈ new1)); auto|done| |].
           ++ right. exists c'. split; [done|]. eapply reachIn_mono; [|exact Hl].
              intros z Hz. by apply (white_marks _ _ _ _ _ Hm1).
           ++ left. eapply reachIn_trans; [|exact Hub]. by apply Hin1.
Qed.

Lemma backwardDfs_spec fuel : backwardSpec fuel.
Proof.
  induction fuel as [|fuel IH]; intros v used comp Hv Hu Hfuel.
  - exfalso. pose proof (countWhite_mark nodes used v Hv Hu). lia.
  - rewrite backwardDfs_unfold. cbn [fst snd].
    set (used1 := <[v := true]> used).
    assert (marks used used1 [v]) as Hm1.
    { intros x. unfold used1. rewrite isUsed_insert_true. set_solver. }
    destruct (visitAllBack_spec fuel IH (preds store v) used1 (comp ++ [v]))
      as (used' & new & Hrun & Hm & Hnd & Hin).
    { intros c. apply preds_nodes. }
    { pose proof (countWhite_mark nodes used v Hv Hu). unfold used1. lia. }
    rewrite Hrun.
    assert (∀ x, W used1 x ↔ W used x ∧ x ≠ v) as Hw1.
    { intros x. rewrite (white_marks _ _ _ _ _ Hm1). set_solver. }
    assert (W used v) as Hwv by done.
    exists used', (v :: new). split_and!.
    + by rewrite <- app_assoc.
    + intros x. rewrite (Hm x), (Hm1 x). set_solver.
    + constructor; [|done].
      intros (c & _ & Hr)%Hin. apply reachIn_r, Hw1 in Hr as [_ ?]. done.
    + intros x. rewrite elem_of_cons, Hin. split.
      * intros [->|(c & Hc & Hr)]; [by apply reachIn_refl|].
        eapply reachIn_step; [done|exact Hc|].
        eapply reachIn_mono; [|exact Hr]. intros z. by rewrite Hw1; intros [? _].
      * intros Hr.
        destruct (reachIn_last bwd (W used) v v x Hr) as [Hl|[->|(s0 & Hs & Hr')]].
        -- apply reachIn_l in Hl as [_ ?]. done.
        -- by left.
        -- right. exists s0. split; [done|].
           eapply reachIn_mono; [|exact Hr']. intros z. by rewrite Hw1.
Qed.

End Backward.


(** *** The second pass: the loop *)

Lemma foldM_ext {A S} (f g : S → A → option S) l st :
  (∀ s a, a ∈ l → f s a = g s a) → foldM f l st = foldM g l st.
Proof.
  revert st. induction l as [|a l IH]; intros st H; simpl; [done|].
  rewrite (H st a) by (by left). destruct (g st a) as [st'|]; [|done].
  apply IH. intros st2 b Hb. apply H. by right.
Qed.

Lemma foldM_seq_lookup {A S} (g : S → A → option S) (pre l : list A) st :
  foldM (λ st i, match (pre ++ l) !! i with Some x => g st x | None => None end)
    (List.seq (List.length pre) (List.length l)) st
  = foldM g l st.
Proof.
  revert pre st. induction l as [|x l IH]; intros pre st; [done|].
  cbn [List.length List.seq foldM].
  rewrite list_lookup_middle by done.
  destruct (g st x) as [st'|]; [|done].
  specialize (IH (pre ++ [x]) st'). rewrite <- app_assoc, length_app in IH.
  simpl in IH. rewrite Nat.add_1_r in IH. exact IH.
Qed.

Lemma pass2_as_list store fuel nodes order st :
  List.length order = List.length nodes →
  foldM (pass2Step store fuel nodes order) (List.seq 0 (List.length nodes)) st
  = foldM (collectComponent store fuel) (reverse order) st.
Proof.
  intros Hlen.
  rewrite <- (foldM_seq_lookup (collectComponent store fuel) [] (reverse order)).
  rewrite length_reverse, Hlen. simpl.
  apply foldM_ext. intros st2 i Hi. unfold pass2Step.
  apply list_elem_of_In, in_seq in Hi.
  rewrite reverse_lookup by lia.
  replace (List.length order - S i) with (List.length nodes - 1 - i) by lia.
  done.
Qed.

Lemma mapSet_fresh {V} (m : list (string * V)) k v :
  k ∉ m.*1 → mapSet m k v = m ++ [(k, v)].
Proof.
  induction m as [|[k' v'] m IH]; intros Hk; simpl; [done|].
  rewrite fmap_cons, not_elem_of_cons in Hk. destruct Hk as [Hne Hk].
  simpl in Hne. destruct (String.eqb_spec k' k); [congruence|].
  by rewrite IH.
Qed.

Lemma foldl_mapSet_fresh {V} (m : list (string * V)) ks v :
  NoDup ks → (∀ k, k ∈ ks → k ∉ m.*1) →
  foldl (λ cs x, mapSet cs x v) m ks = m ++ map (λ x, (x, v)) ks.
Proof.
  revert m. induction ks as [|k ks IH]; intros m Hnd Hfresh; simpl.
  - by rewrite app_nil_r.
  - apply NoDup_cons in Hnd as [Hk Hnd].
    rewrite mapSet_fresh by (apply Hfresh; by left).
    rewrite IH; [by rewrite <- app_assoc|done|].
    intros k' Hk'. rewrite fmap_app, elem_of_app. simpl.
    intros [H|H%list_elem_of_singleton]; [|congruence].
    revert H. apply Hfresh. by right.
Qed.

Lemma mapGet_elem_of {V} (m : list (string * V)) k v :
  NoDup m.*1 → mapGet m k = Some v ↔ (k, v) ∈ m.
Proof.
  induction m as [|[k' v'] m IH]; intros Hnd; simpl.
  - split; [done|]. by intros ?%elem_of_nil.
  - rewrite fmap_cons in Hnd. apply NoDup_cons in Hnd as [Hk' Hnd].
    rewrite elem_of_cons. destruct (String.eqb_spec k' k) as [->|Hne].
    + split; [intros [= ->]; by left|].
      intros [[= ->]|Hin]; [done|]. exfalso. apply Hk'.
      apply list_elem_of_fmap. by exists (k, v).
    + rewrite IH by done. naive_solver.
Qed.

Lemma NoDup_split_inj {A} (a a' r r' : list A) h :
  NoDup (a ++ h :: r) → a ++ h :: r = a' ++ h :: r' → a = a' ∧ r = r'.
Proof.
  revert a'. induction a as [|x a IH]; intros a' Hnd Heq.
  - destruct a' as [|y a']; simpl in *; [by injection Heq as ->|].
    injection Heq as <- ->. apply NoDup_cons in Hnd as [Hh _].
    exfalso. apply Hh. set_solver.
  - destruct a' as [|y a']; simpl in *.
    + injection Heq as -> <-. apply NoDup_cons in Hnd as [Hh _].
      exfalso. apply Hh. set_solver.
    + injection Heq as <- Heq. apply NoDup_cons in Hnd as [_ Hnd].
      destruct (IH a' Hnd Heq) as [-> ->]. done.
Qed.


Section SecondPass.
Context (store : Store) (fuel : nat) (order : list string).

Notation nodes := (nodesOf store).
Notation W := (white nodes).

Context (Hfuel : List.length nodes ≤ fuel).
Context (Hnd : NoDup order).
Context (Hall : ∀ x, x ∈ order ↔ x ∈ nodes).

Lemma fwd_bwd a b : fwd store nodes a b → bwd store b a.
Proof.
  unfold fwd, bwd. rewrite succs_elem_of, preds_elem_of.
  intros (q & Hq & Hs & _ & Ho & _). by exists q.
Qed.

Lemma bwd_fwd a b :
  wfStore store → a ∈ nodes → bwd store a b → fwd store nodes b a.
Proof.
  unfold fwd, bwd. rewrite succs_elem_of, preds_elem_of.
  intros Hwf (q' & Hq' & Hs')%nodesOf_elem_of (q & Hq & Hs & Ho).
  exists q. split_and!; [done|done| |done|].
  - destruct (isLiteral (object q)) eqn:Hl; [|done].
    exfalso. apply (Hwf q q' Hq Hq' Hl). congruence.
  - apply nodesOf_elem_of. by exists q'.
Qed.

Lemma reach_trans a b c : reach store a b → reach store b c → reach store a c.
Proof. apply reachIn_trans. Qed.

Lemma reach_refl a : a ∈ nodes → reach store a a.
Proof. intros. by apply reachIn_refl. Qed.

(** In the finishing order no unmarked vertex comes after the last one. *)
Lemma last_unmarked front h back used c :
  order = front ++ h :: back →
  (∀ x, x ∈ back → isUsed used x = true) →
  isUsed used c = false → atOrBefore order h c → c = h.
Proof.
  intros Horder Hback Hc (l1 & l2 & Heq & Hh).
  destruct (decide (c = h)) as [|Hne]; [done|exfalso].
  assert (h ∈ l1) as (a & b & ->)%list_elem_of_split by set_solver.
  rewrite <- app_assoc in Heq. simpl in Heq.
  rewrite Heq in Hnd. rewrite Horder in Heq.
  destruct (NoDup_split_inj a front (b ++ c :: l2) back h) as [_ Hb]; [done|done|].
  assert (isUsed used c = true); [|congruence].
  apply Hback. rewrite <- Hb. set_solver.
Qed.

Lemma collect_step front h back st :
  order = front ++ h :: back →
  pass2Inv store order back st →
  ∃ st', collectComponent store fuel st h = Some st'
         ∧ pass2Inv store order (h :: back) st'.
Proof.
  intros Horder (Hc & Hkeys & Hsub & Hback & Hndk & Hidx & Hsound).
  unfold collectComponent.
  destruct (isUsed (used2 st) h) eqn:Hu; cbn [negb].
  { exists st. split; [done|]. split_and!; try done.
    intros x [->|Hx]%elem_of_cons; auto. }
  assert (h ∈ nodes) as Hh by (apply Hall; rewrite Horder; set_solver).
  destruct (backwardDfs_spec store fuel h (used2 st) (component st))
    as (used' & new & Hrun & Hm & Hndn & Hin); [done|done| |].
  { etrans; [apply countWhite_le|done]. }
  rewrite Hrun, Hc. cbn [app].
  assert (∀ x, x ∈ new → W (used2 st) x) as Hwhite.
  { intros x Hx%Hin. by apply reachIn_r in Hx. }
  assert (∀ k, k ∈ new → k ∉ (components st).*1) as Hfresh.
  { intros k [_ Hk]%Hwhite Hk'%Hkeys. congruence. }
  rewrite foldl_mapSet_fresh by done.
  assert (h ∈ new) as Hhnew by (apply Hin; by apply reachIn_refl).
  assert (∀ x c, (x, c) ∈ components st ++ map (λ x, (x, componentIdx st)) new ↔
            (x, c) ∈ components st ∨ (x ∈ new ∧ c = componentIdx st)) as Hcm.
  { intros x c. rewrite elem_of_app, list_elem_of_fmap. naive_solver. }
  assert (∀ x, x ∈ (components st ++ map (λ x, (x, componentIdx st)) new).*1 ↔
            x ∈ (components st).*1 ∨ x ∈ new) as Hk'.
  { intros x. rewrite fmap_app, elem_of_app, <- list_fmap_compose.
    by rewrite list_fmap_id. }
  eexists. split; [done|]. split_and!; cbn [component used2 components componentIdx].
  - done.
  - intros x. rewrite (Hm x), Hk', Hkeys. done.
  - intros x [Hx|Hx]%Hk'; [by apply Hsub|]. by apply Hwhite in Hx as [? _].
  - intros x Hx. apply Hm. apply elem_of_cons in Hx as [->|Hx]; [by right|].
    left. by apply Hback.
  - rewrite fmap_app, <- list_fmap_compose, list_fmap_id.
    apply NoDup_app. split_and!; [done| |done].
    intros x Hx Hx'. by apply (Hfresh x).
  - intros x c [Hx|[_ ->]]%Hcm; [|lia]. apply Hidx in Hx. lia.
  - intros Hwf. destruct (Hsound Hwf) as (Hcorr & Hclosed & Hrest).
    assert (∀ x, x ∈ new ↔ reach store h x ∧ reach store x h) as Hscc.
    { intros x. rewrite Hin. split.
      - intros Hr.
        assert (reachIn (fwd store nodes) (W (used2 st)) x h) as Hr'.
        { eapply reachIn_reverse; [|exact Hr].
          intros a b [Ha _] _. by apply bwd_fwd. }
        assert (reach store x h) as Hxh.
        { eapply reachIn_mono; [|exact Hr']. by intros z [? _]. }
        split; [|done].
        apply reachIn_l in Hr' as [Hxn Hxu].
        destruct (Hrest x h) as (_ & c & Hcu & H1 & H2 & H3);
          [by apply Hall|done|done|].
        by rewrite (last_unmarked front h back (used2 st) c) in H2.
      - intros [Hhx Hxh].
        eapply reachIn_reverse; [intros a b _ _; apply fwd_bwd|].
        eapply reachIn_confined; [exact Hxh|].
        intros z Hxz. split; [by apply reachIn_r in Hxz|].
        destruct (Hrest h z) as (Hz & _); [by apply Hall|done| |done].
        by apply (reach_trans h x z). }
    split_and!.
    + intros a b ca cb [Ha|[Ha ->]]%Hcm [Hb|[Hb ->]]%Hcm.
      * by apply Hcorr.
      * split.
        -- intros ->. apply Hidx in Ha. lia.
        -- intros [Hab Hba]. exfalso.
           assert (isUsed (used2 st) a = true) as Hau.
           { apply Hkeys, list_elem_of_fmap. by exists (a, ca). }
           pose proof (Hclosed a b Hau Hab Hba) as Hbu.
           apply Hwhite in Hb as [_ ?]. congruence.
      * split.
        -- intros <-. apply Hidx in Hb. lia.
        -- intros [Hab Hba]. exfalso.
           assert (isUsed (used2 st) b = true) as Hbu.
           { apply Hkeys, list_elem_of_fmap. by exists (b, cb). }
           pose proof (Hclosed b a Hbu Hba Hab) as Hau.
           apply Hwhite in Ha as [_ ?]. congruence.
      * split; [|done]. intros _.
        apply Hscc in Ha as [? ?]. apply Hscc in Hb as [? ?].
        split; eapply reach_trans; eauto.
    + intros a b [Ha|Ha]%Hm Hab Hba; apply Hm.
      * left. by eapply Hclosed.
      * right. apply Hscc in Ha as [? ?]. apply Hscc.
        split; eapply reach_trans; eauto.
    + intros a b Ha Hau Hab.
      change (isUsed used' a = false) in Hau.
      assert (isUsed (used2 st) a = false ∧ a ∉ new) as [Hau0 Han].
      { split.
        - destruct (isUsed (used2 st) a) eqn:E; [|done].
          assert (isUsed used' a = true) by (apply Hm; by left). congruence.
        - intros Hn.
          assert (isUsed used' a = true) by (apply Hm; by right). congruence. }
      destruct (Hrest a b Ha Hau0 Hab) as (Hbu & c & Hcu & H1 & H2 & H3).
      assert (∀ z, isUsed (used2 st) z = false → z ∉ new →
                isUsed used' z = false) as Hstill.
      { intros z Hz Hzn.
        destruct (isUsed used' z) eqn:E; [|done].
        apply Hm in E as [E|E]; [congruence|done]. }
      split.
      * apply Hstill; [done|]. intros [Hhb Hbh]%Hscc.
        destruct (Hrest a h) as (_ & c' & Hc'u & H1' & H2' & H3');
          [done|done|by apply (reach_trans a b h)|].
        rewrite (last_unmarked front h back (used2 st) c') in H1', H2' by done.
        apply Han, Hscc. done.
      * exists c. split_and!; [|done..].
        apply Hstill; [done|]. intros [Hhc Hch]%Hscc.
        apply Han, Hscc. split; eapply reach_trans; eauto.
Qed.


Lemma pass2_loop todo back st :
  order = reverse todo ++ back →
  pass2Inv store order back st →
  ∃ st', foldM (collectComponent store fuel) todo st = Some st'
         ∧ pass2Inv store order order st'.
Proof.
  revert back st. induction todo as [|h todo IH]; intros back st Horder Hinv.
  - exists st. split; [done|]. rewrite reverse_nil in Horder.
    simpl in Horder. by subst back.
  - rewrite reverse_cons, <- app_assoc in Horder. simpl in Horder.
    destruct (collect_step (reverse todo) h back st Horder Hinv)
      as (st1 & Hstep & Hinv1).
    cbn [foldM]. rewrite Hstep. by apply (IH (h :: back)).
Qed.

End SecondPass.

(** *** The algorithm as a whole *)

Lemma stronglyConnectedComponents_spec store fuel :
  List.length (nodesOf store) ≤ fuel →
  ∃ cm,
    stronglyConnectedComponents fuel store = Some cm
    ∧ NoDup cm.*1
    ∧ (∀ x, x ∈ cm.*1 ↔ x ∈ nodesOf store)
    ∧ (wfStore store →
       ∀ a b ca cb, mapGet cm a = Some ca → mapGet cm b = Some cb →
         (ca = cb ↔ reach store a b ∧ reach store b a)).
Proof.
  intros Hfuel. unfold stronglyConnectedComponents.
  destruct (firstPass_spec store (nodesOf store) fuel (nodesOf_NoDup store) Hfuel)
    as (used & order & Hrun & Hused & Hnd & Hall & Hfin).
  unfold visitAll in Hrun. rewrite Hrun.
  assert (List.length order = List.length (nodesOf store)) as Hlen.
  { apply Permutation_length, NoDup_Permutation; [done|apply nodesOf_NoDup|done]. }
  rewrite pass2_as_list by done.
  destruct (pass2_loop store fuel order Hfuel Hnd Hall (reverse order) []
              (mkPass2 (resetUsed (nodesOf store) used) [] [] 0))
    as (st' & Hloop & Hinv).
  { by rewrite reverse_involutive, app_nil_r. }
  { assert (∀ x, isUsed (resetUsed (nodesOf store) used) x = false) as Hfresh.
    { intros x. destruct (isUsed (resetUsed (nodesOf store) used) x) eqn:E; [|done].
      apply isUsed_resetUsed in E as [Hx E]. exfalso. by apply Hx, Hall, Hused. }
    split_and!; cbn [component used2 components componentIdx].
    - done.
    - intros x. rewrite Hfresh. split; [done|]. by intros ?%elem_of_nil.
    - by intros x ?%elem_of_nil.
    - by intros x ?%elem_of_nil.
    - constructor.
    - by intros x c ?%elem_of_nil.
    - intros _. split_and!.
      + by intros a b ca cb ?%elem_of_nil.
      + intros a b. by rewrite Hfresh.
      + intros a b Ha _ Hab. split; [done|].
        destruct (Hfin a b Ha Hab) as (c & _ & H1 & H2 & H3).
        exists c. by rewrite Hfresh. }
  rewrite Hloop. destruct Hinv as (_ & Hkeys & Hsub & Hback & Hndk & _ & Hsound).
  exists (components st'). split_and!; [done|done| |].
  - intros x. split; [apply Hsub|]. intros Hx. by apply Hkeys, Hback, Hall.
  - intros Hwf a b ca cb Ha%mapGet_elem_of Hb%mapGet_elem_of; [|done..].
    destruct (Hsound Hwf) as (Hcorr & _). by apply Hcorr.
Qed.

(** Reachability among nodes is reachability in the store. *)
Lemma reachable_source store a b :
  reachable store a b → b ∈ nodesOf store → a ∈ nodesOf store.
Proof.
  intros Hr Hb. destruct Hr as [|a z b (q & Hq & Hs & _) _]; [done|].
  apply nodesOf_elem_of. by exists q.
Qed.

Lemma reach_reachable store a b :
  a ∈ nodesOf store → b ∈ nodesOf store →
  reach store a b ↔ reachable store a b.
Proof.
  intros Ha Hb. split.
  - clear Ha Hb. induction 1 as [x Hx|x y z Hx Hxy _ IH]; [by apply rtc_refl|].
    eapply rtc_l; [|exact IH].
    apply succs_elem_of in Hxy as (q & ? & ? & ? & ? & ?). by exists q.
  - intros Hr. induction Hr as [x|x y z Hxy Hyz IH]; [by apply reachIn_refl|].
    assert (y ∈ nodesOf store) as Hy by (by apply (reachable_source store y z)).
    eapply reachIn_step; [done| |by apply IH].
    destruct Hxy as (q & ? & ? & ? & ?). apply succs_elem_of. by exists q.
Qed.

End GraphFacts.

(** ** The report *)
Module ReportFacts.
Import JS Rdf Utils SchemaValidator Report.

(** *** uniqueBy *)

Lemma markSeen_elem_of seen val x :
  x ∈ markSeen seen val ↔ x ∈ seen ∨ (x = val ∧ val ≠ "__proto__").
Proof.
  unfold markSeen. destruct (String.eqb_spec val "__proto__"); set_solver.
Qed.

Lemma uniqueByFrom_spec seen keys items out :
  uniqueByFrom seen keys items = Ok out →
  sublist out items
  ∧ (∀ f, f ∈ out → uniqueKey keys f ∉ seen)
  ∧ distinctKeys (uniqueKey keys) out
  ∧ keepsFirst (uniqueKey keys) seen items out.
Proof.
  revert seen out. induction items as [|item rest IH]; intros seen out Hrun.
  - injection Hrun as <-. split_and!.
    + constructor.
    + by intros f ?%elem_of_nil.
    + intros i j f g _ Hi. by rewrite lookup_nil in Hi.
    + intros l1 f l2 Heq. by destruct l1.
  - cbn [uniqueByFrom] in Hrun.
    case_bool_decide as Hbad; [done|].
    case_bool_decide as Hseen.
    + destruct (IH seen out Hrun) as (Hsub & Hfresh & Hdist & Hfirst).
      split_and!; [by apply sublist_cons|done|done|].
      intros l1 f l2 Heq Hf Hl1. destruct l1 as [|x l1]; simplify_eq/=; [done|].
      eapply Hfirst; [done|done|]. set_solver.
    + destruct (uniqueByFrom (markSeen seen (uniqueKey keys item)) keys rest)
        as [kept|] eqn:Hrest; [|done].
      injection Hrun as <-.
      destruct (IH _ kept Hrest) as (Hsub & Hfresh & Hdist & Hfirst).
      split_and!.
      * by apply sublist_skip.
      * intros f [->|Hf]%elem_of_cons; [done|].
        apply Hfresh in Hf. rewrite markSeen_elem_of in Hf. tauto.
      * intros i j f g Hij Hi Hj Heq.
        destruct i as [|i], j as [|j]; try lia; simpl in Hi, Hj.
        -- injection Hi as <-.
           destruct (decide (uniqueKey keys item = "__proto__")); [done|exfalso].
           apply list_elem_of_lookup_2, Hfresh in Hj. apply Hj.
           apply markSeen_elem_of. right. by rewrite <- Heq.
        -- apply (Hdist i j f g); [lia|done..].
      * intros l1 f l2 Heq Hf Hl1. destruct l1 as [|x l1]; simplify_eq/=.
        { by left. }
        right. eapply Hfirst; [done| |set_solver].
        rewrite markSeen_elem_of. set_solver.
Qed.



(** *** recursiveValidate *)

(** Induction on a hierarchy, the children being covered. *)
Lemma Hierarchy_ind_nested (P : Hierarchy → Prop) :
  (∀ service_, P (mkHierarchy service_ None)) →
  (∀ service_ cs, Forall P cs → P (mkHierarchy service_ (Some cs))) →
  ∀ node, P node.
Proof.
  intros Hleaf Hstep. fix IH 1. intros [service_ [cs|]]; [|apply Hleaf].
  apply Hstep. induction cs as [|c cs IHcs]; constructor; [apply IH|apply IHcs].
Qed.

Lemma nestedLoop_spec validateNested props cs failures result :
  nestedLoop validateNested props cs failures = Ok result ↔
  ∃ rs, Forall2 (λ c r, validateNested c = Ok r) cs rs
        ∧ result = failures ++ List.concat (map (List.filter (notShadowed props)) rs).
Proof.
  revert failures. induction cs as [|c cs IH]; intros failures; cbn [nestedLoop].
  - split.
    + intros [= <-]. exists []. split; [constructor|]. simpl. by rewrite app_nil_r.
    + intros (rs & Hrs & ->). apply Forall2_nil_inv_l in Hrs as ->.
      simpl. by rewrite app_nil_r.
  - assert (∀ (l : list (gmap string jstr)) acc,
              (if Nat.ltb 0 (List.length l) then acc ++ l else acc) = acc ++ l) as Hpush.
    { intros [|x l] acc; simpl; [by rewrite app_nil_r|done]. }
    destruct (validateNested c) as [found|e] eqn:Hc; simpl.
    + rewrite Hpush, IH. split.
      * intros (rs & Hrs & ->). exists (found :: rs). split; [by constructor|].
        simpl. by rewrite app_assoc.
      * intros (rs & Hrs & ->). apply Forall2_cons_inv_l in Hrs as (r & rs' & Hr & Hrs & ->).
        rewrite Hc in Hr. injection Hr as <-. exists rs'. split; [done|].
        simpl. by rewrite app_assoc.
    + split; [done|]. intros (rs & Hrs & _).
      apply Forall2_cons_inv_l in Hrs as (r & rs' & Hr & _). congruence.
Qed.

Lemma recursiveValidate_unfold env node store id typeQuad rest :
  getQuads store (Some id) (Some (rdf "type")) None = typeQuad :: rest →
  recursiveValidate env node (Some store) id
  = (failures ← ownFailures env node store id typeQuad;
     nestedLoop (λ c, recursiveValidate env c (Some store) id)
       (properties failures) (children node) failures).
Proof.
  intros Htype. destruct node as [service_ [cs|]]; cbn [recursiveValidate];
    rewrite Htype; [done|].
  destruct (ownFailures _ _ _ _ _); done.
Qed.

Lemma recursiveValidate_untyped env node store id :
  getQuads store (Some id) (Some (rdf "type")) None = [] →
  recursiveValidate env node (Some store) id
  = Throw (InvalidDataError
             "Markup doesn't have a type. Validation can't be performed").
Proof. intros Htype. destruct node; cbn [recursiveValidate]. by rewrite Htype. Qed.

Lemma ownFailures_tagged env node store id typeQuad own :
  ownFailures env node store id typeQuad = Ok own →
  ∀ f, f ∈ own →
    ∃ f0, produced env f0
          ∧ f = tagFailure (service node) (removeUrls (value (object typeQuad))) f0.
Proof.
  unfold ownFailures. case_bool_decide.
  - destruct (Validator.validate _ _ _ _) as [fs|] eqn:Hv; [|done].
    simpl. intros [= <-] f (f0 & -> & Hf0)%list_elem_of_fmap.
    exists f0. split; [|done]. by eexists _, _, _, _.
  - simpl. intros [= <-] f Hf. by apply elem_of_nil in Hf.
Qed.

(** Every failure of [recursiveValidate] is a failure of the validator,
    tagged with a service and the de-prefixed type name. *)
Lemma recursiveValidate_tagged env node shapeStore id found :
  recursiveValidate env node shapeStore id = Ok found →
  ∀ f, f ∈ found →
    ∃ service_ type_ f0, produced env f0 ∧ f = tagFailure service_ type_ f0.
Proof.
  revert found.
  induction node as [service_|service_ cs IH] using Hierarchy_ind_nested;
    intros found Hrun f Hf.
  all: destruct shapeStore as [store|]; [|done].
  all: destruct (getQuads store (Some id) (Some (rdf "type")) None)
         as [|typeQuad rest] eqn:Htype;
       [by rewrite recursiveValidate_untyped in Hrun|].
  all: rewrite (recursiveValidate_unfold _ _ _ _ _ _ Htype) in Hrun.
  all: destruct (ownFailures env _ store id typeQuad) as [own|] eqn:Hown; [|done].
  all: cbn [mbind Result_bind JS.bind] in Hrun;
       apply nestedLoop_spec in Hrun as (rs & Hrs & ->).
  all: apply elem_of_app in Hf as [Hf|Hf];
       [destruct (ownFailures_tagged _ _ _ _ _ _ Hown f Hf) as (f0 & ? & ?);
        by eexists _, _, f0|].
  all: apply list_elem_of_In, in_concat in Hf as (l & Hl%list_elem_of_In & Hf%list_elem_of_In).
  all: apply list_elem_of_fmap in Hl as (r & -> & Hr).
  all: apply list_elem_of_In, filter_In in Hf as [Hf%list_elem_of_In _].
  all: unfold children in Hrs; simpl in Hrs.
  - apply Forall2_nil_inv_l in Hrs as ->. by apply elem_of_nil in Hr.
  - apply list_elem_of_lookup in Hr as [i Hi].
    destruct (Forall2_lookup_r _ _ _ _ _ Hrs Hi) as (c & Hc & Hcr).
    eapply (Forall_lookup_1 _ _ _ _ IH Hc); done.
Qed.

(** *** validateSchemaOrg *)

Lemma push_nonempty {A} (l acc : list A) :
  (if Nat.ltb 0 (List.length l) then acc ++ l else acc) = acc ++ l.
Proof. destruct l; simpl; [by rewrite app_nil_r|done]. Qed.

Lemma validateEntities_chunks env entries report report' exn :
  validateEntities env entries report = (report', exn) →
  ∃ chunks, report' = report ++ List.concat chunks ∧ Forall (entityChunk env) chunks.
Proof.
  revert report. induction entries as [|[id shape_] entries IH]; intros report Hrun.
  - injection Hrun as <- <-. exists []. simpl. by rewrite app_nil_r.
  - cbn [validateEntities] in Hrun.
    destruct (recursiveValidate env (hierarchy env) shape_ id) as [found|e] eqn:Hfound;
      simpl in Hrun.
    + destruct (uniqueBy found dedupKeys) as [chunk|e] eqn:Hchunk.
      * rewrite push_nonempty in Hrun.
        destruct (IH _ Hrun) as (chunks & -> & Hall).
        exists (chunk :: chunks). split; [simpl; by rewrite app_assoc|].
        constructor; [|done]. by exists id, shape_, found.
      * injection Hrun as <- <-. exists []. simpl. by rewrite app_nil_r.
    + injection Hrun as <- <-. exists []. simpl. by rewrite app_nil_r.
Qed.

Lemma validateItem_chunks env item url report report' exn :
  validateItem env item url report = (report', exn) →
  ∃ chunks, report' = report ++ List.concat chunks ∧ Forall (entityChunk env) chunks.
Proof.
  unfold validateItem.
  destruct (store ← stringToQuads env item url; shapesOf store) as [shapes_|e].
  - apply validateEntities_chunks.
  - intros [= <- <-]. exists []. simpl. by rewrite app_nil_r.
Qed.

Lemma validateItems_chunks env data url report report' :
  validateItems env data url report = Ok report' →
  ∃ chunks, report' = report ++ List.concat chunks ∧ Forall (entityChunk env) chunks.
Proof.
  revert report. induction data as [|item data IH]; intros report Hrun.
  - injection Hrun as <-. exists []. simpl. by rewrite app_nil_r.
  - cbn [validateItems] in Hrun.
    destruct (validateItem env item url report) as [report1 exn] eqn:Hitem.
    destruct (validateItem_chunks _ _ _ _ _ _ Hitem) as (chunks1 & -> & Hall1).
    assert (validateItems env data url (report ++ List.concat chunks1) = Ok report') as Hrest.
    { destruct exn as [[]|]; done. }
    destruct (IH _ Hrest) as (chunks2 & -> & Hall2).
    exists (chunks1 ++ chunks2). split.
    + by rewrite concat_app, app_assoc.
    + by apply Forall_app.
Qed.


(** The [catch] clause leaves no InvalidDataError to the caller. *)
Lemma validateItems_never_invalid_data env data url report msg :
  validateItems env data url report ≠ Throw (InvalidDataError msg).
Proof.
  revert report. induction data as [|item data IH]; intros report; [done|].
  cbn [validateItems].
  destruct (validateItem env item url report) as [report' [[]|]]; try done; apply IH.
Qed.

(** When no entity throws, each adds its own deduplicated list. *)
Lemma validateEntities_all_ok env entries chunks report :
  Forall2
    (λ entry chunk,
       (found ← recursiveValidate env (hierarchy env) entry.2 entry.1;
        uniqueBy found dedupKeys) = Ok chunk)
    entries chunks →
  validateEntities env entries report = (report ++ List.concat chunks, None).
Proof.
  intros Hall. revert report.
  induction Hall as [|[id shape_] chunk entries chunks Hchunk _ IH]; intros report.
  - simpl. by rewrite app_nil_r.
  - cbn [validateEntities]. cbn [fst snd] in Hchunk. rewrite Hchunk.
    rewrite push_nonempty, IH. simpl. by rewrite app_assoc.
Qed.

End ReportFacts.

(** ** The Shape Extractor *)
Module ShapeFacts.
Import JS Rdf Utils Graph GraphFacts Shapes.

Lemma wfStoreb_sound store : wfStoreb store = true → wfStore store.
Proof.
  unfold wfStoreb, wfStore. rewrite forallb_forall.
  intros H q q' Hq Hq' Hl. apply list_elem_of_In, H in Hq.
  rewrite Hl in Hq. simpl in Hq. rewrite forallb_forall in Hq.
  apply list_elem_of_In, Hq in Hq'. by apply negb_true_iff, String.eqb_neq in Hq'.
Qed.

Lemma countFresh_mono store parsed parsed' :
  (∀ x, x ∈ parsed → x ∈ parsed') →
  countFresh store parsed' ≤ countFresh store parsed.
Proof.
  intros H. apply filter_length_mono. intros o _.
  rewrite !negb_true_iff, !bool_decide_eq_false. naive_solver.
Qed.

Lemma countFresh_push store parsed o :
  o ∈ objectIds store → Some o ∉ parsed →
  countFresh store (parsed ++ [Some o]) < countFresh store parsed.
Proof.
  intros Ho Hfresh. apply (filter_length_strict _ _ _ o); [|done| |].
  - intros x _. rewrite !negb_true_iff, !bool_decide_eq_false. set_solver.
  - by rewrite negb_true_iff, bool_decide_eq_false.
  - rewrite negb_false_iff, bool_decide_eq_true. set_solver.
Qed.

Lemma countFresh_le store parsed : countFresh store parsed ≤ List.length store.
Proof.
  unfold countFresh. etrans; [apply List.filter_length_le|].
  unfold objectIds. etrans; [|by rewrite <- (length_map (λ q, id (object q)) store)].
  generalize (map (λ q, id (object q)) store). intros l.
  induction l as [|x l IH]; simpl; [done|].
  pose proof (List.filter_length_le (λ y, negb (String.eqb y x)) (dedup l)). lia.
Qed.

Lemma nodesOf_length store : List.length (nodesOf store) ≤ List.length store.
Proof.
  unfold nodesOf.
  assert (∀ l, List.length (dedup l) ≤ List.length l) as Hd.
  { intros l. induction l as [|x l IH]; simpl; [done|].
    pose proof (List.filter_length_le (λ y, negb (String.eqb y x)) (dedup l)). lia. }
  etrans; [apply Hd|]. rewrite length_map. unfold getSubjects.
  rewrite <- (length_map subject store). generalize (map subject store). intros l.
  induction l as [|x l IH]; simpl; [done|].
  pose proof (List.filter_length_le (λ u, negb (String.eqb (id u) (id x))) (uniqueTerms l)).
  lia.
Qed.

Section GetShape.
Context (store : Store) (Hwf : wfStore store).

Lemma literal_is_leaf q :
  q ∈ store → isLiteral (object q) = true →
  getQuads store (Some (id (object q))) None None = [].
Proof.
  intros Hq Hl. destruct (getQuads _ _ _ _) as [|q' l] eqn:E; [done|exfalso].
  assert (q' ∈ getQuads store (Some (id (object q))) None None) as Hq'
    by (rewrite E; by left).
  apply getQuads_elem_of in Hq' as (Hq' & Hs%matchesId_Some & _).
  by apply (Hwf q q').
Qed.

Lemma getShape_loop fuel shapes qs acc parsed :
  getShapeSpec store fuel →
  (∀ q, q ∈ qs → q ∈ store) →
  countFresh store parsed + 1 ≤ fuel →
  ∃ acc' parsed',
    foldM
      (λ (st : list Quad * list jstr) quad,
         if negb (isLiteral (object quad))
            && bool_decide (Some (id (object quad)) ∈ st.2)
         then Some st
         else
           match
             match shapesGet shapes (IdTerm (object quad)) with
             | Some found => Some (Some found, st.2)
             | None => getShape fuel (IdTerm (object quad)) store shapes st.2
             end
           with
           | None => None
           | Some (Some nestedStore, parsed') =>
               if Nat.ltb 0 (List.length (getQuads nestedStore None None None))
               then Some (st.1 ++ getQuads nestedStore None None None, parsed')
               else Some (st.1, parsed')
           | Some (None, parsed') => Some (st.1, parsed')
           end)
      qs (acc, parsed) = Some (acc', parsed')
    ∧ (∀ x, x ∈ parsed → x ∈ parsed').
Proof.
  intros IHf. revert acc parsed.
  induction qs as [|q qs IH]; intros acc parsed Hqs Hfuel.
  - by exists acc, parsed.
  - cbn [foldM]. cbn [fst snd].
    assert (∀ q', q' ∈ qs → q' ∈ store) as Hqs' by (intros; apply Hqs; by right).
    assert (q ∈ store) as Hq by (apply Hqs; by left).
    destruct (negb (isLiteral (object q))
              && bool_decide (Some (id (object q)) ∈ parsed)) eqn:Hskip.
    { by apply IH. }
    cbn [shapesGet].
    destruct (IHf (IdTerm (object q)) shapes parsed) as (r & parsed1 & Hrun & Hsub).
    { cbn [lookupId idProp].
      destruct (isLiteral (object q)) eqn:Hl.
      - left. split; [by apply literal_is_leaf|lia].
      - right. simpl in Hskip. apply bool_decide_eq_false in Hskip.
        assert (id (object q) ∈ objectIds store) as Ho.
        { apply dedup_elem_of, list_elem_of_fmap. by exists q. }
        pose proof (countFresh_push store parsed _ Ho Hskip) as Hlt.
        unfold jstr in *. lia. }
    rewrite Hrun.
    assert (∀ x, x ∈ parsed → x ∈ parsed1) as Hsub'.
    { intros x Hx. apply Hsub. set_solver. }
    assert (countFresh store parsed1 + 1 ≤ fuel) as Hfuel1.
    { pose proof (countFresh_mono store parsed parsed1 Hsub'). lia. }
    destruct r as [nestedStore|].
    + destruct (Nat.ltb 0 (List.length (getQuads nestedStore None None None))).
      * destruct (IH (acc ++ getQuads nestedStore None None None) parsed1 Hqs' Hfuel1)
          as (acc' & parsed' & Hrest & Hsub2).
        exists acc', parsed'. split; [done|]. auto.
      * destruct (IH acc parsed1 Hqs' Hfuel1) as (acc' & parsed' & Hrest & Hsub2).
        exists acc', parsed'. split; [done|]. auto.
    + destruct (IH acc parsed1 Hqs' Hfuel1) as (acc' & parsed' & Hrest & Hsub2).
      exists acc', parsed'. split; [done|]. auto.
Qed.

Lemma getShape_returns fuel : getShapeSpec store fuel.
Proof.
  induction fuel as [|fuel IH]; intros i shapes parsed Hfuel.
  - exfalso. destruct Hfuel as [[_ ?]|?]; lia.
  - cbn [getShape].
    destruct (getQuads store (Some (lookupId i)) None None) as [|q0 qs0] eqn:Hq.
    { simpl. by eexists _, _. }
    destruct Hfuel as [[? _]|Hfuel]; [done|].
    cbn [List.length Nat.eqb].
    destruct (getShape_loop fuel shapes (q0 :: qs0) (q0 :: qs0) (parsed ++ [idProp i]) IH)
      as (acc' & parsed' & Hrun & Hsub).
    { intros q' Hq'. rewrite <- Hq in Hq'. by apply getQuads_elem_of in Hq' as [? _]. }
    { lia. }
    rewrite Hrun. by eexists _, _.
Qed.

End GetShape.

Lemma foldM_total {A S} (body : S → A → option S) (l : list A) (st : S) :
  (∀ s a, a ∈ l → is_Some (body s a)) → is_Some (foldM body l st).
Proof.
  revert st. induction l as [|a l IH]; intros st H; simpl; [done|].
  destruct (H st a) as [st' Hst']; [by left|]. rewrite Hst'.
  apply IH. intros s b Hb. apply H. by right.
Qed.

(** Shape materialization returns on every well-formed store. *)
Lemma quadsToShapes_returns store fuel :
  wfStore store → 2 + List.length store ≤ fuel →
  ∃ shapes, quadsToShapes fuel store = Some shapes.
Proof.
  intros Hwf Hfuel. unfold quadsToShapes.
  destruct (stronglyConnectedComponents_spec store fuel) as (cm & -> & _).
  { pose proof (nodesOf_length store). lia. }
  match goal with |- context [foldM ?f ?l ?s] =>
    destruct (foldM_total f l s) as [[shapes notRoot] ->] end.
  - intros [shapes notRoot] [node c] _. cbn [fst snd].
    destruct (negb (bool_decide (c ∈ notRoot))); [|done].
    destruct (getShape_returns store Hwf fuel (IdString node) shapes [])
      as (r & parsed' & -> & _); [|done].
    right. pose proof (countFresh_le store ([] ++ [idProp (IdString node)])). lia.
  - by exists shapes.
Qed.


Lemma shapesOf_returns store :
  wfStore store → ∃ shapes, SchemaValidator.shapesOf store = Ok shapes.
Proof.
  intros Hwf. unfold SchemaValidator.shapesOf.
  destruct (quadsToShapes_returns store (2 + List.length store) Hwf) as [shapes ->];
    [done|]. by exists shapes.
Qed.

(** *** A materialized store holds no triple twice *)

Lemma sameQuad_sym a b : sameQuad a b = sameQuad b a.
Proof.
  unfold sameQuad.
  by rewrite (String.eqb_sym (id (subject a))), (String.eqb_sym (id (predicate a))),
    (String.eqb_sym (id (object a))).
Qed.

Lemma addQuad_noRepeat st q : noRepeat st → noRepeat (addQuad st q).
Proof.
  intros Hst. unfold addQuad. destruct (existsb (sameQuad q) st) eqn:Hex; [done|].
  intros i j a b Hij Hi Hj.
  destruct (decide (j < List.length st)) as [Hlt|Hge].
  - rewrite lookup_app_l in Hi by lia. rewrite lookup_app_l in Hj by done.
    by apply (Hst i j).
  - assert (i < List.length st) as Hi'.
    { apply lookup_lt_Some in Hj. rewrite length_app in Hj. simpl in Hj. lia. }
    rewrite lookup_app_l in Hi by done.
    rewrite lookup_app_r in Hj by lia.
    apply list_lookup_singleton_Some in Hj as [_ <-].
    rewrite sameQuad_sym.
    destruct (sameQuad q a) eqn:Hs; [|done].
    assert (existsb (sameQuad q) st = true); [|congruence].
    apply existsb_exists. exists a. split; [|done].
    apply list_elem_of_In. by apply list_elem_of_lookup_2 in Hi.
Qed.

Lemma foldl_addQuad_noRepeat quads st :
  noRepeat st → noRepeat (foldl addQuad st quads).
Proof.
  revert st. induction quads as [|q quads IH]; intros st Hst; simpl; [done|].
  by apply IH, addQuad_noRepeat.
Qed.

Lemma getShape_noRepeat fuel i store shapes parsed st parsed' :
  getShape fuel i store shapes parsed = Some (Some st, parsed') → noRepeat st.
Proof.
  destruct fuel as [|fuel]; [done|]. cbn [getShape].
  destruct (Nat.eqb _ 0); [done|].
  match goal with |- context [foldM ?f ?l ?s] => destruct (foldM f l s) as [[quads p]|] end;
    [|done].
  intros [= <- _]. apply foldl_addQuad_noRepeat.
  intros i' j a b _ Hi'. by rewrite lookup_nil in Hi'.
Qed.

Lemma mapSet_values {V} (P : V → Prop) (m : list (string * V)) k v :
  Forall (λ e, P e.2) m → P v → Forall (λ e, P e.2) (mapSet m k v).
Proof.
  induction 1 as [|[k' v'] m He Hm IH]; intros Hv; simpl.
  - by repeat constructor.
  - destruct (String.eqb k' k); constructor; auto.
Qed.

Lemma quadsToShapes_noRepeat fuel store shapes :
  quadsToShapes fuel store = Some shapes →
  Forall (λ e, ∀ st, e.2 = Some st → noRepeat st) shapes.
Proof.
  unfold quadsToShapes.
  destruct (stronglyConnectedComponents fuel store) as [cm|]; [|done].
  generalize (demoted store cm). intros notRoot.
  assert (Forall (λ e : string * option Store, ∀ st, e.2 = Some st → noRepeat st) [])
    as Hinit by constructor.
  revert Hinit. generalize (@nil (string * option Store)). revert notRoot.
  induction cm as [|[node c] cm IH]; intros notRoot acc Hacc; cbn [foldM].
  - by intros [= <-].
  - cbn [fst snd]. destruct (negb (bool_decide (c ∈ notRoot))).
    + destruct (getShape fuel (IdString node) store acc []) as [[shape parsed']|] eqn:Hg;
        [|done].
      apply IH. apply (mapSet_values (λ v, ∀ st, v = Some st → noRepeat st)); [done|].
      intros st ->. by eapply getShape_noRepeat.
    + by apply IH.
Qed.

End ShapeFacts.

(** ** The claims *)
Module Claims.
Import JS Rdf Utils Graph GraphFacts Shapes ShapeFacts TextFacts.
Import SchemaValidator Report ReportFacts Examples.

(** *** The Graph Decomposer *)

Lemma mapGet_is_Some {V} (m : list (string * V)) k :
  k ∈ m.*1 ↔ is_Some (mapGet m k).
Proof.
  induction m as [|[k' v'] m IH]; simpl.
  - split; [by intros ?%elem_of_nil|by intros [? ?]].
  - rewrite elem_of_cons, IH. destruct (String.eqb_spec k' k); naive_solver.
Qed.

Lemma edge_source store a b : edge store a b → a ∈ nodesOf store.
Proof. intros (q & Hq & Hs & _). apply nodesOf_elem_of. by exists q. Qed.

Lemma tc_source store a b : tc (edge store) a b → a ∈ nodesOf store.
Proof. intros [x y H|x y z H _]; by eapply edge_source. Qed.

(** C3, as amended: for every store the decomposer returns, and it assigns
    exactly one ComponentId to every distinct subject id of the store and to
    nothing else; an id that occurs only as an object receives none. *)
Theorem every_subject_gets_one_component (store : list Quad) (fuel : nat) :
  List.length (nodesOf store) ≤ fuel →
  ∃ components,
    stronglyConnectedComponents fuel store = Some components
    ∧ NoDup components.*1
    ∧ ∀ x, (∃ c, mapGet components x = Some c)
           ↔ (∃ q, q ∈ store ∧ id (subject q) = x).
Proof.
  intros Hfuel.
  destruct (stronglyConnectedComponents_spec store fuel Hfuel)
    as (cm & Hrun & Hnd & Hkeys & _).
  exists cm. split_and!; [done..|].
  intros x. by rewrite <- nodesOf_elem_of, <- Hkeys, mapGet_is_Some.
Qed.

Lemma every_subject_gets_one_component_witness :
  ∃ components,
    stronglyConnectedComponents 4 chainStore = Some components
    ∧ NoDup components.*1
    ∧ ∀ x, (∃ c, mapGet components x = Some c)
           ↔ (∃ q, q ∈ chainStore ∧ id (subject q) = x).
Proof.
  apply (every_subject_gets_one_component chainStore 4). vm_compute. lia.
Defined.

(** C3, as stated, fails: in the store [A -p-> B] the node [B] is a
    non-literal object, and the decomposer labels [A] only. *)
Lemma object_only_node_gets_no_component :
  edge objectOnlyStore "A" "B"
  ∧ stronglyConnectedComponents 3 objectOnlyStore = Some [("A", 0)]
  ∧ mapGet [("A", 0)] "B" = None.
Proof.
  split_and!; [|done..]. exists (triple "A" "p" "B"). split_and!; [|done..].
  by left.
Qed.

(** C4: on every store (whose literal ids are not ids of subjects, as n3
    builds them) the decomposer returns, and two labelled ids share a
    ComponentId if and only if they are mutually reachable along the edges
    of the store. Hence sharing a component is an equivalence on the
    labelled ids, two nodes on a common directed cycle share a component,
    and in an acyclic store every component is a singleton. *)
Theorem components_are_mutual_reachability_classes
  (store : list Quad) (fuel : nat) :
  wfStore store → List.length (nodesOf store) ≤ fuel →
  ∃ components,
    stronglyConnectedComponents fuel store = Some components
    ∧ (∀ a b ca cb,
         mapGet components a = Some ca → mapGet components b = Some cb →
         (ca = cb ↔ mutuallyReachable store a b))
    ∧ (let same a b :=
         ∃ c, mapGet components a = Some c ∧ mapGet components b = Some c in
       (∀ a, is_Some (mapGet components a) → same a a)
       ∧ (∀ a b, same a b → same b a)
       ∧ (∀ a b c, same a b → same b c → same a c))
    ∧ (∀ a b, tc (edge store) a b → tc (edge store) b a →
         ∃ c, mapGet components a = Some c ∧ mapGet components b = Some c)
    ∧ ((∀ x, ¬ tc (edge store) x x) →
       ∀ a b c, mapGet components a = Some c → mapGet components b = Some c →
         a = b).
Proof.
  intros Hwf Hfuel.
  destruct (stronglyConnectedComponents_spec store fuel Hfuel)
    as (cm & Hrun & Hnd & Hkeys & Hsound).
  specialize (Hsound Hwf).
  assert (∀ a b ca cb, mapGet cm a = Some ca → mapGet cm b = Some cb →
            (ca = cb ↔ mutuallyReachable store a b)) as Hiff.
  { intros a b ca cb Ha Hb. rewrite (Hsound a b ca cb Ha Hb).
    assert (a ∈ nodesOf store) by (apply Hkeys, mapGet_is_Some; by eexists).
    assert (b ∈ nodesOf store) by (apply Hkeys, mapGet_is_Some; by eexists).
    unfold mutuallyReachable. by rewrite !reach_reachable. }
  exists cm. split_and!; [done|done| | |].
  - split_and!.
    + intros a [c Hc]. by exists c.
    + intros a b (c & ? & ?). by exists c.
    + intros a b c (x & Ha & Hb) (y & Hb' & Hc). exists x. naive_solver.
  - intros a b Hab Hba.
    destruct (proj1 (mapGet_is_Some cm a)) as [ca Ha].
    { apply Hkeys. by eapply tc_source. }
    destruct (proj1 (mapGet_is_Some cm b)) as [cb Hb].
    { apply Hkeys. by eapply tc_source. }
    exists ca. split; [done|]. rewrite Hb. f_equal. symmetry.
    apply (Hiff a b ca cb Ha Hb). split; by apply tc_rtc.
  - intros Hdag a b c Ha Hb.
    destruct (proj1 (Hiff a b c c Ha Hb) eq_refl) as [Hab Hba].
    apply rtc_tc in Hab as [?|Hab]; [done|].
    apply rtc_tc in Hba as [?|Hba]; [done|].
    destruct (Hdag a). by eapply tc_trans.
Qed.

Lemma components_are_mutual_reachability_classes_witness :
  ∃ components,
    stronglyConnectedComponents 4 chainStore = Some components
    ∧ (∀ a b ca cb,
         mapGet components a = Some ca → mapGet components b = Some cb →
         (ca = cb ↔ mutuallyReachable chainStore a b))
    ∧ (let same a b :=
         ∃ c, mapGet components a = Some c ∧ mapGet components b = Some c in
       (∀ a, is_Some (mapGet components a) → same a a)
       ∧ (∀ a b, same a b → same b a)
       ∧ (∀ a b c, same a b → same b c → same a c))
    ∧ (∀ a b, tc (edge chainStore) a b → tc (edge chainStore) b a →
         ∃ c, mapGet components a = Some c ∧ mapGet components b = Some c)
    ∧ ((∀ x, ¬ tc (edge chainStore) x x) →
       ∀ a b c, mapGet components a = Some c → mapGet components b = Some c →
         a = b).
Proof.
  apply (components_are_mutual_reachability_classes chainStore 4).
  - apply wfStoreb_sound. reflexivity.
  - vm_compute. lia.
Defined.

(** *** The Shape Extractor *)

(** C8: on every store (whose literal ids are not ids of subjects) shape
    materialization returns, self-loops and mutual references included, and
    no materialized store holds a triple twice; for [A -> B -> A] the only
    shape is rooted at [A] and holds the two triples once each. *)
Theorem quadsToShapes_terminates (store : list Quad) (fuel : nat) :
  wfStore store → 2 + List.length store ≤ fuel →
  (∃ shapes,
     quadsToShapes fuel store = Some shapes
     ∧ Forall (λ entry, ∀ st, entry.2 = Some st → noRepeat st) shapes)
  ∧ quadsToShapes (2 + List.length mutualStore) mutualStore
    = Some [("A", Some [triple "A" "p" "B"; triple "B" "p" "A"])].
Proof.
  intros Hwf Hfuel. split; [|by vm_compute].
  destruct (quadsToShapes_returns store fuel Hwf Hfuel) as [shapes Hrun].
  exists shapes. split; [done|]. by eapply quadsToShapes_noRepeat.
Qed.

Lemma quadsToShapes_terminates_witness :
  (∃ shapes,
     quadsToShapes 7 chainStore = Some shapes
     ∧ Forall (λ entry, ∀ st, entry.2 = Some st → noRepeat st) shapes)
  ∧ quadsToShapes (2 + List.length mutualStore) mutualStore
    = Some [("A", Some [triple "A" "p" "B"; triple "B" "p" "A"])].
Proof.
  apply (quadsToShapes_terminates chainStore 7).
  - apply wfStoreb_sound. reflexivity.
  - vm_compute. lia.
Defined.


(** *** The Hierarchical Validator *)



(** The shadowing at work: the nested service reports [name] and [image],
    the parent reports [name], and the merged result holds the parent's
    [name] and the child's [image]. *)
Lemma nested_name_failure_is_shadowed :
  recursiveValidate nestedEnv (hierarchy nestedEnv) (Some oneThing)
    "http://example.org/a" = Ok [thingFailure; imageFailure].
Proof. reflexivity. Qed.




(** An unknown failure type is not masked: it ends [validateSchemaOrg]. *)
Lemma unknown_failure_type_propagates :
  validateSchemaOrg excessEnv ["doc"] "http://example.org/"
  = Throw (ShexValidationError "Unknown failure type ExcessTripleViolation").
Proof. reflexivity. Qed.

(** *** The produced report *)









(** *** The Report Simplifier and the Annotation Enricher *)

(** C1 at its failing input: for a report item of type ExcessTripleViolation
    or NegatedProperty, whatever the messages table holds, [simplify] raises
    the unknown-type error and emits no failure. *)
Theorem simplify_rejects_excess_and_negated
  (failureMessages : gmap string string) (parentNode parentShape : jstr)
  (failures : list (gmap string jstr)) :
  Validator.simplify failureMessages
    (Shex.Single (plainItem "ExcessTripleViolation" "http://schema.org/name"))
    parentNode parentShape failures
  = Throw (ShexValidationError "Unknown failure type ExcessTripleViolation")
  ∧ Validator.simplify failureMessages
      (Shex.Single (plainItem "NegatedProperty" "http://schema.org/name"))
      parentNode parentShape failures
    = Throw (ShexValidationError "Unknown failure type NegatedProperty").
Proof. split; reflexivity. Qed.

(** The same for every item of one of the two types that STEP 1 lets
    through. *)
Lemma simplifyItem_unknown_leaf (failureMessages : gmap string string)
  (item : Shex.ReportItem) (parentNode parentShape : jstr)
  (failures : list (gmap string jstr)) :
  Shex.type item = Some "ExcessTripleViolation"
  ∨ Shex.type item = Some "NegatedProperty" →
  Validator.isSkipped item = false →
  Validator.simplifyItem failureMessages item parentNode parentShape failures
  = Throw (ShexValidationError
             ("Unknown failure type " +:+ toString (Shex.type item))).
Proof.
  intros Htype Hskip. destruct item as [ty pr nd sh un tr cx cd cs er].
  cbn [Validator.simplifyItem]. rewrite Hskip. cbn [Shex.type] in *.
  unfold Validator.isNested. cbn [Shex.type].
  destruct Htype as [-> | ->]; reflexivity.
Qed.

(** The sibling of the two: a MissingProperty item gives one failure. *)
Lemma simplify_emits_missing_property
  (failureMessages : gmap string string) (text : string)
  (parentNode parentShape : jstr) (failures : list (gmap string jstr)) :
  failureMessages !! "MissingProperty" = Some text →
  Validator.simplify failureMessages
    (Shex.Single (plainItem "MissingProperty" "http://schema.org/name"))
    parentNode parentShape failures
  = Ok (failures ++
          [<["message" :=
               Some (substitute
                       (Validator.newFailure
                          (plainItem "MissingProperty" "http://schema.org/name")
                          parentNode parentShape)
                       text)]>
             (Validator.newFailure
                (plainItem "MissingProperty" "http://schema.org/name")
                parentNode parentShape)]).
Proof.
  intros Htext. cbn [Validator.simplify Validator.simplifyItem plainItem].
  change (Validator.isSkipped _) with false. cbn iota.
  change (Validator.isNested _) with false. cbn iota.
  change (strictEq _ (Some "ClosedShapeViolation")) with false. cbn iota.
  change (strictEq _ (Some "TypeMismatch")) with false. cbn iota.
  change (strictEq _ Validator.missingCaseLabel) with true. cbn iota.
  unfold Validator.template. cbn [Shex.type toString]. rewrite Htext.
  reflexivity.
Qed.


Lemma copy_entries_other (entries : list (string * string))
  (failure : gmap string jstr) key :
  key ∉ entries.*1 ∨ includesChar "@" key = true →
  foldl (λ (failure : gmap string jstr) (entry : string * string),
           if negb (includesChar "@" entry.1)
           then <[entry.1 := Some entry.2]> failure else failure)
    failure entries !! key
  = failure !! key.
Proof.
  revert failure. induction entries as [|[k v] entries IH]; intros failure Hkey;
    cbn [foldl fst snd]; [done|].
  rewrite IH by (rewrite fmap_cons, not_elem_of_cons in Hkey; tauto).
  destruct (includesChar "@" k) eqn:Hat; cbn [negb]; [done|].
  apply lookup_insert_ne. intros ->.
  destruct Hkey as [Hkey|Hkey]; [|congruence]. apply Hkey. by left.
Qed.

(** C6, as amended: the lookup keyed by the label copies onto the failure
    every entry of the localized annotation whose key has no ['@'], and the
    value it copies replaces the one the failure had; a field of the failure
    keeps its value only when the localized annotation has no entry of that
    name. *)
Theorem addLocalizedAnnotations_copies_entries
  (this : Validator.ValidationReport) (failure : gmap string jstr)
  (id : string) :
  let entries := default [] (Validator.localizedAnnotations this !! id) in
  (∀ key, key ∉ entries.*1 ∨ includesChar "@" key = true →
     Validator.addLocalizedAnnotations this failure id !! key = failure !! key)
  ∧ (∀ l1 key val l2,
       entries = l1 ++ (key, val) :: l2 → key ∉ l2.*1 →
       includesChar "@" key = false →
       Validator.addLocalizedAnnotations this failure id !! key
       = Some (Some val)).
Proof.
  unfold Validator.addLocalizedAnnotations.
  destruct (Validator.localizedAnnotations this !! id) as [entries|]; simpl.
  - split.
    + intros key Hkey. by apply copy_entries_other.
    + intros l1 key val l2 -> Hl2 Hat.
      rewrite foldl_app. cbn [foldl fst snd]. rewrite Hat. cbn [negb].
      rewrite copy_entries_other by (by left). apply lookup_insert_eq.
  - split; [done|]. intros l1 key val l2 Heq. by destruct l1.
Qed.

Lemma addLocalizedAnnotations_copies_entries_witness :
  let entries :=
    default [] (Validator.localizedAnnotations exReport !! "name-label") in
  (∀ key, key ∉ entries.*1 ∨ includesChar "@" key = true →
     Validator.addLocalizedAnnotations exReport describedFailure "name-label" !! key
     = describedFailure !! key)
  ∧ (∀ l1 key val l2,
       entries = l1 ++ (key, val) :: l2 → key ∉ l2.*1 →
       includesChar "@" key = false →
       Validator.addLocalizedAnnotations exReport describedFailure "name-label" !! key
       = Some (Some val)).
Proof.
  apply (addLocalizedAnnotations_copies_entries exReport describedFailure "name-label").
Defined.

(** C6, as stated, fails: the description and the severity that the failure
    holds before [addLocalizedAnnotations] runs are replaced by those of the
    localized annotation, in the method itself and in the report. *)
Lemma localized_annotation_overwrites_fields :
  describedFailure !! "description" = Some (Some "Add a name")
  ∧ Validator.addLocalizedAnnotations exReport describedFailure "name-label"
      !! "description" = Some (Some "A localized text")
  ∧ describedFailure !! "severity" = Some (Some "error")
  ∧ Validator.addLocalizedAnnotations exReport describedFailure "name-label"
      !! "severity" = Some (Some "warning")
  ∧ match validateSchemaOrg (exEnv oneThing enAnnotations) ["doc"]
            "http://example.org/" with
    | Ok [f] => (getField f "description", getField f "severity")
    | _ => (None, None)
    end = (Some "A localized text", Some "warning").
Proof. split_and!; reflexivity. Qed.

(** *** formatString *)




End Claims.

(** * Further properties of the code *)

(** ** removeUrls, formatString and dummyUrl *)
Module TextProps.
Import JS Text TextFacts Utils.

(** *** removeUrls *)

Lemma length_str (l : list ascii) : String.length (str l) = List.length l.
Proof. unfold str. induction l as [|c l IH]; simpl; [done|]. by f_equal. Qed.

Lemma length_chars (s : string) : List.length (chars s) = String.length s.
Proof. by rewrite <- (str_chars s) at 2; rewrite length_str. Qed.

Lemma removeUrlsLoop_length fuel l :
  List.length (removeUrlsLoop fuel l) ≤ List.length l.
Proof.
  revert l. induction fuel as [|fuel IH]; intros l; simpl; [done|].
  destruct (hasUrl l); [|done].
  etrans; [apply IH|apply replaceUrls_length].
Qed.

(** X1: [removeUrls] ends on a text in which the URL pattern has no match,
    so applying it again changes nothing; the texts it leaves as they are
    are exactly those without a match, and it never makes a text longer. *)
Theorem removeUrls_reaches_fixed_point (text : string) :
  hasUrl (chars (removeUrls text)) = false
  ∧ removeUrls (removeUrls text) = removeUrls text
  ∧ (removeUrls text = text ↔ hasUrl (chars text) = false)
  ∧ String.length (removeUrls text) ≤ String.length text.
Proof.
  split_and!.
  - apply removeUrls_clean.
  - apply removeUrls_fixed, removeUrls_clean.
  - split; [|apply removeUrls_fixed].
    intros Heq. rewrite <- Heq. apply removeUrls_clean.
  - unfold removeUrls. rewrite length_str, <- length_chars.
    apply removeUrlsLoop_length.
Qed.

Lemma stripPrefix_app p l r : stripPrefix p l = Some r → l = p ++ r.
Proof.
  revert l. induction p as [|a p IH]; intros l H; simpl in *.
  - by injection H as ->.
  - destruct l as [|b l]; [done|].
    destruct (Ascii.eqb_spec a b) as [->|]; unfold isChar in H.
    + rewrite Ascii.eqb_refl in H. f_equal. by apply IH.
    + by rewrite (proj2 (Ascii.eqb_neq a b)) in H.
Qed.

Lemma isChar_eq c d : isChar c d = true ↔ c = d.
Proof. apply Ascii.eqb_eq. Qed.

(** The pattern needs a slash. *)
Lemma matchUrl_slash l after :
  matchUrl l = Some after → existsb (λ c, isChar c "/") l = true.
Proof.
  unfold matchUrl. intros H.
  destruct (stripPrefix (chars "https://") l) as [r|] eqn:H1.
  - apply stripPrefix_app in H1 as ->. reflexivity.
  - destruct (stripPrefix (chars "http://") l) as [r|] eqn:H2; [|done].
    apply stripPrefix_app in H2 as ->. reflexivity.
Qed.

Lemma hasUrl_slash l :
  existsb (λ c, isChar c "/") l = false → hasUrl l = false.
Proof.
  induction l as [|c l IH]; [done|]. intros H.
  cbn [hasUrl]. destruct (matchUrl (c :: l)) as [after|] eqn:Hm.
  - apply matchUrl_slash in Hm. congruence.
  - rewrite bool_decide_eq_false_2 by (by intros [? ?]).
    simpl in H. apply orb_false_iff in H as [_ H]. by apply IH.
Qed.

Lemma stripPrefix_exact p l : stripPrefix p (p ++ l) = Some l.
Proof.
  induction p as [|a p IH]; simpl; [done|].
  unfold isChar. by rewrite Ascii.eqb_refl.
Qed.

Lemma takeWhile_prefix {A} (p : A → bool) (a b : list A) :
  Forall (λ x, p x = true) a → ∃ t, takeWhile p (a ++ b) = a ++ t.
Proof. intros Ha. rewrite takeWhile_app by done. by eexists. Qed.

Lemma takeWhile_Forall_keep {A} (p q : A → bool) (l : list A) :
  Forall (λ x, q x = false) l → Forall (λ x, q x = false) (takeWhile p l).
Proof.
  induction 1 as [|x l Hx _ IH]; simpl; [constructor|].
  destruct (p x); by constructor.
Qed.

(** A match at the head of [scheme ++ host ++ sep :: name] ends at [sep]
    when [name] holds neither a slash nor a hash. *)
Lemma matchUrl_namespace (scheme host name : list ascii) (sep : ascii) :
  scheme = chars "https://" ∨ scheme = chars "http://" →
  host ≠ [] →
  Forall (λ c, isWhiteSpace c = false) host →
  isChar sep "/" || isChar sep "#" = true →
  Forall (λ c, isChar c "/" || isChar c "#" = false) name →
  matchUrl (scheme ++ host ++ sep :: name) = Some name.
Proof.
  intros Hscheme Hhost Hws Hsep Hname. unfold matchUrl.
  assert (match stripPrefix (chars "https://") (scheme ++ host ++ sep :: name) with
          | Some r => Some r
          | None => stripPrefix (chars "http://") (scheme ++ host ++ sep :: name)
          end = Some (host ++ sep :: name)) as ->.
  { destruct Hscheme as [-> | ->].
    - by rewrite stripPrefix_exact.
    - rewrite stripPrefix_exact.
      destruct (stripPrefix (chars "https://") _) as [r|] eqn:E; [|done].
      exfalso. apply stripPrefix_app in E. simpl in E. congruence. }
  assert (isWhiteSpace sep = false) as Hsepws.
  { apply orb_true_iff in Hsep as [->%isChar_eq | ->%isChar_eq]; reflexivity. }
  rewrite takeWhile_app by (eapply Forall_impl; [exact Hws|]; by intros c ->).
  destruct host as [|h host]; [done|]. cbn [app takeWhile].
  rewrite Hsepws. cbn [negb].
  rewrite lastIndexWhere_last; [| done |].
  - f_equal. change (h :: host ++ sep :: name) with ((h :: host) ++ sep :: name).
    apply (drop_past (h :: host) name sep).
  - by apply takeWhile_Forall_keep.
Qed.

Lemma replaceUrls_none fuel l :
  existsb (λ c, isChar c "/") l = false → replaceUrls fuel l = l.
Proof.
  revert l. induction fuel as [|fuel IH]; intros l H; [done|].
  destruct l as [|c l]; [done|]. cbn [replaceUrls].
  destruct (matchUrl (c :: l)) as [after|] eqn:Hm.
  - apply matchUrl_slash in Hm. congruence.
  - f_equal. apply IH. simpl in H. by apply orb_false_iff in H as [_ H].
Qed.

Lemma removeUrlsLoop_namespace (scheme host name : list ascii) (sep : ascii) fuel :
  scheme = chars "https://" ∨ scheme = chars "http://" →
  host ≠ [] →
  Forall (λ c, isWhiteSpace c = false) host →
  isChar sep "/" || isChar sep "#" = true →
  Forall (λ c, isChar c "/" || isChar c "#" = false) name →
  removeUrlsLoop (S (S fuel)) (scheme ++ host ++ sep :: name) = name.
Proof.
  intros Hscheme Hhost Hws Hsep Hname.
  pose proof (matchUrl_namespace scheme host name sep Hscheme Hhost Hws Hsep Hname) as Hm.
  assert (existsb (λ c, isChar c "/") name = false) as Hslash.
  { clear -Hname. induction Hname as [|c l Hc _ IH]; [done|]. simpl.
    apply orb_false_iff in Hc as [-> _]. done. }
  set (l := scheme ++ host ++ sep :: name) in *.
  assert (∃ c rest, l = c :: rest) as (c & rest & Hl).
  { unfold l. destruct Hscheme as [-> | ->]; by eexists _, _. }
  cbn [removeUrlsLoop]. rewrite Hl. cbn [hasUrl]. rewrite <- Hl, Hm.
  rewrite bool_decide_eq_true_2 by (by eexists). cbn [orb].
  rewrite Hl. cbn [List.length replaceUrls]. rewrite <- Hl, Hm.
  rewrite replaceUrls_none by done.
  by rewrite hasUrl_slash.
Qed.

Lemma removeUrls_strips_namespace (secure : bool) (host name : string)
  (sep : ascii) :
  host ≠ EmptyString →
  forallb (λ c, negb (isWhiteSpace c)) (chars host) = true →
  isChar sep "/" || isChar sep "#" = true →
  includesChar "/" name = false → includesChar "#" name = false →
  removeUrls
    (namespace ((if secure then "https://" else "http://") +:+ host
                +:+ String sep EmptyString) name)
  = name.
Proof.
  intros Hhost Hws Hsep Hslash Hhash. unfold removeUrls, namespace.
  rewrite !chars_app. change (chars (String sep EmptyString)) with [sep].
  rewrite <- !app_assoc. cbn [app].
  set (scheme := chars (if secure then "https://" else "http://")).
  assert (∃ n, S (List.length (scheme ++ chars host ++ sep :: chars name)) = S (S n))
    as [n ->].
  { rewrite length_app. unfold scheme. destruct secure; simpl; by eexists. }
  rewrite removeUrlsLoop_namespace.
  - apply str_chars.
  - unfold scheme. destruct secure; auto.
  - intros E. apply Hhost. by rewrite <- (str_chars host), E.
  - apply Forall_forall. intros c Hc.
    rewrite forallb_forall in Hws. apply list_elem_of_In, Hws in Hc.
    by apply negb_true_iff.
  - done.
  - apply forallb_Forall_false in Hslash, Hhash.
    rewrite Forall_forall in Hslash, Hhash. apply Forall_forall. intros c Hc.
    by rewrite (Hslash c Hc), (Hhash c Hc).
Qed.

(** X2: for an IRI made of a namespace ([http://] or [https://], a host part
    without white space, a closing slash or hash) and a local name that
    holds neither a slash nor a hash, [removeUrls] returns the local name. *)
Theorem removeUrls_keeps_local_name (secure : bool) (host name : string)
  (sep : ascii) :
  host ≠ EmptyString →
  forallb (λ c, negb (isWhiteSpace c)) (chars host) = true →
  isChar sep "/" || isChar sep "#" = true →
  includesChar "/" name = false → includesChar "#" name = false →
  removeUrls
    (namespace ((if secure then "https://" else "http://") +:+ host
                +:+ String sep EmptyString) name)
  = name.
Proof. apply removeUrls_strips_namespace. Qed.

Lemma removeUrls_keeps_local_name_witness :
  removeUrls (namespace ("http://" +:+ "schema.org" +:+ String "/" EmptyString) "Thing")
  = "Thing".
Proof.
  apply (removeUrls_keeps_local_name false "schema.org" "Thing" "/"); reflexivity || done.
Defined.

(** *** formatString *)

Lemma substitute_plain args (t : string) :
  includesChar "{" t = false → substitute args t = t.
Proof.
  intros H. unfold substitute.
  rewrite <- (app_nil_r (chars t)) at 2.
  rewrite replacePlaceholders_copy.
  - simpl. by rewrite app_nil_r, str_chars.
  - by apply forallb_Forall_false.
  - by rewrite app_nil_r.
Qed.

(** X3: a template with one placeholder, [pre{key}post] with no other brace
    on the line of the placeholder, is formatted by replacing the placeholder
    with the argument of that name: its text when it is a string, nothing
    when it is [undefined] or empty; when the arguments have no property of
    that name the placeholder stays as it is. *)
Theorem formatString_single_placeholder (args : gmap string jstr)
  (pre key post : string) :
  includesChar "{" pre = false →
  key ≠ EmptyString → singleLine key = true →
  includesChar "}" (firstLine post) = false →
  includesChar "{" post = false →
  formatString (Some (pre +:+ "{" +:+ key +:+ "}" +:+ post)) args
  = Ok (pre +:+ match args !! key with
                | Some (Some value) => value
                | Some None => EmptyString
                | None => "{" +:+ key +:+ "}"
                end +:+ post).
Proof.
  intros Hpre Hne Hline Hpost Hpost'. cbn [formatString]. f_equal.
  rewrite substitute_first_span by done.
  rewrite substitute_plain by done. f_equal. f_equal.
  unfold replacer. destruct (args !! key) as [[value|]|]; [|done..].
  unfold orEmpty, orElse. simpl. by destruct value.
Qed.

Lemma formatString_single_placeholder_witness :
  formatString (Some ("Property " +:+ "{" +:+ "property" +:+ "}" +:+ " not found"))
    {[ "property" := Some "name" ]}
  = Ok ("Property " +:+ match ({[ "property" := Some "name" ]} : gmap string jstr)
                                !! "property" with
                        | Some (Some value) => value
                        | Some None => EmptyString
                        | None => "{" +:+ "property" +:+ "}"
                        end +:+ " not found").
Proof.
  apply (formatString_single_placeholder {[ "property" := Some "name" ]}
           "Property " "property" " not found"); reflexivity || done.
Defined.

(** X4: a template without an opening brace is returned as it is, whatever
    the arguments; an [undefined] template is a TypeError. *)
Theorem formatString_without_placeholder (args : gmap string jstr) (t : string) :
  (includesChar "{" t = false → formatString (Some t) args = Ok t)
  ∧ ∃ msg, formatString None args = Throw (TypeError msg).
Proof.
  split; [|by eexists].
  intros H. cbn [formatString]. f_equal. by apply substitute_plain.
Qed.

(** *** dummyUrl *)

Lemma get_lookup (s : string) (i : nat) : String.get i s = chars s !! i.
Proof.
  revert i. induction s as [|c s IH]; intros i; [by destruct i|].
  destruct i as [|i]; [done|]. simpl. apply IH.
Qed.

Lemma charAt_in_range (s : string) (i : nat) :
  i < String.length s →
  ∃ c, Url.charAt s i = String c EmptyString ∧ c ∈ chars s.
Proof.
  intros Hi. unfold Url.charAt. rewrite get_lookup.
  destruct (chars s !! i) as [c|] eqn:Hc.
  - exists c. split; [done|]. by eapply list_elem_of_lookup_2.
  - apply lookup_ge_None in Hc. rewrite length_chars in Hc. lia.
Qed.

Lemma dummyUrl_loop random (result : string) (rounds : list nat) :
  (∀ i, random i < 62) →
  ∃ suffix,
    foldl (λ result i, result +:+ Url.charAt Url.characters (random i)) result rounds
    = result +:+ suffix
    ∧ String.length suffix = List.length rounds
    ∧ Forall (λ c, c ∈ chars Url.characters) (chars suffix).
Proof.
  intros Hrandom. revert result.
  induction rounds as [|i rounds IH]; intros result; cbn [foldl].
  - exists EmptyString. split_and!; [|done|constructor].
    by rewrite <- (str_chars (result +:+ EmptyString)), chars_app, app_nil_r, str_chars.
  - destruct (charAt_in_range Url.characters (random i)) as (c & -> & Hc);
      [apply Hrandom|].
    destruct (IH (result +:+ String c EmptyString)) as (suffix & -> & Hlen & Hall).
    exists (String c suffix). split_and!.
    + rewrite <- (str_chars (_ +:+ suffix)), <- (str_chars (result +:+ String c suffix)).
      f_equal. rewrite !chars_app. change (chars (String c EmptyString)) with [c].
      change (chars (String c suffix)) with (c :: chars suffix).
      by rewrite <- app_assoc.
    + simpl. by rewrite Hlen.
    + by constructor.
Qed.

(** X25: with every random index in range, [dummyUrl(length)] is
    [https://example.org/] followed by exactly [length] letters or digits;
    [removeUrls] strips it down to that random part. *)
Theorem dummyUrl_format (random : nat → nat) (length : nat) :
  (∀ i, random i < 62) →
  ∃ suffix,
    Url.dummyUrl random length = "https://example.org/" +:+ suffix
    ∧ String.length suffix = length
    ∧ Forall (λ c, c ∈ chars Url.characters) (chars suffix)
    ∧ removeUrls (Url.dummyUrl random length) = suffix.
Proof.
  intros Hrandom. unfold Url.dummyUrl.
  destruct (dummyUrl_loop random "https://example.org/" (List.seq 0 length) Hrandom)
    as (suffix & -> & Hlen & Hall).
  exists suffix. rewrite length_seq in Hlen. split_and!; [done..|].
  assert (Forall (λ c, isChar c "/" = false ∧ isChar c "#" = false) (chars suffix))
    as Hplain.
  { eapply Forall_impl; [exact Hall|]. intros c Hc.
    assert (Forall (λ c, isChar c "/" = false ∧ isChar c "#" = false)
              (chars Url.characters)) as Hchars by (repeat constructor).
    rewrite Forall_forall in Hchars. by apply Hchars. }
  apply (removeUrls_strips_namespace true "example.org" suffix "/");
    [done|done|done| |].
  - unfold includesChar. generalize (chars suffix) Hplain. clear.
    induction 1 as [|c l [Hc _] _ IH]; [done|]. simpl. by rewrite Hc.
  - unfold includesChar. generalize (chars suffix) Hplain. clear.
    induction 1 as [|c l [_ Hc] _ IH]; [done|]. simpl. by rewrite Hc.
Qed.

Lemma dummyUrl_format_witness :
  ∃ suffix,
    Url.dummyUrl (λ i, Nat.modulo i 62) 16 = "https://example.org/" +:+ suffix
    ∧ String.length suffix = 16
    ∧ Forall (λ c, c ∈ chars Url.characters) (chars suffix)
    ∧ removeUrls (Url.dummyUrl (λ i, Nat.modulo i 62) 16) = suffix.
Proof.
  apply (dummyUrl_format (λ i, Nat.modulo i 62) 16).
  intros i. apply Nat.mod_upper_bound. lia.
Defined.

End TextProps.

(** ** uniqueBy *)
Module UniqueByProps.
Import JS Utils Report ReportFacts.

Lemma uniqueByFrom_again seen keys items out :
  uniqueByFrom seen keys items = Ok out → uniqueByFrom seen keys out = Ok out.
Proof.
  revert seen out. induction items as [|item rest IH]; intros seen out Hrun.
  - by injection Hrun as <-.
  - cbn [uniqueByFrom] in Hrun.
    case_bool_decide as Hbad; [done|].
    case_bool_decide as Hseen; [by apply IH|].
    destruct (uniqueByFrom (markSeen seen (uniqueKey keys item)) keys rest)
      as [kept|] eqn:Hrest; [|done].
    injection Hrun as <-. cbn [uniqueByFrom].
    rewrite bool_decide_eq_false_2 by done.
    rewrite bool_decide_eq_false_2 by done.
    by rewrite (IH _ _ Hrest).
Qed.

(** X5: [uniqueBy] is idempotent: run on its own result with the same keys,
    it returns that result unchanged. *)
Theorem uniqueBy_idempotent (items out : list (gmap string jstr))
  (keys : list string) :
  uniqueBy items keys = Ok out → uniqueBy out keys = Ok out.
Proof. apply uniqueByFrom_again. Qed.

Lemma uniqueBy_idempotent_witness :
  uniqueBy [{[ "property" := Some "name" ]}] ["property"]
  = Ok [{[ "property" := Some "name" ]}].
Proof.
  apply (uniqueBy_idempotent
           [{[ "property" := Some "name" ]}; {[ "property" := Some "name" ]}]
           [{[ "property" := Some "name" ]}] ["property"]).
  reflexivity.
Defined.

Lemma uniqueByFrom_all_seen seen keys items :
  "hasOwnProperty" ∉ seen →
  Forall (λ item, uniqueKey keys item ∈ seen) items →
  uniqueByFrom seen keys items = Ok [].
Proof.
  intros Hseen. induction 1 as [|item rest Hitem _ IH]; [done|].
  cbn [uniqueByFrom]. rewrite bool_decide_eq_false_2 by done.
  by rewrite bool_decide_eq_true_2.
Qed.

(** X6: with an empty list of keys every item has the same (empty) key, so
    [uniqueBy] keeps the first item and drops all the others; of an empty
    array it returns the empty array. *)
Theorem uniqueBy_without_keys (item : gmap string jstr)
  (rest : list (gmap string jstr)) (keys : list string) :
  uniqueBy (item :: rest) [] = Ok [item] ∧ uniqueBy [] keys = Ok [].
Proof.
  split; [|done]. unfold uniqueBy. cbn [uniqueByFrom].
  rewrite bool_decide_eq_false_2 by set_solver.
  rewrite bool_decide_eq_false_2 by set_solver.
  rewrite uniqueByFrom_all_seen; [done| |].
  - unfold markSeen. simpl. set_solver.
  - apply Forall_forall. intros x _. unfold markSeen. simpl. set_solver.
Qed.

Lemma uniqueByFrom_poisoned seen keys item rest :
  "hasOwnProperty" ∈ seen →
  uniqueByFrom seen keys (item :: rest)
  = Throw (TypeError "seen.hasOwnProperty is not a function").
Proof. intros H. cbn [uniqueByFrom]. by rewrite bool_decide_eq_true_2. Qed.

Lemma uniqueByFrom_hasOwnProperty seen keys before item next after :
  uniqueKey keys item = "hasOwnProperty" →
  uniqueByFrom seen keys (before ++ item :: next :: after)
  = Throw (TypeError "seen.hasOwnProperty is not a function").
Proof.
  intros Hkey. revert seen. induction before as [|x before IH]; intros seen.
  - destruct (decide ("hasOwnProperty" ∈ seen)) as [Hin|Hout].
    { by apply uniqueByFrom_poisoned. }
    cbn [app uniqueByFrom]. rewrite bool_decide_eq_false_2 by done.
    rewrite Hkey. rewrite bool_decide_eq_false_2 by done.
    rewrite bool_decide_eq_true_2; [done|].
    unfold markSeen. simpl. set_solver.
  - destruct (decide ("hasOwnProperty" ∈ seen)) as [Hin|Hout].
    { by apply uniqueByFrom_poisoned. }
    cbn [app uniqueByFrom]. rewrite bool_decide_eq_false_2 by done.
    case_bool_decide; [apply IH|]. by rewrite IH.
Qed.

(** X7: the object [seen] holds the keys as own properties, so an item whose
    key reads ["hasOwnProperty"] replaces the method that the filter calls:
    when such an item is followed by any other item, [uniqueBy] ends with a
    TypeError. *)
Theorem uniqueBy_hasOwnProperty_key_throws (keys : list string)
  (before after : list (gmap string jstr)) (item next : gmap string jstr) :
  uniqueKey keys item = "hasOwnProperty" →
  uniqueBy (before ++ item :: next :: after) keys
  = Throw (TypeError "seen.hasOwnProperty is not a function").
Proof. apply uniqueByFrom_hasOwnProperty. Qed.

Lemma uniqueBy_hasOwnProperty_key_throws_witness :
  uniqueBy ([] ++ {[ "property" := Some "hasOwnProperty" ]}
               :: {[ "property" := Some "name" ]} :: []) ["property"]
  = Throw (TypeError "seen.hasOwnProperty is not a function").
Proof.
  apply (uniqueBy_hasOwnProperty_key_throws ["property"] [] []
           {[ "property" := Some "hasOwnProperty" ]} {[ "property" := Some "name" ]}).
  reflexivity.
Defined.

Lemma uniqueByFrom_proto seen keys items :
  "hasOwnProperty" ∉ seen → "__proto__" ∉ seen →
  Forall (λ item, uniqueKey keys item = "__proto__") items →
  uniqueByFrom seen keys items = Ok items.
Proof.
  intros Hown Hproto. induction 1 as [|item rest Hitem _ IH]; [done|].
  cbn [uniqueByFrom]. rewrite bool_decide_eq_false_2 by done.
  rewrite Hitem. rewrite bool_decide_eq_false_2 by done.
  unfold markSeen. simpl. by rewrite IH.
Qed.

(** X8: an assignment to the property ["__proto__"] of [seen] records
    nothing, so items whose key reads ["__proto__"] are never recognised as
    duplicates: all of them are kept. *)
Theorem uniqueBy_proto_key_is_kept (keys : list string)
  (items : list (gmap string jstr)) :
  Forall (λ item, uniqueKey keys item = "__proto__") items →
  uniqueBy items keys = Ok items.
Proof. apply uniqueByFrom_proto; set_solver. Qed.

Lemma uniqueBy_proto_key_is_kept_witness :
  uniqueBy [{[ "property" := Some "__proto__" ]}; {[ "property" := Some "__proto__" ]}]
    ["property"]
  = Ok [{[ "property" := Some "__proto__" ]}; {[ "property" := Some "__proto__" ]}].
Proof.
  apply (uniqueBy_proto_key_is_kept ["property"]
           [{[ "property" := Some "__proto__" ]}; {[ "property" := Some "__proto__" ]}]).
  repeat constructor.
Defined.

End UniqueByProps.

(** ** validator.js *)
Module ValidatorProps.
Import JS Text Utils Shex Validator Notions.

(** *** removeMissingIfTypeMismatch *)

Lemma removeFirst_sublist {A} (p : A → bool) (l : list A) :
  sublist (removeFirst p l) l.
Proof.
  induction l as [|x l IH]; simpl; [constructor|].
  destruct (p x); [by apply sublist_cons|by apply sublist_skip].
Qed.

Lemma removeFirst_filter_other {A} (p r : A → bool) (l : list A) :
  (∀ x, p x = true → r x = false) →
  List.filter r (removeFirst p l) = List.filter r l.
Proof.
  intros H. induction l as [|x l IH]; simpl; [done|].
  destruct (p x) eqn:Hp.
  - by rewrite (H x Hp).
  - simpl. by rewrite IH.
Qed.

Lemma removeFirst_count_same {A} (p r : A → bool) (l : list A) :
  (∀ x, p x = r x) → count r (removeFirst p l) = count r l - 1.
Proof.
  intros H. unfold count. induction l as [|x l IH]; simpl; [done|].
  rewrite <- (H x). destruct (p x) eqn:Hp; simpl; [lia|].
  by rewrite <- (H x), Hp.
Qed.

Lemma filter_filter_and {A} (p q : A → bool) (l : list A) :
  List.filter p (List.filter q l) = List.filter (λ x, p x && q x) l.
Proof.
  induction l as [|x l IH]; simpl; [done|].
  destruct (q x); simpl; [|by rewrite andb_false_r].
  rewrite andb_true_r. destruct (p x); by rewrite IH.
Qed.

Lemma dropMissing_count p acc tm :
  count (isFailure "MissingProperty" p) (dropMissing acc tm)
  = count (isFailure "MissingProperty" p) acc
    - (if strictEq (getField tm "property") p then 1 else 0).
Proof.
  unfold dropMissing. destruct (strictEq (getField tm "property") p) eqn:Hp.
  - apply bool_decide_eq_true in Hp as <-. by apply removeFirst_count_same.
  - unfold count. rewrite removeFirst_filter_other; [lia|].
    intros x [Hx _]%andb_true_iff. apply bool_decide_eq_true in Hx.
    apply bool_decide_eq_false in Hp. unfold isFailure, strictEq.
    rewrite bool_decide_eq_false_2; [done|congruence].
Qed.

Lemma foldl_dropMissing_count p tms acc :
  count (isFailure "MissingProperty" p) (foldl dropMissing acc tms)
  = count (isFailure "MissingProperty" p) acc
    - count (λ tm, strictEq (getField tm "property") p) tms.
Proof.
  revert acc. induction tms as [|tm tms IH]; intros acc; simpl; [unfold count; simpl; lia|].
  rewrite IH, dropMissing_count. unfold count. simpl.
  destruct (strictEq (getField tm "property") p); simpl; lia.
Qed.

Lemma foldl_dropMissing_sublist tms acc : sublist (foldl dropMissing acc tms) acc.
Proof.
  revert acc. induction tms as [|tm tms IH]; intros acc; simpl; [done|].
  etrans; [apply IH|apply removeFirst_sublist].
Qed.

Lemma foldl_dropMissing_others tms acc :
  List.filter (λ x, negb (hasType "MissingProperty" x)) (foldl dropMissing acc tms)
  = List.filter (λ x, negb (hasType "MissingProperty" x)) acc.
Proof.
  revert acc. induction tms as [|tm tms IH]; intros acc; simpl; [done|].
  rewrite IH. apply removeFirst_filter_other.
  intros x [_ Hx]%andb_true_iff. unfold hasType. by rewrite Hx.
Qed.

(** X9: [removeMissingIfTypeMismatch] only removes MissingProperty
    failures, and for every property it removes as many of them as there are
    TypeMismatch failures on that property, as far as there are any: the
    other failures stay, in their order. *)
Theorem removeMissingIfTypeMismatch_counts (failures : list (gmap string jstr)) :
  sublist (removeMissingIfTypeMismatch failures) failures
  ∧ List.filter (λ x, negb (hasType "MissingProperty" x))
      (removeMissingIfTypeMismatch failures)
    = List.filter (λ x, negb (hasType "MissingProperty" x)) failures
  ∧ ∀ p : jstr,
      count (isFailure "MissingProperty" p) (removeMissingIfTypeMismatch failures)
      = count (isFailure "MissingProperty" p) failures
        - count (isFailure "TypeMismatch" p) failures.
Proof.
  unfold removeMissingIfTypeMismatch. fold dropMissing. split_and!.
  - apply foldl_dropMissing_sublist.
  - apply foldl_dropMissing_others.
  - intros p. rewrite foldl_dropMissing_count. f_equal.
    unfold count. by rewrite filter_filter_and.
Qed.

(** *** getShapeCore *)

Lemma Shape_ind_nested (P : Shape → Prop) :
  (∀ ty i e, P (mkShape ty i e None)) →
  (∀ ty i e exprs, Forall P exprs → P (mkShape ty i e (Some exprs))) →
  ∀ s, P s.
Proof.
  intros Hleaf Hstep. fix IH 1. intros [ty i e [exprs|]]; [|apply Hleaf].
  apply Hstep. induction exprs as [|c cs IHcs]; constructor; [apply IH|apply IHcs].
Qed.

Lemma getShapeCore_unfold node :
  getShapeCore node
  = if String.eqb (shapeType node) "Shape" then Some node
    else match shapeExprs node with
         | Some exprs => firstCore exprs
         | None => None
         end.
Proof.
  destruct node as [ty i e [exprs|]]; cbn [getShapeCore shapeType shapeExprs]; [|done].
  destruct (String.eqb ty "Shape"); [done|].
  induction exprs as [|c cs IH]; [done|]. cbn [firstCore].
  destruct (getShapeCore c); [done|apply IH].
Qed.

Lemma firstCore_Some l core :
  firstCore l = Some core → ∃ e, e ∈ l ∧ getShapeCore e = Some core.
Proof.
  induction l as [|c l IH]; [done|]. cbn [firstCore].
  destruct (getShapeCore c) as [core'|] eqn:Hc.
  - intros [= ->]. exists c. split; [by left|done].
  - intros (e & He & Hcore)%IH. exists e. split; [by right|done].
Qed.

Lemma firstCore_None l :
  firstCore l = None ↔ ∀ e, e ∈ l → getShapeCore e = None.
Proof.
  induction l as [|c l IH]; cbn [firstCore].
  - split; [|done]. by intros _ e ?%elem_of_nil.
  - destruct (getShapeCore c) as [core'|] eqn:Hc.
    + split; [done|]. intros H. specialize (H c). rewrite Hc in H.
      apply H. by left.
    + rewrite IH. split.
      * intros H e [->|He]%elem_of_cons; auto.
      * intros H e He. apply H. by right.
Qed.

Lemma getShapeCore_found node core :
  getShapeCore node = Some core →
  nestedIn node core ∧ shapeType core = "Shape" ∧ getShapeCore core = Some core.
Proof.
  revert core. induction node as [ty i e|ty i e exprs IH] using Shape_ind_nested;
    intros core; rewrite getShapeCore_unfold; cbn [shapeType shapeExprs];
    destruct (String.eqb_spec ty "Shape") as [->|Hne]; try done.
  - intros [= <-]. split_and!; [constructor|done|done].
  - intros [= <-]. split_and!; [constructor|done|].
    by rewrite getShapeCore_unfold.
  - intros (c & Hc & Hcore)%firstCore_Some.
    rewrite Forall_forall in IH.
    destruct (IH c Hc core Hcore) as (Hnest & Hty & Hfix).
    split_and!; [|done..]. by eapply nestedIn_expr.
Qed.

Lemma getShapeCore_none node d :
  getShapeCore node = None → nestedIn node d → shapeType d ≠ "Shape".
Proof.
  intros Hnone Hnest. induction Hnest as [s|s exprs e d Hexprs He _ IH].
  - rewrite getShapeCore_unfold in Hnone.
    by destruct (String.eqb_spec (shapeType s) "Shape").
  - apply IH. rewrite getShapeCore_unfold, Hexprs in Hnone.
    destruct (String.eqb (shapeType s) "Shape"); [done|].
    by apply (proj1 (firstCore_None exprs)).
Qed.

(** X10: the core that [getShapeCore] finds for a shape expression is a
    node of type ['Shape'] that is the expression itself or lies below it
    along [shapeExprs], and it is its own core; there is no core exactly
    when no such node has type ['Shape']. *)
Theorem getShapeCore_finds_a_shape (node : Shape) :
  (∀ core, getShapeCore node = Some core →
     nestedIn node core ∧ shapeType core = "Shape"
     ∧ getShapeCore core = Some core)
  ∧ (getShapeCore node = None ↔
     ∀ d, nestedIn node d → shapeType d ≠ "Shape").
Proof.
  split; [apply getShapeCore_found|]. split.
  - intros Hnone d. by apply getShapeCore_none.
  - intros Hall. destruct (getShapeCore node) as [core|] eqn:Hcore; [|done].
    apply getShapeCore_found in Hcore as (Hnest & Hty & _).
    by destruct (Hall core Hnest).
Qed.

(** *** simplify *)

Lemma ReportItem_ind_nested (P : ReportItem → Prop) :
  (∀ ty pr nd sh un tr cx cd cs errs,
     Forall P errs → P (mkReportItem ty pr nd sh un tr cx cd cs errs)) →
  ∀ r, P r.
Proof.
  intros Hstep. fix IH 1. intros [ty pr nd sh un tr cx cd cs errs].
  apply Hstep. induction errs as [|e errs IHerrs]; constructor; [apply IH|apply IHerrs].
Qed.

Lemma extends_refl failures : extends failures (Ok failures).
Proof. exists []. by rewrite app_nil_r. Qed.

Lemma extends_push failures f : emitted f → extends failures (Ok (failures ++ [f])).
Proof. intros Hf. exists [f]. split; [done|]. by constructor. Qed.

Lemma extends_trans failures mid r :
  extends failures (Ok mid) → extends mid r → extends failures r.
Proof.
  intros (new1 & -> & H1). destruct r as [out|e]; [|done].
  intros (new2 & -> & H2). exists (new1 ++ new2).
  split; [by rewrite app_assoc|by apply Forall_app].
Qed.

Lemma forM_extends {A} (body : list (gmap string jstr) → A →
                               Result (list (gmap string jstr))) l failures :
  (∀ a, a ∈ l → ∀ fs, extends fs (body fs a)) →
  extends failures (forM body l failures).
Proof.
  revert failures. induction l as [|a l IH]; intros failures H; cbn [forM].
  - apply extends_refl.
  - pose proof (H a (list_elem_of_here _ _) failures) as Ha.
    destruct (body failures a) as [mid|e]; [|done]. cbn [bind].
    apply (extends_trans failures mid); [done|].
    apply IH. intros b Hb. apply H. by right.
Qed.

Lemma formatString_error s args e :
  formatString s args = Throw e → simplifierError e.
Proof. destruct s; [done|]. intros [= <-]. right. by eexists. Qed.

Lemma orElse_default_is_Some a s : is_Some (orElse a (Some s)).
Proof. unfold orElse. destruct a as [t|]; simpl; [|done]. by destruct (String.eqb t EmptyString). Qed.

Lemma getField_insert_eq (f : gmap string jstr) k v : getField (<[k := v]> f) k = v.
Proof. unfold getField. by rewrite lookup_insert_eq. Qed.

Lemma getField_insert_ne (f : gmap string jstr) k k' v :
  k ≠ k' → getField (<[k := v]> f) k' = getField f k'.
Proof. intros. unfold getField. by rewrite lookup_insert_ne. Qed.

Lemma newFailure_emitted r pn ps message :
  isSkipped r = false →
  type r ∈ [Some "TypeMismatch"; Some "MissingProperty"; Some "BooleanSemActFailure"] →
  emitted (<["message" := Some message]> (newFailure r pn ps)).
Proof.
  intros Hskip Hty. unfold newFailure.
  unfold emitted. rewrite getField_insert_eq.
  repeat (rewrite getField_insert_ne by done || rewrite getField_insert_eq).
  split_and!; [set_solver|done|done|apply orElse_default_is_Some|].
  intros _. unfold isSkipped in Hskip.
  repeat (apply orb_false_iff in Hskip as [Hskip ?]).
  unfold orElse. destruct (truthy (property r)).
  - by apply bool_decide_eq_false in H3.
  - destruct (constraint r) as [p|]; simpl; [|done].
    by apply bool_decide_eq_false in H2.
Qed.

Lemma closedFailure_emitted r predicate message pn ps :
  strictEq (type r) (Some "ClosedShapeViolation") = true →
  emitted (closedFailure r predicate message pn ps).
Proof.
  intros Hty%bool_decide_eq_true. unfold closedFailure, emitted.
  repeat (rewrite getField_insert_ne by done || rewrite getField_insert_eq).
  rewrite Hty. split_and!; [set_solver|done|done|apply orElse_default_is_Some|done].
Qed.

Lemma simplifyItem_extends failureMessages item :
  ∀ parentNode parentShape failures,
    extends failures
      (simplifyItem failureMessages item parentNode parentShape failures).
Proof.
  induction item as [ty pr nd sh un tr cx cd cs errs IH] using ReportItem_ind_nested.
  intros pn ps failures. rewrite Forall_forall in IH.
  cbn [simplifyItem].
  set (r := mkReportItem ty pr nd sh un tr cx cd cs errs) in *.
  destruct (isSkipped r) eqn:Hskip; [apply extends_refl|].
  destruct (isNested r) eqn:Hnest.
  { apply forM_extends. intros a Ha fs. by apply IH. }
  destruct (strictEq (type r) (Some "ClosedShapeViolation")) eqn:Hclosed.
  { destruct un as [triples|]; [|apply extends_refl].
    apply forM_extends. intros predicate _ fs.
    destruct (formatString _ _) as [message|e] eqn:Hfmt;
      [|by apply formatString_error in Hfmt].
    cbn [mbind Result_bind bind]. by apply extends_push, closedFailure_emitted. }
  destruct (strictEq (type r) (Some "TypeMismatch")) eqn:Htm.
  { apply bool_decide_eq_true in Htm.
    destruct (formatString _ _) as [message|e] eqn:Hfmt;
      [|by apply formatString_error in Hfmt].
    cbn [mbind Result_bind bind].
    match goal with |- context [forM ?body errs failures] =>
      pose proof (forM_extends body errs failures) as Hloop;
      destruct (forM body errs failures) as [mid|e] end.
    - cbn [bind]. eapply extends_trans.
      + apply Hloop. intros a Ha fs. by apply IH.
      + apply extends_push, newFailure_emitted; [done|]. rewrite Htm. set_solver.
    - apply Hloop. intros a Ha fs. by apply IH. }
  destruct (strictEq (type r) missingCaseLabel) eqn:Hmp.
  { apply bool_decide_eq_true in Hmp.
    destruct (formatString _ _) as [message|e] eqn:Hfmt;
      [|by apply formatString_error in Hfmt].
    cbn [mbind Result_bind bind].
    apply extends_push, newFailure_emitted; [done|]. rewrite Hmp.
    change missingCaseLabel with (Some "MissingProperty"). set_solver. }
  destruct (strictEq (type r) (Some "BooleanSemActFailure")) eqn:Hsem.
  { apply bool_decide_eq_true in Hsem.
    destruct (negb (truthy (mjoin (ctx r)))); [apply extends_refl|].
    destruct (formatString _ _) as [message|e] eqn:Hfmt;
      [|by apply formatString_error in Hfmt].
    cbn [mbind Result_bind bind].
    apply extends_push, newFailure_emitted; [done|]. rewrite Hsem. set_solver. }
  left. by eexists.
Qed.

Lemma simplify_extends failureMessages jsonReport parentNode parentShape failures :
  extends failures
    (simplify failureMessages jsonReport parentNode parentShape failures).
Proof.
  destruct jsonReport as [item|items]; cbn [simplify].
  - apply simplifyItem_extends.
  - apply forM_extends. intros a _ fs. apply simplifyItem_extends.
Qed.

Lemma removeMissingIfTypeMismatch_sublist failures :
  sublist (removeMissingIfTypeMismatch failures) failures.
Proof.
  unfold removeMissingIfTypeMismatch. fold dropMissing.
  apply foldl_dropMissing_sublist.
Qed.

(** X11: whatever the failure tree and the messages table, [simplify] only
    adds to the failures it started with; every failure it adds has one of
    the types TypeMismatch, MissingProperty, BooleanSemActFailure and
    ClosedShapeViolation, severity [error], a message and a node, and only a
    ClosedShapeViolation can be about the property rdf:type. When it does
    not return, the error is a ShexValidationError or a TypeError. *)
Theorem simplify_only_adds_failures (failureMessages : gmap string string)
  (jsonReport : Report) (parentNode parentShape : jstr)
  (failures : list (gmap string jstr)) :
  match simplify failureMessages jsonReport parentNode parentShape failures with
  | Ok out => ∃ new, out = failures ++ new ∧ Forall emitted new
  | Throw e => (∃ msg, e = ShexValidationError msg) ∨ (∃ msg, e = TypeError msg)
  end.
Proof. apply simplify_extends. Qed.

(** *** validate *)

Lemma insert_string_keeps (f : gmap string jstr) k k' s :
  is_Some (getField f k) → is_Some (getField (<[k' := Some s]> f) k).
Proof.
  intros H. destruct (decide (k' = k)) as [->|Hne].
  - by rewrite getField_insert_eq.
  - by rewrite getField_insert_ne.
Qed.

Lemma truthy_string v : truthy v = true → ∃ s, v = Some s.
Proof. destruct v; [by eexists|done]. Qed.

Lemma annotate_keeps (shapeAnnotations : gmap string string)
  (keys : list (string * string)) (failure : gmap string jstr) k :
  is_Some (getField failure k) →
  is_Some
    (getField
       (foldl
          (λ (failure : gmap string jstr) (entry : string * string),
             let annotation :=
               orElse (shapeAnnotations !! entry.2) (getField failure entry.1) in
             if truthy annotation then <[entry.1 := annotation]> failure
             else failure)
          failure keys) k).
Proof.
  revert failure. induction keys as [|entry keys IH]; intros failure H; [done|].
  cbn [foldl]. apply IH. cbn zeta.
  destruct (truthy (orElse _ _)) eqn:Ht; [|done].
  apply truthy_string in Ht as [s ->]. by apply insert_string_keeps.
Qed.

Lemma addLocalizedAnnotations_keeps this (failure : gmap string jstr) id k :
  is_Some (getField failure k) →
  is_Some (getField (addLocalizedAnnotations this failure id) k).
Proof.
  unfold addLocalizedAnnotations.
  destruct (localizedAnnotations this !! id) as [entries|]; [|done].
  revert failure. induction entries as [|entry entries IH]; intros failure H; [done|].
  cbn [foldl]. apply IH.
  destruct (negb (includesChar "@" entry.1)); [|done].
  by apply insert_string_keeps.
Qed.

Lemma toStructuredDataFailure_displayable this err :
  is_Some (getField err "message") → is_Some (getField err "node") →
  displayable (toStructuredDataFailure this err).
Proof.
  intros Hmsg Hnode. unfold toStructuredDataFailure.
  set (base := <["property" := getField err "property"]> _).
  assert (∀ k, k ∈ ["severity"; "message"; "node"] → is_Some (getField base k))
    as Hbase.
  { intros k Hk. unfold base.
    repeat (apply elem_of_cons in Hk as [->|Hk]);
      [| | |by apply elem_of_nil in Hk];
      repeat (rewrite getField_insert_ne by done || rewrite getField_insert_eq); done. }
  cbn zeta.
  match goal with |- displayable (<["severityLabel" := _]> ?mid) =>
    assert (∀ k, k ∈ ["severity"; "message"; "node"] → is_Some (getField mid k))
      as Hmid end.
  { intros k Hk. destruct (annotationKeys this) as [keys|]; [|by apply Hbase].
    destruct (truthy (getField err "shape") && truthy (getField err "property"));
      [|by apply Hbase].
    destruct (getAnnotations this _ _ !! rdfs "label").
    - apply addLocalizedAnnotations_keeps, annotate_keeps. by apply Hbase.
    - apply annotate_keeps. by apply Hbase. }
  unfold displayable. rewrite !getField_insert_ne by done.
  split_and!; apply Hmid; set_solver.
Qed.

Lemma sublist_member {A} (l k : list A) x : sublist l k → x ∈ l → x ∈ k.
Proof.
  induction 1 as [|y l k _ IH|y l k _ IH]; [done| |].
  - intros [->|Hx]%elem_of_cons; [by left|right; auto].
  - intros Hx. right. auto.
Qed.

Lemma validate_outcome this data shape_ baseUrl :
  match validate this data shape_ baseUrl with
  | Ok failures => Forall displayable failures
  | Throw e => simplifierError e
  end.
Proof.
  unfold validate, newValidationReport.
  pose proof (simplify_extends
                (failureTypes (messages (vLocalization this)))
                (shexValidate this (vShapes this) data
                   (toString (orElse baseUrl (Some (dummyUrl this)))) shape_)
                None None []) as Hs.
  destruct (simplify _ _ _ _ _) as [simplified|e]; [|done].
  cbn [mbind Result_bind bind]. unfold toStructuredDataReport.
  cbn [Validator.failures]. destruct Hs as (new & -> & Hnew).
  apply Forall_forall. intros f (err & -> & Herr)%list_elem_of_fmap.
  apply (sublist_member _ _ _ (removeMissingIfTypeMismatch_sublist _)) in Herr.
  rewrite Forall_forall in Hnew. destruct (Hnew err Herr) as (_ & _ & ? & ? & _).
  by apply toStructuredDataFailure_displayable.
Qed.


(** *** The annotations of a failure *)

Lemma annotate_other (shapeAnnotations : gmap string string)
  (keys : list (string * string)) (failure : gmap string jstr) key :
  key ∉ keys.*1 →
  getField
    (foldl
       (λ (failure : gmap string jstr) (entry : string * string),
          let annotation :=
            orElse (shapeAnnotations !! entry.2) (getField failure entry.1) in
          if truthy annotation then <[entry.1 := annotation]> failure
          else failure)
       failure keys) key
  = getField failure key.
Proof.
  revert failure. induction keys as [|entry keys IH]; intros failure Hkey; [done|].
  rewrite fmap_cons, not_elem_of_cons in Hkey. destruct Hkey as [Hne Hkey].
  cbn [foldl]. rewrite IH by done. cbn zeta.
  destruct (truthy (orElse _ _)); [|done]. by rewrite getField_insert_ne.
Qed.

Lemma annotate_unannotated (shapeAnnotations : gmap string string)
  (keys : list (string * string)) (failure : gmap string jstr) key :
  (∀ iri, (key, iri) ∈ keys → shapeAnnotations !! iri = None) →
  getField
    (foldl
       (λ (failure : gmap string jstr) (entry : string * string),
          let annotation :=
            orElse (shapeAnnotations !! entry.2) (getField failure entry.1) in
          if truthy annotation then <[entry.1 := annotation]> failure
          else failure)
       failure keys) key
  = getField failure key.
Proof.
  revert failure. induction keys as [|[k iri] keys IH]; intros failure Hnone; [done|].
  cbn [foldl]. rewrite IH by (intros i Hi; apply Hnone; by right). cbn zeta. cbn [fst snd].
  destruct (decide (k = key)) as [->|Hne].
  - rewrite (Hnone iri) by (by left). unfold orElse at 1 2. cbn [truthy].
    destruct (truthy (getField failure key)); [|done]. by rewrite getField_insert_eq.
  - destruct (truthy (orElse _ _)); [|done]. by rewrite getField_insert_ne.
Qed.

(** X30: for a failure with a shape and a property, when the shape has no
    label annotation: a field listed in the annotations map takes the value
    that the triple constraint of the property gives to the last IRI listed
    for that field, if that value is not empty; and a field for whose IRIs
    the constraint has no annotation keeps what it had, so that [severity]
    stays [error]. *)
Theorem toStructuredDataFailure_annotations (this : ValidationReport)
  (err : gmap string jstr) (keys : list (string * string)) :
  annotationKeys this = Some keys →
  truthy (getField err "shape") = true →
  truthy (getField err "property") = true →
  getAnnotations this (toString (getField err "shape"))
    (toString (getField err "property")) !! rdfs "label" = None →
  (∀ before key iri after value,
     keys = before ++ (key, iri) :: after → key ∉ after.*1 →
     key ≠ "severityLabel" →
     getAnnotations this (toString (getField err "shape"))
       (toString (getField err "property")) !! iri = Some value →
     value ≠ EmptyString →
     getField (toStructuredDataFailure this err) key = Some value)
  ∧ ((∀ iri, ("severity", iri) ∈ keys →
        getAnnotations this (toString (getField err "shape"))
          (toString (getField err "property")) !! iri = None) →
     getField (toStructuredDataFailure this err) "severity" = Some "error").
Proof.
  intros Hkeys Hshape Hprop Hlabel. unfold toStructuredDataFailure.
  rewrite Hkeys, Hshape, Hprop. cbn [andb]. cbv zeta. rewrite Hlabel. split.
  - intros before key iri after value -> Hafter Hne Hvalue Hfull.
    rewrite getField_insert_ne by done.
    rewrite foldl_app. cbn [foldl]. rewrite annotate_other by done.
    cbn zeta. cbn [fst snd]. rewrite Hvalue.
    assert (truthy (Some value) = true) as Ht.
    { simpl. by destruct (String.eqb_spec value EmptyString). }
    unfold orElse. rewrite !Ht.
    by rewrite getField_insert_eq.
  - intros Hnone. rewrite getField_insert_ne by done.
    rewrite annotate_unannotated by done.
    by repeat (rewrite getField_insert_ne by done || rewrite getField_insert_eq).
Qed.

Lemma toStructuredDataFailure_annotations_witness :
  (∀ before key iri after value,
     SchemaValidator.annotations = before ++ (key, iri) :: after →
     key ∉ after.*1 → key ≠ "severityLabel" →
     getAnnotations Inputs.annotatedReport
       (toString (getField Inputs.nameMissing "shape"))
       (toString (getField Inputs.nameMissing "property")) !! iri = Some value →
     value ≠ EmptyString →
     getField (toStructuredDataFailure Inputs.annotatedReport Inputs.nameMissing) key
     = Some value)
  ∧ ((∀ iri, ("severity", iri) ∈ SchemaValidator.annotations →
        getAnnotations Inputs.annotatedReport
          (toString (getField Inputs.nameMissing "shape"))
          (toString (getField Inputs.nameMissing "property")) !! iri = None) →
     getField (toStructuredDataFailure Inputs.annotatedReport Inputs.nameMissing)
       "severity" = Some "error").
Proof.
  apply (toStructuredDataFailure_annotations Inputs.annotatedReport Inputs.nameMissing
           SchemaValidator.annotations); reflexivity.
Defined.

End ValidatorProps.

(** ** parser.js *)
Module ParserProps.
Import JS Rdf Utils SchemaValidator Shapes ShapeFacts.

Lemma getQuads_all (store : list Quad) : getQuads store None None None = store.
Proof.
  unfold getQuads. induction store as [|q store IH]; [done|].
  cbn [List.filter matchesId andb]. by f_equal.
Qed.

Lemma length_zero {A} (l : list A) : Nat.eqb (List.length l) 0 = true ↔ l = [].
Proof. destruct l; simpl; split; done. Qed.

Lemma stringToQuads_result (env : Env) (text url : string) :
  match stringToQuads env text url with
  | Ok store =>
      store ≠ []
      ∧ ∃ parser, parser ∈ [parseJsonLd env; parseMicrodata env; parseRdfa env]
                  ∧ parser text url = Ok (Some store)
  | Throw e => e = InvalidDataError parseErrorMessage
  end.
Proof.
  unfold stringToQuads, tryParse.
  destruct (parseJsonLd env text url) as [[s1|]|e1] eqn:H1.
  1: { rewrite getQuads_all. destruct (Nat.eqb (List.length s1) 0) eqn:E; [done|].
       split; [intros ->; done|]. exists (parseJsonLd env). set_solver. }
  all: destruct (parseMicrodata env text url) as [[s2|]|e2] eqn:H2.
  1,4: rewrite getQuads_all; destruct (Nat.eqb (List.length s2) 0) eqn:E; [done|];
       split; [intros ->; done|]; exists (parseMicrodata env); set_solver.
  all: destruct (parseRdfa env text url) as [[s3|]|e3] eqn:H3; try done.
  all: rewrite getQuads_all; destruct (Nat.eqb (List.length s3) 0) eqn:E; [done|];
       split; [intros ->; done|]; exists (parseRdfa env); set_solver.
Qed.

(** X13: [stringToQuads] either returns a store that holds at least one
    triple, the one that the first of the parsers JSON-LD, Microdata, RDFa
    to succeed resolved with, or it throws the InvalidDataError of the
    module: whatever error a parser rejects with, none reaches the caller. *)
Theorem stringToQuads_outcome (env : Env) (text url : string) :
  match stringToQuads env text url with
  | Ok store =>
      store ≠ []
      ∧ ∃ parser, parser ∈ [parseJsonLd env; parseMicrodata env; parseRdfa env]
                  ∧ parser text url = Ok (Some store)
  | Throw e => e = InvalidDataError parseErrorMessage
  end.
Proof. apply stringToQuads_result. Qed.

Lemma addQuad_nonempty st q : addQuad st q ≠ [].
Proof.
  unfold addQuad. destruct (existsb (sameQuad q) st) eqn:E.
  - intros ->. done.
  - by destruct st.
Qed.

Lemma foldl_addQuad_nonempty quads st : st ≠ [] → foldl addQuad st quads ≠ [].
Proof.
  revert st. induction quads as [|q quads IH]; intros st H; simpl; [done|].
  apply IH, addQuad_nonempty.
Qed.

Lemma collect_outcome stream :
  Parser.collect stream
  = match Parser.error stream with
    | Some err => Throw err
    | None =>
        if Nat.eqb (List.length (Parser.data stream)) 0 then Ok None
        else Ok (Some (foldl addQuad [] (Parser.data stream)))
    end.
Proof.
  unfold Parser.collect. destruct (Parser.error stream); [done|]. rewrite getQuads_all.
  destruct (Parser.data stream) as [|q quads]; [done|]. cbn [foldl List.length Nat.eqb].
  destruct (Nat.eqb _ 0) eqn:E; [|done].
  apply length_zero in E.
  by destruct (foldl_addQuad_nonempty quads _ (addQuad_nonempty [] q)).
Qed.

Lemma stringToQuads_firstParsed env jsonLdParser microdataParser rdfaParser text url :
  stringToQuads (Parser.withParsers env jsonLdParser microdataParser rdfaParser) text url
  = match Parser.firstParsed [jsonLdParser text url; microdataParser text url;
                       rdfaParser text url] with
    | Some stream => Ok (foldl addQuad [] (Parser.data stream))
    | None => Throw (InvalidDataError parseErrorMessage)
    end.
Proof.
  unfold stringToQuads, Parser.withParsers, tryParse, Parser.firstParsed.
  cbn [SchemaValidator.parseJsonLd SchemaValidator.parseMicrodata
       SchemaValidator.parseRdfa].
  unfold Parser.parseJsonLd, Parser.parseMicrodata, Parser.parseRdfa.
  rewrite !collect_outcome. cbn [List.filter].
  assert (∀ s : Parser.Stream, Nat.eqb (List.length (Parser.data s)) 0 = false →
            Nat.eqb (List.length (getQuads (foldl addQuad [] (Parser.data s)) None None None)) 0
            = false) as Hne.
  { intros s Hs. rewrite getQuads_all.
    destruct (Parser.data s) as [|q quads]; [done|]. cbn [foldl].
    clear Hs. destruct (Nat.eqb _ 0) eqn:E; [|done].
    apply length_zero in E.
    by destruct (foldl_addQuad_nonempty quads _ (addQuad_nonempty [] q)). }
  destruct (Parser.error (jsonLdParser text url)) eqn:E1;
    [|destruct (Nat.eqb (List.length (Parser.data (jsonLdParser text url))) 0) eqn:D1];
    cbn [bool_decide decide_rel option_eq_dec andb negb head];
    rewrite ?bool_decide_eq_true_2, ?bool_decide_eq_false_2 by done;
    cbn [andb negb head]; rewrite ?Hne by done; try done.
  all: destruct (Parser.error (microdataParser text url)) eqn:E2;
    [|destruct (Nat.eqb (List.length (Parser.data (microdataParser text url))) 0) eqn:D2];
    rewrite ?bool_decide_eq_true_2, ?bool_decide_eq_false_2 by done;
    cbn [andb negb head]; rewrite ?Hne by done; try done.
  all: destruct (Parser.error (rdfaParser text url)) eqn:E3;
    [|destruct (Nat.eqb (List.length (Parser.data (rdfaParser text url))) 0) eqn:D3];
    rewrite ?bool_decide_eq_true_2, ?bool_decide_eq_false_2 by done;
    cbn [andb negb head]; rewrite ?Hne by done; try done.
Qed.

(** X14: with the three streaming parsers in place, [stringToQuads] returns
    the quads of the first stream, in the order JSON-LD, Microdata, RDFa,
    that ends without an error and carries at least one quad, as a store in
    which no triple occurs twice; when there is no such stream it throws
    the InvalidDataError. An empty store is never returned. *)
Theorem stringToQuads_takes_first_parsed_stream (env : Env)
  (jsonLdParser microdataParser rdfaParser : string → string → Parser.Stream)
  (text url : string) :
  stringToQuads (Parser.withParsers env jsonLdParser microdataParser rdfaParser) text url
  = match Parser.firstParsed [jsonLdParser text url; microdataParser text url;
                       rdfaParser text url] with
    | Some stream => Ok (foldl addQuad [] (Parser.data stream))
    | None => Throw (InvalidDataError parseErrorMessage)
    end
  ∧ ∀ store,
      stringToQuads (Parser.withParsers env jsonLdParser microdataParser rdfaParser) text url
      = Ok store →
      store ≠ [] ∧ noRepeat store.
Proof.
  split; [apply stringToQuads_firstParsed|].
  intros store. rewrite stringToQuads_firstParsed.
  destruct (Parser.firstParsed _) as [stream|] eqn:Hfirst; [|done].
  intros [= <-]. split.
  - unfold Parser.firstParsed in Hfirst. apply head_Some_elem_of in Hfirst.
    apply list_elem_of_In, filter_In in Hfirst as [_ [_ Hd]%andb_true_iff].
    destruct (Parser.data stream) as [|q quads]; [done|]. cbn [foldl].
    apply foldl_addQuad_nonempty, addQuad_nonempty.
  - apply foldl_addQuad_noRepeat. intros i j a b _ Hi. by rewrite lookup_nil in Hi.
Qed.


End ParserProps.

(** ** schema-validator.js *)
Module ReportProps.
Import JS Rdf Utils SchemaValidator Report ReportFacts Notions ValidatorProps.

Lemma tagFailure_displayable service_ type_ f :
  displayable f →
  displayable (tagFailure service_ type_ f)
  ∧ is_Some (getField (tagFailure service_ type_ f) "service").
Proof.
  intros (Hsev & Hmsg & Hnode). unfold tagFailure, displayable.
  rewrite !getField_insert_eq.
  rewrite !(getField_insert_ne _ "node") by done.
  rewrite !(getField_insert_ne _ "service") by done.
  rewrite getField_insert_eq. done.
Qed.

Lemma produced_displayable env f : produced env f → displayable f.
Proof.
  intros (store & shape_ & baseUrl & failures & Hrun & Hf).
  pose proof (validate_outcome (shexValidator env) store shape_ baseUrl) as H.
  rewrite Hrun in H. rewrite Forall_forall in H. by apply H.
Qed.

Lemma validateItems_displayable env data url report :
  validateItems env data url [] = Ok report →
  Forall (λ f, displayable f ∧ is_Some (getField f "service")) report.
Proof.
  intros Hrun. apply validateItems_chunks in Hrun as (chunks & -> & Hall).
  apply Forall_forall. intros f Hf. simpl in Hf.
  apply list_elem_of_In, in_concat in Hf as (chunk & Hchunk & Hf).
  apply list_elem_of_In in Hchunk, Hf.
  rewrite Forall_forall in Hall.
  destruct (Hall chunk Hchunk) as (id & shape_ & found & Hfound & Hunique).
  apply uniqueByFrom_spec in Hunique as (Hsub & _).
  pose proof (sublist_member _ _ _ Hsub Hf) as Hf'.
  destruct (recursiveValidate_tagged _ _ _ _ _ Hfound f Hf')
    as (service_ & type_ & f0 & Hprod & ->).
  by apply tagFailure_displayable, (produced_displayable env).
Qed.

Lemma validateSchemaOrg_displayable env data url :
  match validateSchemaOrg env data url with
  | Ok report => Forall (λ f, displayable f ∧ is_Some (getField f "service")) report
  | Throw e => ∀ msg, e ≠ InvalidDataError msg
  end.
Proof.
  unfold validateSchemaOrg.
  destruct (validateItems env data url []) as [report|e] eqn:Hrun.
  - by apply validateItems_displayable in Hrun.
  - intros msg ->. by apply validateItems_never_invalid_data in Hrun.
Qed.

(** X16: [validateSchemaOrg] never ends with an InvalidDataError, whatever
    the parsers and the validation library do; and in every failure of the
    report it returns, [severity], [message], [node] and [service] are
    strings. *)
Theorem validateSchemaOrg_outcome (env : Env) (data : list string) (url : string) :
  match validateSchemaOrg env data url with
  | Ok report =>
      Forall (λ f, is_Some (getField f "severity") ∧ is_Some (getField f "message")
                   ∧ is_Some (getField f "node") ∧ is_Some (getField f "service"))
        report
  | Throw e => ∀ msg, e ≠ InvalidDataError msg
  end.
Proof.
  pose proof (validateSchemaOrg_displayable env data url) as H.
  destruct (validateSchemaOrg env data url) as [report|e]; [|done].
  eapply Forall_impl; [exact H|]. intros f [(? & ? & ?) ?]. done.
Qed.

(** *** Items that no parser accepts *)

Lemma validateItems_app env before after url report :
  validateItems env (before ++ after) url report
  = match validateItems env before url report with
    | Ok report' => validateItems env after url report'
    | Throw e => Throw e
    end.
Proof.
  revert report. induction before as [|item before IH]; intros report; [done|].
  cbn [app validateItems].
  destruct (validateItem env item url report) as [report' [[]|]]; try done; apply IH.
Qed.

Lemma validateItem_unparsed env item url report :
  (∀ store, stringToQuads env item url ≠ Ok store) →
  ∃ msg, validateItem env item url report = (report, Some (InvalidDataError msg)).
Proof.
  intros Hfail. unfold validateItem.
  pose proof (ParserProps.stringToQuads_result env item url) as Hout.
  destruct (stringToQuads env item url) as [store|e]; [by destruct (Hfail store)|].
  subst e. by eexists.
Qed.

(** X26: an item of [data] for which [stringToQuads] returns no store adds
    nothing to the report and stops nothing: the report is the one of the
    data without that item. *)
Theorem unparsed_item_is_skipped (env : Env) (before after : list string)
  (item url : string) :
  (∀ store, stringToQuads env item url ≠ Ok store) →
  validateSchemaOrg env (before ++ item :: after) url
  = validateSchemaOrg env (before ++ after) url.
Proof.
  intros Hfail. unfold validateSchemaOrg. rewrite !validateItems_app.
  destruct (validateItems env before url []) as [report|e]; [|done].
  cbn [validateItems].
  by destruct (validateItem_unparsed env item url report Hfail) as [msg ->].
Qed.

Lemma unparsed_item_is_skipped_witness :
  validateSchemaOrg Inputs.noParserEnv ([] ++ "<html></html>" :: []) "http://example.org/"
  = validateSchemaOrg Inputs.noParserEnv ([] ++ []) "http://example.org/".
Proof.
  apply (unparsed_item_is_skipped Inputs.noParserEnv [] [] "<html></html>"
           "http://example.org/").
  intros store. vm_compute. discriminate.
Defined.

(** *** The tags of recursiveValidate *)

Lemma services_unfold service_ cs :
  services (mkHierarchy service_ (Some cs))
  = service_ :: List.concat (map services cs).
Proof.
  cbn [services]. f_equal. induction cs as [|c cs IH]; [done|].
  cbn [map List.concat]. by rewrite <- IH.
Qed.

Lemma services_children node child s :
  child ∈ children node → s ∈ services child → s ∈ services node.
Proof.
  destruct node as [service_ [cs|]]; unfold children; cbn [nested default];
    [|by intros ?%elem_of_nil].
  intros Hc Hs. rewrite services_unfold. right.
  apply list_elem_of_In, in_concat. exists (services child).
  split; apply list_elem_of_In; [|done]. apply list_elem_of_fmap. by exists child.
Qed.

Lemma services_self node : service node ∈ services node.
Proof. destruct node as [service_ [cs|]]; cbn [services service]; by left. Qed.

Lemma removeUrls_twice text : removeUrls (removeUrls text) = removeUrls text.
Proof. apply TextFacts.removeUrls_fixed, TextFacts.removeUrls_clean. Qed.

Lemma recursiveValidate_tags env node store id typeQuad rest found :
  getQuads store (Some id) (Some (rdf "type")) None = typeQuad :: rest →
  recursiveValidate env node (Some store) id = Ok found →
  ∀ f, f ∈ found →
    getField f "node" = Some (removeUrls (value (object typeQuad)))
    ∧ ∃ s, s ∈ services node ∧ getField f "service" = Some s.
Proof.
  intros Htype. revert found.
  induction node as [service_|service_ cs IH] using Hierarchy_ind_nested;
    intros found Hrun f Hf.
  all: rewrite (recursiveValidate_unfold _ _ _ _ _ _ Htype) in Hrun.
  all: destruct (ownFailures env _ store id typeQuad) as [own|] eqn:Hown; [|done].
  all: cbn [mbind Result_bind JS.bind] in Hrun;
       apply nestedLoop_spec in Hrun as (rs & Hrs & ->).
  all: assert (∀ g, g ∈ own →
                 getField g "node" = Some (removeUrls (value (object typeQuad)))
                 ∧ getField g "service" = Some service_) as Hmine.
  1,3: intros g Hg; unfold ownFailures in Hown;
       destruct (if bool_decide _ then _ else _) as [fs|] in Hown; [|done];
       cbn [mbind Result_bind JS.bind] in Hown; injection Hown as <-;
       apply list_elem_of_fmap in Hg as (g0 & -> & _);
       unfold tagFailure; cbn [service];
       rewrite getField_insert_eq, getField_insert_ne, getField_insert_eq by done;
       by rewrite removeUrls_twice.
  all: apply elem_of_app in Hf as [Hf|Hf];
       [destruct (Hmine f Hf) as [? ?]; split; [done|];
        exists service_; split; [by left|done]|].
  all: apply list_elem_of_In, in_concat in Hf
         as (l & Hl%list_elem_of_In & Hf%list_elem_of_In).
  all: apply list_elem_of_fmap in Hl as (r & -> & Hr).
  all: apply list_elem_of_In, filter_In in Hf as [Hf%list_elem_of_In _].
  all: unfold children in Hrs; simpl in Hrs.
  - apply Forall2_nil_inv_l in Hrs as ->. by apply elem_of_nil in Hr.
  - apply list_elem_of_lookup in Hr as [i Hi].
    destruct (Forall2_lookup_r _ _ _ _ _ Hrs Hi) as (c & Hc & Hcr).
    destruct (Forall_lookup_1 _ _ _ _ IH Hc r Hcr f Hf) as (Hnode & s & Hs & Hserv).
    split; [done|]. exists s. split; [|done].
    apply (services_children (mkHierarchy service_ (Some cs)) c);
      [by eapply list_elem_of_lookup_2|done].
Qed.

(** X27: every failure that [recursiveValidate] returns for an entity has
    as [node] the type of the entity, taken from the first rdf:type triple
    and stripped of its URL, and as [service] a service of the hierarchy it
    was called with. *)
Theorem recursiveValidate_tags_node_and_service (env : Env) (node : Hierarchy)
  (store : list Quad) (id : string) (typeQuad : Quad) (rest : list Quad)
  (found : list (gmap string jstr)) :
  getQuads store (Some id) (Some (rdf "type")) None = typeQuad :: rest →
  recursiveValidate env node (Some store) id = Ok found →
  ∀ f, f ∈ found →
    getField f "node" = Some (removeUrls (value (object typeQuad)))
    ∧ ∃ s, s ∈ services node ∧ getField f "service" = Some s.
Proof. apply recursiveValidate_tags. Qed.

Lemma recursiveValidate_tags_node_and_service_witness :
  getField Examples.imageFailure "node"
  = Some (removeUrls
            (value (object (Examples.triple "http://example.org/a" Examples.typeIri
                              "http://schema.org/Thing"))))
  ∧ ∃ s, s ∈ services (hierarchy Examples.nestedEnv)
         ∧ getField Examples.imageFailure "service" = Some s.
Proof.
  apply (recursiveValidate_tags_node_and_service Examples.nestedEnv
           (hierarchy Examples.nestedEnv) Examples.oneThing "http://example.org/a"
           (Examples.triple "http://example.org/a" Examples.typeIri
              "http://schema.org/Thing") []
           [Examples.thingFailure; Examples.imageFailure]).
  - reflexivity.
  - reflexivity.
  - apply list_elem_of_further, list_elem_of_here.
Defined.

Lemma nestedLoop_quiet validateNested props cs :
  (∀ c, c ∈ cs → validateNested c = Ok []) →
  nestedLoop validateNested props cs [] = Ok [].
Proof.
  induction cs as [|c cs IH]; intros H; cbn [nestedLoop]; [done|].
  rewrite (H c) by (by left). cbn [mbind Result_bind JS.bind List.filter].
  apply IH. intros c' Hc'. apply H. by right.
Qed.

Lemma ownFailures_quiet env node store id typeQuad :
  startShape (service node) (value (object typeQuad)) ∉ shapeIds env →
  ownFailures env node store id typeQuad = Ok [].
Proof.
  intros Hnone. unfold ownFailures. unfold startShape in Hnone.
  by rewrite bool_decide_eq_false_2.
Qed.

Lemma recursiveValidate_quiet env node store id typeQuad rest :
  getQuads store (Some id) (Some (rdf "type")) None = typeQuad :: rest →
  (∀ s, s ∈ services node →
     startShape s (value (object typeQuad)) ∉ shapeIds env) →
  recursiveValidate env node (Some store) id = Ok [].
Proof.
  intros Htype.
  induction node as [service_|service_ cs IH] using Hierarchy_ind_nested; intros Hnone.
  all: rewrite (recursiveValidate_unfold _ _ _ _ _ _ Htype).
  all: rewrite ownFailures_quiet by (apply Hnone, services_self).
  all: cbn [mbind Result_bind JS.bind]; unfold children; cbn [nested default].
  - done.
  - apply nestedLoop_quiet. intros c Hc.
    rewrite Forall_forall in IH. apply (IH c Hc). intros s Hs. apply Hnone.
    by apply (services_children (mkHierarchy service_ (Some cs)) c).
Qed.

(** X28: an entity whose type has a shape for no service of the hierarchy
    is validated against nothing: [recursiveValidate] returns no failure
    for it, whatever its triples are. *)
Theorem recursiveValidate_without_shapes (env : Env) (node : Hierarchy)
  (store : list Quad) (id : string) (typeQuad : Quad) (rest : list Quad) :
  getQuads store (Some id) (Some (rdf "type")) None = typeQuad :: rest →
  (∀ s, s ∈ services node →
     shex ("Valid" +:+ s +:+ removeUrls (removeUrls (value (object typeQuad))))
     ∉ shapeIds env) →
  recursiveValidate env node (Some store) id = Ok [].
Proof. apply recursiveValidate_quiet. Qed.

Lemma recursiveValidate_without_shapes_witness :
  recursiveValidate Examples.nestedEnv (hierarchy Examples.nestedEnv)
    (Some Inputs.onePerson) "http://example.org/a" = Ok [].
Proof.
  apply (recursiveValidate_without_shapes Examples.nestedEnv
           (hierarchy Examples.nestedEnv) Inputs.onePerson "http://example.org/a"
           (Examples.triple "http://example.org/a" Examples.typeIri
              "http://schema.org/Person") []).
  - reflexivity.
  - intros s Hs. vm_compute in Hs.
    repeat (apply elem_of_cons in Hs as [->|Hs]); [| |by apply elem_of_nil in Hs];
      vm_compute; intros H;
      repeat (apply elem_of_cons in H as [H|H]; [discriminate|]);
      by apply elem_of_nil in H.
Defined.

End ReportProps.

(** ** The numbering of the components *)
Module OrderFacts.
Import JS Rdf Utils Graph GraphFacts Shapes ShapeFacts Notions.

Section SecondPassOrder.
Context (store : list Quad) (fuel : nat) (order : list string).

Notation nodes := (nodesOf store).
Notation W := (white nodes).

Context (Hfuel : List.length nodes ≤ fuel).
Context (Hnd : NoDup order).
Context (Hall : ∀ x, x ∈ order ↔ x ∈ nodes).

Lemma collect_step_ordered front h back st st' :
  order = front ++ h :: back →
  pass2Inv store order back st →
  predClosed store st → ordered store st →
  collectComponent store fuel st h = Some st' →
  predClosed store st' ∧ ordered store st'.
Proof.
  intros Horder (Hc & Hkeys & Hsub & Hback & Hndk & Hidx & _) Hclosed Hord.
  unfold collectComponent.
  destruct (isUsed (used2 st) h) eqn:Hu; cbn [negb].
  { by intros [= <-]. }
  assert (h ∈ nodes) as Hh by (apply Hall; rewrite Horder; set_solver).
  destruct (backwardDfs_spec store fuel h (used2 st) (component st))
    as (used' & new & Hrun & Hm & Hndn & Hin); [done|done| |].
  { etrans; [apply countWhite_le|done]. }
  rewrite Hrun, Hc. cbn [app]. intros [= <-].
  assert (∀ x, x ∈ new → W (used2 st) x) as Hwhite.
  { intros x Hx%Hin. by apply reachIn_r in Hx. }
  assert (∀ k, k ∈ new → k ∉ (components st).*1) as Hfresh.
  { intros k [_ Hk]%Hwhite Hk'%Hkeys. congruence. }
  rewrite foldl_mapSet_fresh by done.
  assert (∀ x c, (x, c) ∈ components st ++ map (λ x, (x, componentIdx st)) new ↔
            (x, c) ∈ components st ∨ (x ∈ new ∧ c = componentIdx st)) as Hcm.
  { intros x c. rewrite elem_of_app, list_elem_of_fmap. naive_solver. }
  assert (∀ a b, b ∈ new → bwd store b a → isUsed (used2 st) a = true ∨ a ∈ new)
    as Hpred.
  { intros a b Hb Hba. destruct (isUsed (used2 st) a) eqn:Ha; [by left|right].
    apply Hin. eapply reachIn_snoc; [by apply Hin|done|].
    split; [by eapply preds_nodes|done]. }
  split.
  - intros a b Hb Hba. cbn [used2] in *. apply Hm.
    apply Hm in Hb as [Hb|Hb].
    + left. by eapply Hclosed.
    + by eapply Hpred.
  - intros a b ca cb [Ha|[Ha ->]]%Hcm [Hb|[Hb ->]]%Hcm Hba.
    + by eapply Hord.
    + apply Hidx in Ha. lia.
    + exfalso. apply Hwhite in Ha as [_ Ha].
      assert (isUsed (used2 st) b = true) as Hbu.
      { apply Hkeys, list_elem_of_fmap. by exists (b, cb). }
      rewrite (Hclosed a b Hbu Hba) in Ha. done.
    + done.
Qed.

Lemma pass2_loop_ordered todo back st :
  order = reverse todo ++ back →
  pass2Inv store order back st →
  predClosed store st → ordered store st →
  ∃ st', foldM (collectComponent store fuel) todo st = Some st'
         ∧ pass2Inv store order order st'
         ∧ ordered store st'.
Proof.
  revert back st. induction todo as [|h todo IH]; intros back st Horder Hinv Hcl Hord.
  - exists st. split; [done|]. rewrite reverse_nil in Horder.
    simpl in Horder. by subst back.
  - rewrite reverse_cons, <- app_assoc in Horder. simpl in Horder.
    destruct (collect_step store fuel order Hfuel Hnd Hall (reverse todo) h back st
                Horder Hinv) as (st1 & Hstep & Hinv1).
    destruct (collect_step_ordered (reverse todo) h back st st1 Horder Hinv Hcl Hord
                Hstep) as [Hcl1 Hord1].
    cbn [foldM]. rewrite Hstep. by apply (IH (h :: back)).
Qed.

End SecondPassOrder.

Lemma edge_bwd store a b : edge store a b → bwd store b a.
Proof.
  intros (q & Hq & Hs & _ & Ho). unfold bwd. apply preds_elem_of. by exists q.
Qed.

(** The decomposer with the order of its numbering. *)
Lemma stronglyConnectedComponents_ordered store fuel :
  List.length (nodesOf store) ≤ fuel →
  ∃ cm,
    stronglyConnectedComponents fuel store = Some cm
    ∧ NoDup cm.*1
    ∧ (∀ x, x ∈ cm.*1 ↔ x ∈ nodesOf store)
    ∧ (wfStore store →
       ∀ a b ca cb, mapGet cm a = Some ca → mapGet cm b = Some cb →
         (ca = cb ↔ reach store a b ∧ reach store b a))
    ∧ (∀ a b ca cb, mapGet cm a = Some ca → mapGet cm b = Some cb →
         edge store a b → ca ≤ cb).
Proof.
  intros Hfuel.
  destruct (stronglyConnectedComponents_spec store fuel Hfuel)
    as (cm & Hcm & Hndk & Hkeys & Hclasses).
  exists cm. split_and!; [done..|].
  revert Hcm. unfold stronglyConnectedComponents.
  destruct (firstPass_spec store (nodesOf store) fuel (nodesOf_NoDup store) Hfuel)
    as (used & order & Hrun & Hused & Hnd & Hall & Hfin).
  unfold visitAll in Hrun. rewrite Hrun.
  assert (List.length order = List.length (nodesOf store)) as Hlen.
  { apply Permutation_length, NoDup_Permutation; [done|apply nodesOf_NoDup|done]. }
  rewrite pass2_as_list by done.
  destruct (pass2_loop_ordered store fuel order Hfuel Hnd Hall (reverse order) []
              (mkPass2 (resetUsed (nodesOf store) used) [] [] 0))
    as (st' & Hloop & Hinv & Hord).
  { by rewrite reverse_involutive, app_nil_r. }
  { assert (∀ x, isUsed (resetUsed (nodesOf store) used) x = false) as Hfresh.
    { intros x. destruct (isUsed (resetUsed (nodesOf store) used) x) eqn:E; [|done].
      apply isUsed_resetUsed in E as [Hx E]. exfalso. by apply Hx, Hall, Hused. }
    split_and!; cbn [component used2 components componentIdx].
    - done.
    - intros x. rewrite Hfresh. split; [done|]. by intros ?%elem_of_nil.
    - by intros x ?%elem_of_nil.
    - by intros x ?%elem_of_nil.
    - constructor.
    - by intros x c ?%elem_of_nil.
    - intros _. split_and!.
      + by intros a b ca cb ?%elem_of_nil.
      + intros a b. by rewrite Hfresh.
      + intros a b Ha _ Hab. split; [done|].
        destruct (Hfin a b Ha Hab) as (c & _ & H1 & H2 & H3).
        exists c. by rewrite Hfresh. }
  { intros a b Hb. cbn [used2] in Hb.
    destruct (isUsed (resetUsed (nodesOf store) used) b) eqn:E; [|done].
    apply isUsed_resetUsed in E as [Hx E]. exfalso. by apply Hx, Hall, Hused. }
  { by intros a b ca cb ?%elem_of_nil. }
  rewrite Hloop. intros [= <-].
  intros a b ca cb Ha%mapGet_elem_of Hb%mapGet_elem_of Hab; [|done..].
  apply (Hord a b ca cb Ha Hb). by apply edge_bwd.
Qed.

End OrderFacts.

(** ** What a shape holds *)
Module ClosureFacts.
Import JS Rdf Utils Graph GraphFacts Shapes ShapeFacts Notions OrderFacts.

Lemma sublist_member_of {A} (l k : list A) x : sublist l k → x ∈ l → x ∈ k.
Proof.
  induction 1 as [|y l k _ IH|y l k _ IH]; [done| |].
  - intros [->|Hx]%elem_of_cons; [by left|right; auto].
  - intros Hx. right. auto.
Qed.

Lemma sameQuad_spec a b :
  sameQuad a b = true ↔
  id (subject a) = id (subject b) ∧ id (predicate a) = id (predicate b)
  ∧ id (object a) = id (object b).
Proof. unfold sameQuad. rewrite !andb_true_iff, !String.eqb_eq. tauto. Qed.

Lemma sameQuad_refl a : sameQuad a a = true.
Proof. by apply sameQuad_spec. Qed.

Lemma sameQuad_trans a b c :
  sameQuad a b = true → sameQuad b c = true → sameQuad a c = true.
Proof. rewrite !sameQuad_spec. intros (-> & -> & ->) (-> & -> & ->). done. Qed.

Lemma holds_member st q : q ∈ st → holds st q.
Proof. intros Hq. exists q. split; [done|apply sameQuad_refl]. Qed.

Lemma holds_mono st st' q : (∀ x, x ∈ st → x ∈ st') → holds st q → holds st' q.
Proof. intros H (q' & Hq' & Hs). exists q'. auto. Qed.

Lemma addQuad_holds st x q :
  holds (addQuad st x) q ↔ holds st q ∨ sameQuad q x = true.
Proof.
  unfold addQuad. destruct (existsb (sameQuad x) st) eqn:E.
  - split; [by left|]. intros [H|H]; [done|].
    apply existsb_exists in E as (x' & Hx'%list_elem_of_In & Hs).
    exists x'. split; [done|]. by eapply sameQuad_trans.
  - split.
    + intros (q' & [Hq'|Hq'%list_elem_of_singleton]%elem_of_app & Hs).
      * left. by exists q'.
      * right. by subst q'.
    + intros [(q' & Hq' & Hs)|Hs].
      * exists q'. split; [|done]. apply elem_of_app. by left.
      * exists x. split; [|done]. apply elem_of_app. right. by left.
Qed.

Lemma foldl_addQuad_holds quads st q :
  holds (foldl addQuad st quads) q ↔ holds st q ∨ holds quads q.
Proof.
  revert st. induction quads as [|x quads IH]; intros st; simpl.
  - split; [by left|]. intros [H|(q' & Hq' & _)]; [done|]. by apply elem_of_nil in Hq'.
  - rewrite IH, addQuad_holds. split.
    + intros [[H|H]|(q' & Hq' & Hs)].
      * by left.
      * right. exists x. split; [by left|done].
      * right. exists q'. split; [by right|done].
    + intros [H|(q' & [->|Hq']%elem_of_cons & Hs)].
      * left. by left.
      * left. by right.
      * right. by exists q'.
Qed.

Lemma foldl_addQuad_member quads st q :
  q ∈ foldl addQuad st quads → q ∈ st ∨ q ∈ quads.
Proof.
  revert st. induction quads as [|x quads IH]; intros st; simpl; [by left|].
  intros [Hq|Hq]%IH; [|right; by right].
  unfold addQuad in Hq. destruct (existsb (sameQuad x) st); [by left|].
  apply elem_of_app in Hq as [Hq|Hq%list_elem_of_singleton]; [by left|].
  right. rewrite Hq. by left.
Qed.

Lemma getQuads_whole (store : list Quad) : getQuads store None None None = store.
Proof.
  unfold getQuads. induction store as [|q store IH]; [done|].
  cbn [List.filter matchesId andb]. by f_equal.
Qed.

Lemma getShape_unfold fuel i store shapes parsed :
  getShape (S fuel) i store shapes parsed
  = if Nat.eqb (List.length (getQuads store (Some (lookupId i)) None None)) 0
    then Some (None, parsed ++ [idProp i])
    else
      match
        foldM (visitObject fuel store shapes)
          (getQuads store (Some (lookupId i)) None None)
          (getQuads store (Some (lookupId i)) None None, parsed ++ [idProp i])
      with
      | None => None
      | Some (quads, parsed') => Some (Some (foldl addQuad [] quads), parsed')
      end.
Proof. reflexivity. Qed.

Section Closure.
Context (store : list Quad) (Hwf : wfStore store).

(** Nothing is reached from the id of a literal but that id, which is
    the subject of no triple. *)
Lemma literal_reaches_nothing q0 q :
  q0 ∈ store → isLiteral (object q0) = true → q ∈ store →
  ¬ reachable store (id (object q0)) (id (subject q)).
Proof.
  intros Hq0 Hl Hq Hr. apply rtc_inv in Hr as [Heq|(y & (q1 & Hq1 & Hs & _) & _)].
  - by apply (Hwf q0 q).
  - by apply (Hwf q0 q1).
Qed.

Lemma visit_loop fuel shapes qs acc p acc' p' :
  getShapeSound store fuel →
  (∀ q0, q0 ∈ qs → q0 ∈ store) →
  foldM (visitObject fuel store shapes) qs (acc, p) = Some (acc', p') →
  (∀ x, x ∈ p → x ∈ p')
  ∧ (∀ q, q ∈ acc → q ∈ acc')
  ∧ (∀ q, q ∈ acc' →
       q ∈ acc
       ∨ (q ∈ store
          ∧ ∃ q0, q0 ∈ qs
                  ∧ reachable store (id (object q0)) (id (subject q))))
  ∧ (∀ q0, q0 ∈ qs → isLiteral (object q0) = false →
       Some (id (object q0)) ∈ p')
  ∧ closedOver store p p' acc'.
Proof.
  intros IHf. revert acc p.
  induction qs as [|q0 qs IH]; intros acc p Hqs Hrun.
  - injection Hrun as <- <-. split_and!; try done.
    all: try (by left); try (by intros q0 ?%elem_of_nil);
      try (split; by intros x Hx Hx').
  - cbn [foldM] in Hrun.
    assert (∀ q', q' ∈ qs → q' ∈ store) as Hqs' by (intros; apply Hqs; by right).
    unfold visitObject at 1 in Hrun. cbn [fst snd shapesGet] in Hrun.
    destruct (negb (isLiteral (object q0))
              && bool_decide (Some (id (object q0)) ∈ p)) eqn:Hskip.
    { destruct (IH acc p Hqs' Hrun) as (Hp & Hacc & Hsound & Hsucc & Hclosed).
      split_and!; [done|done| | |done].
      - intros q [Hq|(Hq & q1 & Hq1 & Hr)]%Hsound; [by left|right].
        split; [done|]. exists q1. split; [by right|done].
      - intros q1 [->|Hq1]%elem_of_cons Hl; [|by apply Hsucc].
        apply andb_true_iff in Hskip as [_ Hin%bool_decide_eq_true]. by apply Hp. }
    destruct (getShape fuel (IdTerm (object q0)) store shapes p)
      as [[r p1]|] eqn:Hcall; [|done].
    destruct (IHf _ _ _ _ _ Hcall)
      as (Hp1 & Hid & _ & Hsound1 & _ & _ & Hclosed1 & Hclosed1').
    cbn [idProp lookupId] in *.
    assert (foldM (visitObject fuel store shapes) qs (acc ++ quadsOf r, p1)
            = Some (acc', p')) as Hrest.
    { destruct r as [nested|]; simpl; [|by rewrite app_nil_r].
      rewrite getQuads_whole in Hrun.
      destruct nested; simpl in *; [by rewrite app_nil_r|done]. }
    destruct (IH _ _ Hqs' Hrest) as (Hp & Hacc & Hsound & Hsucc & Hclosed & Hclosed').
    split_and!.
    + auto.
    + intros q Hq. apply Hacc, elem_of_app. by left.
    + intros q [[Hq|Hq]%elem_of_app|(Hq & q1 & Hq1 & Hr)]%Hsound.
      * by left.
      * right. destruct (Hsound1 q Hq) as [Hqs1 Hr]. split; [done|].
        exists q0. split; [by left|done].
      * right. split; [done|]. exists q1. split; [by right|done].
    + intros q1 [->|Hq1]%elem_of_cons Hl; [by apply Hp|by apply Hsucc].
    + split.
      * intros x Hx Hxp q Hq Hs.
        destruct (decide (Some x ∈ p1)) as [Hx1|Hx1].
        -- eapply holds_mono; [|by apply (Hclosed1 x Hx1 Hxp q)].
           intros z Hz. apply Hacc, elem_of_app. by right.
        -- by apply (Hclosed x Hx Hx1 q).
      * intros x Hx Hxp y Hxy.
        destruct (decide (Some x ∈ p1)) as [Hx1|Hx1].
        -- apply Hp. by apply (Hclosed1' x Hx1 Hxp y).
        -- by apply (Hclosed' x Hx Hx1 y).
Qed.

Lemma getShape_sound fuel : getShapeSound store fuel.
Proof.
  induction fuel as [|fuel IH]; intros i shapes parsed r parsed' Hrun; [done|].
  rewrite getShape_unfold in Hrun.
  set (v := lookupId i) in *.
  assert (∀ q, q ∈ getQuads store (Some v) None None ↔ q ∈ store ∧ id (subject q) = v)
    as Hown.
  { intros q. rewrite getQuads_elem_of, matchesId_Some. simpl. tauto. }
  destruct (Nat.eqb (List.length (getQuads store (Some v) None None)) 0) eqn:Hempty.
  - injection Hrun as <- <-.
    assert (∀ q, q ∈ store → id (subject q) ≠ v) as Hnone.
    { intros q Hq Hs.
      assert (q ∈ getQuads store (Some v) None None) as Hin by (by apply Hown).
      destruct (getQuads store (Some v) None None) eqn:E; [|done].
      by apply elem_of_nil in Hin. }
    assert (∀ y, ¬ edge store v y) as Hnoedge.
    { intros y (q & Hq & Hs & _). by apply (Hnone q). }
    split_and!.
    + intros x Hx. apply elem_of_app. by left.
    + apply elem_of_app. right. by left.
    + done.
    + by intros q ?%elem_of_nil.
    + intros q Hq Hs. by destruct (Hnone q).
    + intros y Hy. by destruct (Hnoedge y).
    + split.
      * intros x [Hx|Hx%list_elem_of_singleton]%elem_of_app Hxp q Hq Hs; [done|].
        destruct i as [s|t]; [done|]. injection Hx as ->. by destruct (Hnone q).
      * intros x [Hx|Hx%list_elem_of_singleton]%elem_of_app Hxp y Hxy; [done|].
        destruct i as [s|t]; [done|]. injection Hx as ->. by destruct (Hnoedge y).
  - destruct (foldM _ _ _) as [[quads p']|] eqn:Hloop; [|done].
    injection Hrun as <- <-.
    destruct (visit_loop fuel shapes _ _ _ _ _ IH
                (λ q Hq, proj1 (proj1 (Hown q) Hq)) Hloop)
      as (Hp & Hacc & Hsound & Hsucc & Hclosed & Hclosed').
    assert (∀ q, q ∈ store → id (subject q) = v →
              holds (foldl addQuad [] quads) q) as Hmine.
    { intros q Hq Hs. apply foldl_addQuad_holds. right.
      apply holds_member, Hacc, Hown. done. }
    assert (∀ y, edge store v y → Some y ∈ p') as Hnext.
    { intros y (q & Hq & Hs & Hl & <-). apply Hsucc; [|done]. by apply Hown. }
    split_and!.
    + intros x Hx. apply Hp, elem_of_app. by left.
    + apply Hp, elem_of_app. right. by left.
    + done.
    + cbn [quadsOf default]. intros q [Hq|Hq]%foldl_addQuad_member;
        [by apply elem_of_nil in Hq|].
      apply Hsound in Hq as [Hq|(Hq & q0 & Hq0 & Hr)].
      * apply Hown in Hq as [Hq Hs]. split; [done|]. rewrite Hs. apply rtc_refl.
      * split; [done|]. apply Hown in Hq0 as [Hq0 Hs0].
        destruct (isLiteral (object q0)) eqn:Hl.
        -- by destruct (literal_reaches_nothing q0 q).
        -- eapply rtc_l; [|exact Hr]. by exists q0.
    + done.
    + done.
    + cbn [quadsOf default]. split.
      * intros x Hx Hxp q Hq Hs.
        destruct (decide (Some x ∈ parsed ++ [idProp i])) as [Hx1|Hx1].
        -- apply elem_of_app in Hx1 as [Hx1|Hx1%list_elem_of_singleton]; [done|].
           destruct i as [s|t]; [done|]. injection Hx1 as ->. by apply Hmine.
        -- apply foldl_addQuad_holds. right. by apply (Hclosed x Hx Hx1 q).
      * intros x Hx Hxp y Hxy.
        destruct (decide (Some x ∈ parsed ++ [idProp i])) as [Hx1|Hx1].
        -- apply elem_of_app in Hx1 as [Hx1|Hx1%list_elem_of_singleton]; [done|].
           destruct i as [s|t]; [done|]. injection Hx1 as ->. by apply Hnext.
        -- by apply (Hclosed' x Hx Hx1 y).
Qed.

(** A shape built for the key [k]: the triples whose subject [k]
    reaches. *)
Lemma getShape_closure fuel k shapes r parsed' :
  getShape fuel (IdString k) store shapes [] = Some (r, parsed') →
  (r = None → ∀ q, q ∈ store → id (subject q) ≠ k)
  ∧ (∀ q, q ∈ quadsOf r → q ∈ store ∧ reachable store k (id (subject q)))
  ∧ (∀ q, q ∈ store → reachable store k (id (subject q)) → holds (quadsOf r) q).
Proof.
  intros Hrun.
  destruct (getShape_sound fuel _ _ _ _ _ Hrun)
    as (_ & _ & Hnone & Hsound & Hmine & Hnext & Hclosed & Hclosed').
  cbn [lookupId] in *. split_and!; [done|done|].
  assert (∀ x y, reachable store x y → Some x ∈ parsed' → Some y ∈ parsed') as Hall.
  { intros x y Hr. induction Hr as [x|x y z Hxy _ IH]; [done|].
    intros Hx. apply IH. apply (Hclosed' x Hx); [|done]. by intros ?%elem_of_nil. }
  intros q Hq Hr. apply rtc_inv in Hr as [Heq|(y & Hky & Hr)].
  - by apply Hmine.
  - apply (Hclosed (id (subject q))); [|by intros ?%elem_of_nil|done|done].
    apply (Hall y); [done|]. by apply Hnext.
Qed.

End Closure.

(** *** The keys of the shapes *)

Lemma quadsToShapes_unfold fuel store :
  quadsToShapes fuel store
  = match stronglyConnectedComponents fuel store with
    | None => None
    | Some components =>
        match foldM (addShape fuel store) components
                ([], demoted store components) with
        | None => None
        | Some (shapes, _) => Some shapes
        end
    end.
Proof. reflexivity. Qed.

Lemma demoted_elem_of store (cm : list (string * nat)) c :
  c ∈ demoted store cm ↔
  ∃ q cs, q ∈ store ∧ isLiteral (object q) = false
          ∧ mapGet cm (id (subject q)) = Some cs
          ∧ mapGet cm (id (object q)) = Some c ∧ cs ≠ c.
Proof.
  unfold demoted. rewrite getQuads_whole.
  assert (∀ (l : list Quad) (init : gset nat),
            c ∈ foldl
                  (λ (notRoot : gset nat) quad,
                     match mapGet cm (id (subject quad)),
                           mapGet cm (id (object quad)) with
                     | Some cs, Some co =>
                         if negb (isLiteral (object quad)) && negb (Nat.eqb cs co)
                         then notRoot ∪ {[co]} else notRoot
                     | _, _ => notRoot
                     end) init l
            ↔ c ∈ init
              ∨ ∃ q cs, q ∈ l ∧ isLiteral (object q) = false
                        ∧ mapGet cm (id (subject q)) = Some cs
                        ∧ mapGet cm (id (object q)) = Some c ∧ cs ≠ c) as H.
  { induction l as [|x l IH]; intros init; cbn [foldl].
    - split; [by left|]. intros [?|(q & cs & Hq & _)]; [done|].
      by apply elem_of_nil in Hq.
    - rewrite IH. split.
      + intros [Hc|(q & cs & Hq & Hrest)].
        * destruct (mapGet cm (id (subject x))) as [cs|] eqn:Hs; [|by left].
          destruct (mapGet cm (id (object x))) as [co|] eqn:Ho; [|by left].
          destruct (negb (isLiteral (object x)) && negb (Nat.eqb cs co)) eqn:Hcond;
            [|by left].
          apply elem_of_union in Hc as [Hc|Hc%elem_of_singleton]; [by left|].
          subst co. apply andb_true_iff in Hcond as [Hl%negb_true_iff Hne%negb_true_iff].
          apply Nat.eqb_neq in Hne.
          right. exists x, cs. split_and!; [by left|done..].
        * right. exists q, cs. split; [by right|done].
      + intros [Hc|(q & cs & [->|Hq]%elem_of_cons & Hl & Hs & Ho & Hne)].
        * left. destruct (mapGet cm (id (subject x))); [|done].
          destruct (mapGet cm (id (object x))); [|done].
          destruct (_ && _); [|done]. set_solver.
        * left. rewrite Hs, Ho, Hl. cbn [negb andb].
          rewrite (proj2 (Nat.eqb_neq cs c)) by done. set_solver.
        * right. by exists q, cs. }
  rewrite H. set_solver.
Qed.

Lemma rootKeys_entry entries nr k :
  k ∈ rootKeys entries nr → ∃ c, (k, c) ∈ entries ∧ c ∉ nr.
Proof.
  revert nr. induction entries as [|[node c0] entries IH]; intros nr; cbn [rootKeys].
  - by intros ?%elem_of_nil.
  - case_bool_decide as Hc0.
    + intros (c & Hc & Hnr)%IH. exists c. split; [by right|done].
    + intros [->|(c & Hc & Hnr)%IH]%elem_of_cons.
      * exists c0. split; [by left|done].
      * exists c. split; [by right|set_solver].
Qed.

Lemma entry_unique (entries : list (string * nat)) k c c' :
  NoDup entries.*1 → (k, c) ∈ entries → (k, c') ∈ entries → c = c'.
Proof.
  intros Hnd H1%mapGet_elem_of H2%mapGet_elem_of; [|done..]. congruence.
Qed.

Lemma rootKeys_one_per_component entries nr k1 k2 c :
  NoDup entries.*1 →
  k1 ∈ rootKeys entries nr → k2 ∈ rootKeys entries nr →
  (k1, c) ∈ entries → (k2, c) ∈ entries → k1 = k2.
Proof.
  revert nr. induction entries as [|[node c0] entries IH]; intros nr Hnd;
    cbn [rootKeys].
  - by intros ?%elem_of_nil.
  - pose proof Hnd as Hnd0.
    rewrite fmap_cons in Hnd. apply NoDup_cons in Hnd as [Hnode Hnd]. cbn [fst] in Hnode.
    assert (∀ k nr', k ∈ rootKeys entries nr' → (k, c) ∈ (node, c0) :: entries →
              (k, c) ∈ entries ∧ k ≠ node) as Htail.
    { intros k nr' (c' & Hk & _)%rootKeys_entry Hkc.
      assert (k ≠ node) as Hne.
      { intros ->. apply Hnode, list_elem_of_fmap. by exists (node, c'). }
      apply elem_of_cons in Hkc as [[= -> ->]|Hkc]; done. }
    case_bool_decide as Hc0.
    + intros H1 H2 Hc1 Hc2.
      destruct (Htail k1 nr H1 Hc1) as [Hc1' _].
      destruct (Htail k2 nr H2 Hc2) as [Hc2' _]. by apply (IH nr).
    + intros [->|H1]%elem_of_cons [->|H2]%elem_of_cons Hc1 Hc2; [done| | |].
      * exfalso. destruct (Htail k2 _ H2 Hc2) as [Hc2' _].
        assert (c = c0) as -> by (eapply (entry_unique _ node); [exact Hnd0|done|by left]).
        apply rootKeys_entry in H2 as (c' & Hk2 & Hnr).
        assert (c' = c0) as -> by (by eapply (entry_unique entries k2)).
        set_solver.
      * exfalso. destruct (Htail k1 _ H1 Hc1) as [Hc1' _].
        assert (c = c0) as -> by (eapply (entry_unique _ node); [exact Hnd0|done|by left]).
        apply rootKeys_entry in H1 as (c' & Hk1 & Hnr).
        assert (c' = c0) as -> by (by eapply (entry_unique entries k1)).
        set_solver.
      * destruct (Htail k1 _ H1 Hc1) as [Hc1' _].
        destruct (Htail k2 _ H2 Hc2) as [Hc2' _]. by apply (IH (nr ∪ {[c0]})).
Qed.

Lemma rootKeys_covers entries nr x c :
  (x, c) ∈ entries → c ∉ nr →
  ∃ k, k ∈ rootKeys entries nr ∧ (k, c) ∈ entries.
Proof.
  revert nr. induction entries as [|[node c0] entries IH]; intros nr; cbn [rootKeys].
  - by intros ?%elem_of_nil.
  - intros Hx Hnr. case_bool_decide as Hc0.
    + apply elem_of_cons in Hx as [[= -> ->]|Hx]; [done|].
      destruct (IH nr Hx Hnr) as (k & Hk & Hkc). exists k. split; [done|by right].
    + destruct (decide (c = c0)) as [->|Hne].
      * exists node. split; by left.
      * apply elem_of_cons in Hx as [[= -> ->]|Hx]; [done|].
        destruct (IH (nr ∪ {[c0]}) Hx) as (k & Hk & Hkc); [set_solver|].
        exists k. split; [by right|by right].
Qed.

Lemma addShape_loop fuel store entries shapes nr shapes' nr' :
  foldM (addShape fuel store) entries (shapes, nr) = Some (shapes', nr') →
  NoDup (shapes.*1 ++ entries.*1) →
  Forall (built fuel store) shapes →
  shapes'.*1 = shapes.*1 ++ rootKeys entries nr
  ∧ Forall (built fuel store) shapes'.
Proof.
  revert shapes nr. induction entries as [|[node c] entries IH];
    intros shapes nr Hrun Hnd Hbuilt.
  - injection Hrun as <- <-. simpl. by rewrite app_nil_r.
  - cbn [foldM] in Hrun. unfold addShape at 1 in Hrun. cbn [fst snd] in Hrun.
    cbn [rootKeys]. rewrite fmap_cons in Hnd. cbn [fst] in Hnd.
    assert (NoDup (shapes.*1 ++ entries.*1)) as Hnd'.
    { apply NoDup_app in Hnd as (H1 & H2 & H3). apply NoDup_cons in H3 as [_ H3].
      apply NoDup_app. split_and!; [done| |done].
      intros x Hx Hx'. apply (H2 x Hx). by right. }
    case_bool_decide as Hc; cbn [negb] in Hrun.
    + by apply IH.
    + destruct (getShape fuel (IdString node) store shapes []) as [[shape p]|] eqn:Hg;
        [|done].
      assert (node ∉ shapes.*1) as Hfresh.
      { apply NoDup_app in Hnd as (_ & H2 & _). intros Hin. apply (H2 node Hin). by left. }
      rewrite mapSet_fresh in Hrun by done.
      destruct (IH _ _ Hrun) as [Hkeys Hb].
      * rewrite fmap_app, <- app_assoc. done.
      * apply Forall_app. split; [done|]. constructor; [|done]. by exists shapes, p.
      * split; [|done]. rewrite Hkeys, fmap_app, <- app_assoc. done.
Qed.

(** The structure of the result of [quadsToShapes]. *)
Lemma quadsToShapes_structure fuel store shapes :
  List.length (nodesOf store) ≤ fuel →
  quadsToShapes fuel store = Some shapes →
  ∃ cm,
    NoDup cm.*1
    ∧ (∀ x, x ∈ cm.*1 ↔ x ∈ nodesOf store)
    ∧ (wfStore store →
       ∀ a b ca cb, mapGet cm a = Some ca → mapGet cm b = Some cb →
         (ca = cb ↔ reach store a b ∧ reach store b a))
    ∧ (∀ a b ca cb, mapGet cm a = Some ca → mapGet cm b = Some cb →
         edge store a b → ca ≤ cb)
    ∧ shapes.*1 = rootKeys cm (demoted store cm)
    ∧ Forall (built fuel store) shapes.
Proof.
  intros Hfuel. rewrite quadsToShapes_unfold.
  destruct (stronglyConnectedComponents_ordered store fuel Hfuel)
    as (cm & -> & Hnd & Hkeys & Hclasses & Hord).
  destruct (foldM _ _ _) as [[shapes' nr']|] eqn:Hloop; [|done].
  intros [= <-]. exists cm. split_and!; [done..| |].
  all: by destruct (addShape_loop _ _ _ _ _ _ _ Hloop).
Qed.

Lemma mapGet_defined {V} (m : list (string * V)) k :
  k ∈ m.*1 ↔ is_Some (mapGet m k).
Proof.
  induction m as [|[k' v'] m IH]; simpl.
  - split; [by intros ?%elem_of_nil|by intros [? ?]].
  - rewrite elem_of_cons, IH. destruct (String.eqb_spec k' k); naive_solver.
Qed.

Lemma edge_subject store a b : edge store a b → a ∈ nodesOf store.
Proof. intros (q & Hq & Hs & _). apply nodesOf_elem_of. by exists q. Qed.

Lemma rootKeys_sublist entries nr : sublist (rootKeys entries nr) entries.*1.
Proof.
  revert nr. induction entries as [|[node c] entries IH]; intros nr; cbn [rootKeys].
  - constructor.
  - rewrite fmap_cons. case_bool_decide; [by apply sublist_cons|by apply sublist_skip].
Qed.

Section Keys.
Context (store : list Quad) (cm : list (string * nat)).
Context (Hwf : wfStore store).
Context (Hnd : NoDup cm.*1).
Context (Hkeys : ∀ x, x ∈ cm.*1 ↔ x ∈ nodesOf store).
Context (Hclasses : ∀ a b ca cb, mapGet cm a = Some ca → mapGet cm b = Some cb →
                      (ca = cb ↔ reach store a b ∧ reach store b a)).
Context (Hord : ∀ a b ca cb, mapGet cm a = Some ca → mapGet cm b = Some cb →
                  edge store a b → ca ≤ cb).

Lemma labelled x : x ∈ nodesOf store → ∃ c, mapGet cm x = Some c.
Proof. intros Hx. by apply Hkeys, mapGet_defined in Hx. Qed.

Lemma labelled_node x c : mapGet cm x = Some c → x ∈ nodesOf store.
Proof. intros Hx. apply Hkeys, mapGet_defined. by eexists. Qed.

Lemma same_component a b ca cb :
  mapGet cm a = Some ca → mapGet cm b = Some cb →
  (ca = cb ↔ mutuallyReachable store a b).
Proof.
  intros Ha Hb. rewrite (Hclasses a b ca cb Ha Hb).
  pose proof (labelled_node _ _ Ha). pose proof (labelled_node _ _ Hb).
  unfold mutuallyReachable. by rewrite !reach_reachable.
Qed.

Lemma reachable_ordered a b ca cb :
  mapGet cm a = Some ca → mapGet cm b = Some cb →
  reachable store a b → ca ≤ cb.
Proof.
  intros Ha Hb Hr. revert ca Ha.
  induction Hr as [x|x y z Hxy Hyz IH]; intros ca Ha.
  - assert (ca = cb) by congruence. lia.
  - assert (y ∈ nodesOf store) as Hy.
    { apply (reachable_source store y z); [done|]. by eapply labelled_node. }
    destruct (labelled y Hy) as [cy Hcy].
    pose proof (Hord x y ca cy Ha Hcy Hxy). pose proof (IH Hb cy Hcy). lia.
Qed.

Lemma root_has_no_entry k c a b :
  mapGet cm k = Some c → c ∉ demoted store cm →
  edge store a b → mutuallyReachable store b k → mutuallyReachable store a k.
Proof.
  intros Hk Hroot Hab Hbk.
  assert (b ∈ nodesOf store) as Hb.
  { destruct Hbk as [Hbk _]. apply (reachable_source store b k); [done|].
    by eapply labelled_node. }
  destruct (labelled b Hb) as [cb Hcb].
  destruct (labelled a (edge_subject _ _ _ Hab)) as [ca Hca].
  assert (cb = c) as -> by (by apply (same_component b k)).
  apply (same_component a k ca c); [done..|].
  destruct (decide (ca = c)) as [|Hne]; [done|exfalso].
  apply Hroot, demoted_elem_of. destruct Hab as (q & Hq & <- & Hl & <-).
  by exists q, ca.
Qed.

Lemma keys_reach_subjects x c :
  mapGet cm x = Some c →
  ∃ k, k ∈ rootKeys cm (demoted store cm) ∧ reachable store k x.
Proof.
  revert x. induction c as [c IH] using lt_wf_ind. intros x Hx.
  destruct (decide (c ∈ demoted store cm)) as [Hin|Hout].
  - apply demoted_elem_of in Hin as (q & cs & Hq & Hl & Hs & Ho & Hne).
    assert (edge store (id (subject q)) (id (object q))) as Hedge by (by exists q).
    pose proof (Hord _ _ _ _ Hs Ho Hedge) as Hle.
    destruct (IH cs ltac:(lia) _ Hs) as (k & Hk & Hr).
    exists k. split; [done|].
    etrans; [exact Hr|]. eapply rtc_l; [exact Hedge|].
    by apply (same_component (id (object q)) x c c).
  - destruct (rootKeys_covers cm (demoted store cm) x c) as (k & Hk & Hkc);
      [by apply mapGet_elem_of|done|].
    exists k. split; [done|].
    apply mapGet_elem_of in Hkc; [|done].
    by apply (same_component k x c c).
Qed.

Lemma keys_are_apart k1 k2 :
  k1 ∈ rootKeys cm (demoted store cm) → k2 ∈ rootKeys cm (demoted store cm) →
  mutuallyReachable store k1 k2 → k1 = k2.
Proof.
  intros H1 H2 Hm.
  destruct (rootKeys_entry _ _ _ H1) as (c1 & Hc1 & _).
  destruct (rootKeys_entry _ _ _ H2) as (c2 & Hc2 & _).
  assert (c1 = c2) as ->.
  { apply (same_component k1 k2); [by apply mapGet_elem_of..|done]. }
  by apply (rootKeys_one_per_component cm (demoted store cm) k1 k2 c2).
Qed.

End Keys.

Lemma shapesOf_Some store shapes :
  SchemaValidator.shapesOf store = Ok shapes →
  quadsToShapes (2 + List.length store) store = Some shapes
  ∧ List.length (nodesOf store) ≤ 2 + List.length store.
Proof.
  unfold SchemaValidator.shapesOf.
  destruct (quadsToShapes _ store) as [s|]; [|done]. intros [= ->].
  split; [done|]. pose proof (nodesOf_length store). lia.
Qed.

Lemma shape_closure store shapes k shape :
  wfStore store → SchemaValidator.shapesOf store = Ok shapes →
  (k, shape) ∈ shapes →
  ∃ st, shape = Some st
        ∧ noRepeat st
        ∧ (∀ q, q ∈ st → q ∈ store ∧ reachable store k (id (subject q)))
        ∧ (∀ q, q ∈ store → reachable store k (id (subject q)) → holds st q).
Proof.
  intros Hwf [Hrun Hfuel]%shapesOf_Some Hin.
  destruct (quadsToShapes_structure _ _ _ Hfuel Hrun)
    as (cm & Hnd & Hkeys & Hclasses & Hord & Hroots & Hbuilt).
  rewrite Forall_forall in Hbuilt.
  destruct (Hbuilt _ Hin) as (shapes0 & parsed' & Hg). cbn [fst snd] in Hg.
  destruct (getShape_closure store Hwf _ _ _ _ _ Hg) as (Hnone & Hsound & Hcomplete).
  assert (k ∈ nodesOf store) as (q & Hq & Hs)%nodesOf_elem_of.
  { apply Hkeys. eapply sublist_member_of; [apply rootKeys_sublist|].
    rewrite <- Hroots. apply list_elem_of_fmap. by exists (k, shape). }
  destruct shape as [st|]; [|by destruct (Hnone eq_refl q Hq)].
  exists st. split_and!; [done| |done..].
  by eapply getShape_noRepeat.
Qed.

End ClosureFacts.

(** ** quadsToShapes *)
Module ShapeProps.
Import JS Rdf Utils Graph GraphFacts Shapes ShapeFacts Notions OrderFacts.
Import ClosureFacts Examples Inputs.

(** X17: the decomposer numbers the components along the edges: when a
    labelled id reaches another one, its ComponentId is not greater, and it
    is smaller when the second id does not reach back (the store being one
    whose literal ids are ids of no subject). *)
Theorem components_are_numbered_along_edges (store : list Quad) (fuel : nat) :
  List.length (nodesOf store) ≤ fuel →
  ∃ components,
    stronglyConnectedComponents fuel store = Some components
    ∧ (∀ a b ca cb,
         mapGet components a = Some ca → mapGet components b = Some cb →
         reachable store a b → ca ≤ cb)
    ∧ (wfStore store →
       ∀ a b ca cb,
         mapGet components a = Some ca → mapGet components b = Some cb →
         reachable store a b → ¬ reachable store b a → ca < cb).
Proof.
  intros Hfuel.
  destruct (stronglyConnectedComponents_ordered store fuel Hfuel)
    as (cm & Hrun & Hnd & Hkeys & Hclasses & Hord).
  exists cm. split_and!; [done| |].
  - intros a b ca cb. by apply reachable_ordered.
  - intros Hwf a b ca cb Ha Hb Hab Hba.
    pose proof (reachable_ordered store cm Hkeys Hord a b ca cb Ha Hb Hab) as Hle.
    destruct (decide (ca = cb)) as [Heq|Hne]; [exfalso|lia].
    apply (same_component store cm Hkeys (Hclasses Hwf) a b ca cb Ha Hb) in Heq.
    by destruct Heq.
Qed.

Lemma components_are_numbered_along_edges_witness :
  ∃ components,
    stronglyConnectedComponents 4 chainStore = Some components
    ∧ (∀ a b ca cb,
         mapGet components a = Some ca → mapGet components b = Some cb →
         reachable chainStore a b → ca ≤ cb)
    ∧ (wfStore chainStore →
       ∀ a b ca cb,
         mapGet components a = Some ca → mapGet components b = Some cb →
         reachable chainStore a b → ¬ reachable chainStore b a → ca < cb).
Proof.
  apply (components_are_numbered_along_edges chainStore 4). vm_compute. lia.
Defined.

(** X18: the keys of the map that [quadsToShapes] returns are distinct ids
    of subjects; no triple leads from outside the component of a key into
    it, and two different keys are never in one component. *)
Theorem shape_keys_are_roots (store : list Quad)
  (shapes : list (string * option (list Quad))) :
  wfStore store → SchemaValidator.shapesOf store = Ok shapes →
  NoDup shapes.*1
  ∧ (∀ k, k ∈ shapes.*1 →
       (∃ q, q ∈ store ∧ id (subject q) = k)
       ∧ ∀ a b, edge store a b → mutuallyReachable store b k →
           mutuallyReachable store a k)
  ∧ (∀ k1 k2, k1 ∈ shapes.*1 → k2 ∈ shapes.*1 →
       mutuallyReachable store k1 k2 → k1 = k2).
Proof.
  intros Hwf [Hrun Hfuel]%shapesOf_Some.
  destruct (quadsToShapes_structure _ _ _ Hfuel Hrun)
    as (cm & Hnd & Hkeys & Hclasses & Hord & Hroots & _).
  rewrite Hroots. split_and!.
  - eapply sublist_NoDup; [exact Hnd|apply rootKeys_sublist].
  - intros k Hk. destruct (rootKeys_entry _ _ _ Hk) as (c & Hc & Hroot).
    apply mapGet_elem_of in Hc; [|done]. split.
    + apply nodesOf_elem_of. by eapply labelled_node.
    + intros a b. by apply (root_has_no_entry store cm Hkeys (Hclasses Hwf) k c).
  - intros k1 k2. by apply (keys_are_apart store cm Hnd Hkeys (Hclasses Hwf)).
Qed.

Lemma shape_keys_are_roots_witness :
  NoDup chainShapes.*1
  ∧ (∀ k, k ∈ chainShapes.*1 →
       (∃ q, q ∈ chainStore ∧ id (subject q) = k)
       ∧ ∀ a b, edge chainStore a b → mutuallyReachable chainStore b k →
           mutuallyReachable chainStore a k)
  ∧ (∀ k1 k2, k1 ∈ chainShapes.*1 → k2 ∈ chainShapes.*1 →
       mutuallyReachable chainStore k1 k2 → k1 = k2).
Proof.
  apply (shape_keys_are_roots chainStore chainShapes).
  - apply wfStoreb_sound. reflexivity.
  - reflexivity.
Defined.

(** X19: the shape stored under a key holds exactly the triples of the
    document whose subject the key reaches along the edges of the store
    (the key itself included), each of them once. *)
Theorem shape_holds_what_its_key_reaches (store : list Quad)
  (shapes : list (string * option (list Quad))) :
  wfStore store → SchemaValidator.shapesOf store = Ok shapes →
  ∀ k shape, (k, shape) ∈ shapes →
    ∃ st, shape = Some st
          ∧ noRepeat st
          ∧ (∀ q, q ∈ st → q ∈ store ∧ reachable store k (id (subject q)))
          ∧ (∀ q, q ∈ store → reachable store k (id (subject q)) →
               ∃ q', q' ∈ st ∧ sameQuad q q' = true).
Proof. intros Hwf Hrun k shape. by apply shape_closure. Qed.

Lemma shape_holds_what_its_key_reaches_witness :
  ∃ st, chainShape = Some st
        ∧ noRepeat st
        ∧ (∀ q, q ∈ st → q ∈ chainStore ∧ reachable chainStore "D" (id (subject q)))
        ∧ (∀ q, q ∈ chainStore → reachable chainStore "D" (id (subject q)) →
             ∃ q', q' ∈ st ∧ sameQuad q q' = true).
Proof.
  apply (shape_holds_what_its_key_reaches chainStore chainShapes).
  - apply wfStoreb_sound. reflexivity.
  - reflexivity.
  - apply list_elem_of_here.
Defined.

(** X20: [quadsToShapes] loses nothing: every subject of the document is
    reached from one of the keys, and every triple of the document is held
    by the shape of at least one key. *)
Theorem every_triple_is_in_a_shape (store : list Quad)
  (shapes : list (string * option (list Quad))) :
  wfStore store → SchemaValidator.shapesOf store = Ok shapes →
  ∀ q, q ∈ store →
    ∃ k st, (k, Some st) ∈ shapes
            ∧ reachable store k (id (subject q))
            ∧ ∃ q', q' ∈ st ∧ sameQuad q q' = true.
Proof.
  intros Hwf Hshapes q Hq. pose proof Hshapes as [Hrun Hfuel]%shapesOf_Some.
  destruct (quadsToShapes_structure _ _ _ Hfuel Hrun)
    as (cm & Hnd & Hkeys & Hclasses & Hord & Hroots & _).
  destruct (labelled store cm Hkeys (id (subject q))) as [c Hc].
  { apply nodesOf_elem_of. by exists q. }
  destruct (keys_reach_subjects store cm Hnd Hkeys (Hclasses Hwf) Hord _ _ Hc)
    as (k & Hk & Hr).
  rewrite <- Hroots in Hk. apply list_elem_of_fmap in Hk as ([k' shape] & -> & Hin).
  cbn [fst] in *.
  destruct (shape_closure store shapes k' shape Hwf Hshapes Hin)
    as (st & -> & _ & _ & Hcomplete).
  exists k', st. split_and!; [done..|]. by apply Hcomplete.
Qed.

Lemma every_triple_is_in_a_shape_witness :
  ∃ k st, (k, Some st) ∈ chainShapes
          ∧ reachable chainStore k (id (subject (triple "B" "p" "C")))
          ∧ ∃ q', q' ∈ st ∧ sameQuad (triple "B" "p" "C") q' = true.
Proof.
  apply (every_triple_is_in_a_shape chainStore chainShapes).
  - apply wfStoreb_sound. reflexivity.
  - reflexivity.
  - apply list_elem_of_further, list_elem_of_here.
Defined.

End ShapeProps.

(** ** The table of the audit *)
Module AuditFacts.
Import JS Utils StructuredData Notions ValidatorProps.

(** *** The rows *)

Lemma formatElement_outcome toUpperCase element :
  match formatElement toUpperCase element with
  | Ok row =>
      ∃ node, getField element "node" = Some node
              ∧ is_Some (orElse (getField element "severityLabel")
                           (getField element "severity"))
              ∧ nodeKey row = removeUrls node
  | Throw e =>
      (∃ msg, e = TypeError msg)
      ∧ (getField element "node" = None
         ∨ orElse (getField element "severityLabel") (getField element "severity")
           = None)
  end.
Proof.
  unfold formatElement.
  set (e1 := if truthy (getField element "message") then _ else element).
  set (e2 := if truthy (getField e1 "property") then _ else e1).
  assert (∀ k, k ≠ "message" → k ≠ "property" → getField e2 k = getField element k)
    as Hsame.
  { intros k H1 H2. unfold e2, e1.
    destruct (truthy (getField element "message"));
      destruct (truthy (getField _ "property"));
      rewrite ?getField_insert_ne by done; done. }
  cbv zeta. rewrite (Hsame "node") by done.
  destruct (getField element "node") as [node|] eqn:Hnode;
    [|split; [by eexists|by left]].
  rewrite !(getField_insert_ne _ "node") by done.
  rewrite (Hsame "severityLabel"), (Hsame "severity") by done.
  destruct (orElse (getField element "severityLabel") (getField element "severity"))
    as [label|] eqn:Hlabel; [|split; [by eexists|by right]].
  exists node. split_and!; [done|done|].
  unfold nodeKey. rewrite lookup_insert_ne by done.
  rewrite lookup_fmap, lookup_insert_ne by done. by rewrite lookup_insert_eq.
Qed.

Lemma formatRows_spec toUpperCase report acc rows :
  forM (λ rows element, row ← formatElement toUpperCase element; Ok (rows ++ [row]))
    report acc = Ok rows ↔
  ∃ new, Forall2 (λ element row, formatElement toUpperCase element = Ok row) report new
         ∧ rows = acc ++ new.
Proof.
  revert acc. induction report as [|element report IH]; intros acc; cbn [forM].
  - split.
    + intros [= <-]. exists []. split; [constructor|by rewrite app_nil_r].
    + intros (new & Hnew & ->). apply Forall2_nil_inv_l in Hnew as ->.
      by rewrite app_nil_r.
  - destruct (formatElement toUpperCase element) as [row|e] eqn:Hrow;
      cbn [mbind Result_bind bind].
    + rewrite IH. split.
      * intros (new & Hnew & ->). exists (row :: new). split; [by constructor|].
        by rewrite <- app_assoc.
      * intros (new & Hnew & ->).
        apply Forall2_cons_inv_l in Hnew as (r & new' & Hr & Hnew & ->).
        assert (r = row) as -> by congruence.
        exists new'. split; [done|]. by rewrite <- app_assoc.
    + split; [done|]. intros (new & Hnew & _).
      apply Forall2_cons_inv_l in Hnew as (r & new' & Hr & _). congruence.
Qed.

Lemma formatRows_error toUpperCase report acc e :
  forM (λ rows element, row ← formatElement toUpperCase element; Ok (rows ++ [row]))
    report acc = Throw e →
  (∃ msg, e = TypeError msg)
  ∧ ∃ element, element ∈ report
               ∧ (getField element "node" = None
                  ∨ orElse (getField element "severityLabel")
                      (getField element "severity") = None).
Proof.
  revert acc. induction report as [|element report IH]; intros acc; cbn [forM]; [done|].
  pose proof (formatElement_outcome toUpperCase element) as Hout.
  destruct (formatElement toUpperCase element) as [row|e'];
    cbn [mbind Result_bind bind].
  - intros (Hmsg & el & Hel & Hbad)%IH. split; [done|]. exists el. split; [by right|done].
  - intros [= ->]. destruct Hout as [Hmsg Hbad]. split; [done|].
    exists element. split; [by left|done].
Qed.

(** *** The groups *)

Lemma mapGet_mapSet {V} (m : list (string * V)) k v k' :
  mapGet (mapSet m k v) k' = if String.eqb k k' then Some v else mapGet m k'.
Proof.
  induction m as [|[k0 v0] m IH]; simpl.
  - done.
  - destruct (String.eqb_spec k0 k) as [->|Hne]; simpl.
    + destruct (String.eqb_spec k k'); done.
    + rewrite IH. destruct (String.eqb_spec k0 k') as [->|]; [|done].
      by rewrite (proj2 (String.eqb_neq k k')) by done.
Qed.

Lemma mapSet_keys_present {V} (m : list (string * V)) k v :
  k ∈ m.*1 → (mapSet m k v).*1 = m.*1.
Proof.
  induction m as [|[k0 v0] m IH]; [by intros ?%elem_of_nil|].
  cbn [mapSet]. rewrite fmap_cons. cbn [fst].
  destruct (String.eqb_spec k0 k) as [->|Hne]; [by rewrite fmap_cons|].
  intros [?|Hin]%elem_of_cons; [congruence|].
  rewrite fmap_cons. cbn [fst]. f_equal. by apply IH.
Qed.

Lemma mapGet_key {V} (m : list (string * V)) k :
  k ∈ m.*1 ↔ is_Some (mapGet m k).
Proof.
  induction m as [|[k' v'] m IH]; simpl.
  - split; [by intros ?%elem_of_nil|by intros [? ?]].
  - rewrite elem_of_cons, IH. destruct (String.eqb_spec k' k); naive_solver.
Qed.

Lemma mapGet_member {V} (m : list (string * V)) k v :
  NoDup m.*1 → mapGet m k = Some v ↔ (k, v) ∈ m.
Proof.
  induction m as [|[k' v'] m IH]; intros Hnd; simpl.
  - split; [done|]. intros Hin. by apply elem_of_nil in Hin.
  - rewrite fmap_cons in Hnd. apply NoDup_cons in Hnd as [Hk' Hnd].
    rewrite elem_of_cons. destruct (String.eqb_spec k' k) as [->|Hne].
    + split; [intros [= ->]; by left|].
      intros [[= ->]|Hin]; [done|]. exfalso. apply Hk'.
      apply list_elem_of_fmap. by exists (k, v).
    + rewrite IH by done. naive_solver.
Qed.

Lemma mapSet_keys_fresh {V} (m : list (string * V)) k v :
  k ∉ m.*1 → mapSet m k v = m ++ [(k, v)].
Proof.
  induction m as [|[k' v'] m IH]; intros Hk; simpl; [done|].
  rewrite fmap_cons, not_elem_of_cons in Hk. destruct Hk as [Hne Hk].
  simpl in Hne. destruct (String.eqb_spec k' k); [congruence|].
  by rewrite IH.
Qed.

Lemma mapSet_NoDup {V} (m : list (string * V)) k v :
  NoDup m.*1 → NoDup (mapSet m k v).*1.
Proof.
  intros Hnd. destruct (decide (k ∈ m.*1)) as [Hin|Hout].
  - by rewrite mapSet_keys_present.
  - rewrite mapSet_keys_fresh, fmap_app by done. apply NoDup_app.
    split_and!; [done| |apply NoDup_singleton].
    intros x Hx Hx'%list_elem_of_singleton. by subst x.
Qed.

Lemma groupBy_loop rows acc res :
  forM groupBy rows acc = Ok res → NoDup acc.*1 →
  NoDup res.*1
  ∧ ∀ k, mapGet res k
         = match mapGet acc k, rowsOf k rows with
           | Some old, new => Some (old ++ new)
           | None, [] => None
           | None, new => Some new
           end.
Proof.
  revert acc. induction rows as [|row rows IH]; intros acc Hrun Hnd.
  - injection Hrun as <-. split; [done|]. intros k. cbn [rowsOf List.filter].
    destruct (mapGet acc k); [by rewrite app_nil_r|done].
  - cbn [forM] in Hrun. unfold groupBy at 1 in Hrun.
    assert (∀ acc1 v,
              forM groupBy rows acc1 = Ok res → acc1 = mapSet acc (nodeKey row) v →
              (∀ old, mapGet acc (nodeKey row) = Some old → v = old ++ [row]) →
              (mapGet acc (nodeKey row) = None → v = [row]) →
              NoDup res.*1
              ∧ ∀ k, mapGet res k
                     = match mapGet acc k, rowsOf k (row :: rows) with
                       | Some old, new => Some (old ++ new)
                       | None, [] => None
                       | None, new => Some new
                       end) as Hstep.
    { intros acc1 v Hrest -> Hold Hnew.
      destruct (IH _ Hrest (mapSet_NoDup _ _ _ Hnd)) as [Hnd' Hget].
      split; [done|]. intros k. rewrite Hget, mapGet_mapSet.
      unfold rowsOf. cbn [List.filter].
      destruct (String.eqb_spec (nodeKey row) k) as [<-|Hne].
      - destruct (mapGet acc (nodeKey row)) as [old|] eqn:Hacc.
        + rewrite (Hold old eq_refl), <- app_assoc. done.
        + by rewrite (Hnew eq_refl).
      - done. }
    destruct (mapGet acc (nodeKey row)) as [old|] eqn:Hacc.
    + cbn [bind] in Hrun. eapply Hstep; [exact Hrun|done| |done].
      by intros ? [= <-].
    + case_bool_decide; [done|]. cbn [bind] in Hrun.
      eapply Hstep; [exact Hrun|done|done|done].
Qed.

Lemma groupBy_returns rows acc :
  (∀ k, k ∈ acc.*1 → k ∉ objectPrototypeNames) →
  (∃ res, forM groupBy rows acc = Ok res)
  ↔ ∀ row, row ∈ rows → nodeKey row ∉ objectPrototypeNames.
Proof.
  revert acc. induction rows as [|row rows IH]; intros acc Hacc.
  - split; [by intros _ row ?%elem_of_nil|]. intros _. by eexists.
  - cbn [forM]. unfold groupBy at 1.
    assert (∀ v, (∀ k, k ∈ (mapSet acc (nodeKey row) v).*1 → k ∉ objectPrototypeNames)
                 ↔ nodeKey row ∉ objectPrototypeNames) as Hkeys.
    { intros v. destruct (decide (nodeKey row ∈ acc.*1)) as [Hin|Hout].
      - rewrite mapSet_keys_present by done. split; [intros _; by apply Hacc|done].
      - rewrite mapSet_keys_fresh, fmap_app by done. split.
        + intros H. apply H. apply elem_of_app. right. by left.
        + intros H k [Hk|Hk%list_elem_of_singleton]%elem_of_app;
            [by apply Hacc|by subst k]. }
    destruct (mapGet acc (nodeKey row)) as [old|] eqn:Hold.
    + cbn [bind]. assert (nodeKey row ∉ objectPrototypeNames) as Hrow.
      { apply Hacc, mapGet_key. by eexists. }
      rewrite IH by (by apply Hkeys). split.
      * intros H r [->|Hr]%elem_of_cons; auto.
      * intros H r Hr. apply H. by right.
    + case_bool_decide as Hproto.
      * split; [by intros [? ?]|]. intros H. destruct (H row); [by left|done].
      * cbn [bind]. rewrite IH by (by apply Hkeys). split.
        -- intros H r [->|Hr]%elem_of_cons; auto.
        -- intros H r Hr. apply H. by right.
Qed.

Lemma groupBy_error rows acc e :
  forM groupBy rows acc = Throw e → ∃ msg, e = TypeError msg.
Proof.
  revert acc. induction rows as [|row rows IH]; intros acc; cbn [forM]; [done|].
  unfold groupBy at 1. destruct (mapGet acc (nodeKey row)).
  - apply IH.
  - case_bool_decide; [|apply IH]. intros [= <-]. by eexists.
Qed.

(** *** The entries of an object *)

Lemma insertByIndex_perm {V} n (entry : string * V) l :
  insertByIndex n entry l ≡ₚ (n, entry) :: l.
Proof.
  induction l as [|[m e] l IH]; simpl; [done|].
  destruct (n <? m)%N; [done|]. rewrite IH. apply Permutation_swap.
Qed.

Lemma objectEntries_perm {V} (o : list (string * V)) : objectEntries o ≡ₚ o.
Proof.
  unfold objectEntries.
  assert (∀ (l : list (string * V)) sorted,
            map snd
              (foldl (λ sorted entry,
                        match arrayIndex entry.1 with
                        | Some n => insertByIndex n entry sorted
                        | None => sorted
                        end) sorted l)
            ≡ₚ map snd sorted
               ++ List.filter (λ entry, bool_decide (is_Some (arrayIndex entry.1))) l)
    as Hsorted.
  { induction l as [|entry l IH]; intros sorted; cbn [foldl List.filter].
    - by rewrite app_nil_r.
    - rewrite IH. destruct (arrayIndex entry.1) as [n|] eqn:Hn.
      + rewrite bool_decide_eq_true_2 by (by eexists).
        rewrite insertByIndex_perm. simpl. by rewrite Permutation_middle.
      + rewrite bool_decide_eq_false_2 by (by intros [? ?]). done. }
  rewrite Hsorted. simpl.
  induction o as [|entry o IH]; [done|]. cbn [List.filter].
  destruct (bool_decide (is_Some (arrayIndex entry.1))); simpl.
  - by rewrite IH.
  - rewrite <- Permutation_middle. by rewrite IH.
Qed.

End AuditFacts.

(** ** The audit *)
Module AuditProps.
Import JS Utils SchemaValidator StructuredData Notions ValidatorProps AuditFacts.
Import ReportProps.

Lemma score_value errorsCount warningsCount :
  let points := (100 - Z.of_nat errorsCount * 10 - Z.of_nat warningsCount * 5)%Z in
  score errorsCount warningsCount = QArith_base.Qmake 1 100
  ∧ (points ≤ 1)%Z
  ∨ score errorsCount warningsCount
    = QArith_base.Qdiv (QArith_base.inject_Z points) (QArith_base.inject_Z 100)
    ∧ (1 < points)%Z.
Proof.
  intros points. unfold score. fold points.
  destruct (QArith_base.Qlt_le_dec _ _) as [Hlt|Hle].
  - right. split; [done|].
    unfold QArith_base.Qlt, QArith_base.Qdiv, QArith_base.Qmult,
      QArith_base.Qinv, QArith_base.inject_Z in Hlt.
    simpl in Hlt. lia.
  - left. split; [done|].
    unfold QArith_base.Qle, QArith_base.Qdiv, QArith_base.Qmult,
      QArith_base.Qinv, QArith_base.inject_Z in Hle.
    simpl in Hle. lia.
Qed.

(** X21: the score lies between 0.01 and 1; it is 1 exactly when the report
    has neither an error nor a warning, it is 0.01 as soon as there are ten
    errors, and more errors or warnings never raise it. *)
Theorem score_bounds (errorsCount warningsCount : nat) :
  QArith_base.Qle (QArith_base.Qmake 1 100) (score errorsCount warningsCount)
  ∧ QArith_base.Qle (score errorsCount warningsCount) (QArith_base.inject_Z 1)
  ∧ (QArith_base.Qeq (score errorsCount warningsCount) (QArith_base.inject_Z 1)
     ↔ errorsCount = 0 ∧ warningsCount = 0)
  ∧ (10 ≤ errorsCount →
     QArith_base.Qeq (score errorsCount warningsCount) (QArith_base.Qmake 1 100))
  ∧ ∀ errorsCount' warningsCount',
      errorsCount ≤ errorsCount' → warningsCount ≤ warningsCount' →
      QArith_base.Qle (score errorsCount' warningsCount')
        (score errorsCount warningsCount).
Proof.
  pose proof (score_value errorsCount warningsCount) as Hv. cbv zeta in Hv.
  split_and!.
  - destruct Hv as [[-> Hp]|[-> Hp]];
      unfold QArith_base.Qle, QArith_base.Qdiv, QArith_base.Qmult,
        QArith_base.Qinv, QArith_base.inject_Z; simpl; lia.
  - destruct Hv as [[-> Hp]|[-> Hp]];
      unfold QArith_base.Qle, QArith_base.Qdiv, QArith_base.Qmult,
        QArith_base.Qinv, QArith_base.inject_Z; simpl; lia.
  - destruct Hv as [[-> Hp]|[-> Hp]];
      unfold QArith_base.Qeq, QArith_base.Qdiv, QArith_base.Qmult,
        QArith_base.Qinv, QArith_base.inject_Z; simpl; lia.
  - intros Hten. destruct Hv as [[-> Hp]|[-> Hp]];
      unfold QArith_base.Qeq, QArith_base.Qdiv, QArith_base.Qmult,
        QArith_base.Qinv, QArith_base.inject_Z; simpl; lia.
  - intros e' w' He Hw.
    pose proof (score_value e' w') as Hv'. cbv zeta in Hv'.
    destruct Hv as [[-> Hp]|[-> Hp]]; destruct Hv' as [[-> Hp']|[-> Hp']];
      unfold QArith_base.Qle, QArith_base.Qdiv, QArith_base.Qmult,
        QArith_base.Qinv, QArith_base.inject_Z; simpl; lia.
Qed.

Lemma reportToTable_unfold toUpperCase report :
  reportToTable toUpperCase report
  = (rows ← forM (λ rows element,
                    row ← formatElement toUpperCase element; Ok (rows ++ [row]))
               report [];
     groupedByNode ← forM groupBy rows [];
     Ok (map tableItem (objectEntries groupedByNode))).
Proof. reflexivity. Qed.

(** X22: when [reportToTable] returns, its items are, in some order, one
    item per distinct node of the rewritten elements: the item of a node
    holds the rows of that node in the order of the report, as the bare
    array when the node is the empty string and as a group named after the
    node otherwise. No row is lost and none is in two items. *)
Theorem reportToTable_groups_rows_by_node (toUpperCase : string → string)
  (report : list (gmap string jstr)) (items : list TableItem) :
  reportToTable toUpperCase report = Ok items →
  ∃ rows groupedByNode,
    Forall2 (λ element row, formatElement toUpperCase element = Ok row) report rows
    ∧ NoDup groupedByNode.*1
    ∧ (∀ key value, (key, value) ∈ groupedByNode ↔
         value ≠ [] ∧ value = rowsOf key rows)
    ∧ items ≡ₚ map tableItem groupedByNode.
Proof.
  rewrite reportToTable_unfold.
  destruct (forM _ report []) as [rows|e] eqn:Hrows; [|done].
  cbn [mbind Result_bind bind].
  destruct (forM groupBy rows []) as [res|e] eqn:Hres; [|done].
  cbn [bind]. intros [= <-].
  apply formatRows_spec in Hrows as (new & Hnew & ->). cbn [app] in *.
  destruct (groupBy_loop _ _ _ Hres) as [Hnd Hget]; [constructor|].
  exists new, res. split_and!; [done|done| |].
  - intros key value. rewrite <- mapGet_member by done. rewrite Hget. cbn [mapGet].
    destruct (rowsOf key new) as [|r rs]; [|split].
    + split; [done|]. by intros [? ->].
    + by intros [= <-].
    + by intros [_ ->].
  - by rewrite objectEntries_perm.
Qed.

Lemma reportToTable_groups_rows_by_node_witness :
  ∃ rows groupedByNode,
    Forall2 (λ element row, formatElement (λ s, s) element = Ok row)
      [Examples.thingFailure] rows
    ∧ NoDup groupedByNode.*1
    ∧ (∀ key value, (key, value) ∈ groupedByNode ↔
         value ≠ [] ∧ value = rowsOf key rows)
    ∧ Inputs.thingTable ≡ₚ map tableItem groupedByNode.
Proof.
  apply (reportToTable_groups_rows_by_node (λ s, s) [Examples.thingFailure]
           Inputs.thingTable).
  reflexivity.
Defined.

Lemma formatted_formattable toUpperCase element row :
  formatElement toUpperCase element = Ok row →
  is_Some (getField element "node")
  ∧ is_Some (orElse (getField element "severityLabel") (getField element "severity"))
  ∧ nodeKey row = removeUrls (toString (getField element "node")).
Proof.
  intros Hrow. pose proof (formatElement_outcome toUpperCase element) as Hout.
  rewrite Hrow in Hout. destruct Hout as (node & Hnode & Hlabel & Hkey).
  rewrite Hnode. split_and!; [by eexists|done|done].
Qed.

Lemma reportToTable_result toUpperCase report :
  match reportToTable toUpperCase report with
  | Ok _ => Forall formattable report
  | Throw e => (∃ msg, e = TypeError msg) ∧ ¬ Forall formattable report
  end.
Proof.
  rewrite reportToTable_unfold.
  destruct (forM _ report []) as [rows|e] eqn:Hrows; cbn [mbind Result_bind bind].
  - apply formatRows_spec in Hrows as (new & Hnew & ->). cbn [app].
    assert ((∃ res, forM groupBy new [] = Ok res)
            ↔ ∀ row, row ∈ new → nodeKey row ∉ objectPrototypeNames) as Hret.
    { apply groupBy_returns. intros k Hk. simpl in Hk. by apply elem_of_nil in Hk. }
    assert ((∀ row, row ∈ new → nodeKey row ∉ objectPrototypeNames)
            ↔ Forall formattable report) as Hiff.
    { rewrite Forall_forall. split.
      - intros H element Hel. apply list_elem_of_lookup in Hel as [i Hi].
        destruct (Forall2_lookup_l _ _ _ _ _ Hnew Hi) as (row & Hrow & Hfmt).
        destruct (formatted_formattable _ _ _ Hfmt) as (? & ? & Hkey).
        split_and!; [done..|]. rewrite <- Hkey. apply H.
        by eapply list_elem_of_lookup_2.
      - intros H row Hrow. apply list_elem_of_lookup in Hrow as [i Hi].
        destruct (Forall2_lookup_r _ _ _ _ _ Hnew Hi) as (element & Hel & Hfmt).
        destruct (formatted_formattable _ _ _ Hfmt) as (_ & _ & ->).
        apply (H element). by eapply list_elem_of_lookup_2. }
    destruct (forM groupBy new []) as [res|e] eqn:Hres; cbn [bind].
    + exact (proj1 Hiff (proj1 Hret (ex_intro _ res eq_refl))).
    + split; [by eapply groupBy_error|].
      intros Hall. destruct (proj2 Hret (proj2 Hiff Hall)) as [res Hok]. congruence.
  - apply formatRows_error in Hrows as (Hmsg & element & Hel & Hbad). split; [done|].
    rewrite Forall_forall. intros H. destruct (H element Hel) as ([n Hn] & [l Hl] & _).
    destruct Hbad; congruence.
Qed.

(** X23: [reportToTable] returns exactly when every element has a node and
    a severity label or a severity to print, and no node, once rewritten, is
    the name of a property that objects inherit (such as [constructor]);
    otherwise it ends with a TypeError. *)
Theorem reportToTable_outcome (toUpperCase : string → string)
  (report : list (gmap string jstr)) :
  match reportToTable toUpperCase report with
  | Ok _ =>
      Forall (λ element,
                is_Some (getField element "node")
                ∧ is_Some (orElse (getField element "severityLabel")
                             (getField element "severity"))
                ∧ removeUrls (toString (getField element "node"))
                  ∉ objectPrototypeNames) report
  | Throw e =>
      (∃ msg, e = TypeError msg)
      ∧ ¬ Forall (λ element,
                    is_Some (getField element "node")
                    ∧ is_Some (orElse (getField element "severityLabel")
                                 (getField element "severity"))
                    ∧ removeUrls (toString (getField element "node"))
                      ∉ objectPrototypeNames) report
  end.
Proof. apply reportToTable_result. Qed.

(** X29: the row that [reportToTable] makes of an element: [node] is
    stripped of URLs, and so are [property] and the message when they are
    not empty; the new message is the upper-cased severity label (or, for
    want of it, the severity), a colon, a line break and eight spaces, the
    message, a full stop and the description; [url] becomes a link whose
    text is the service; every other field is kept. *)
Theorem formatElement_rewrites_fields (toUpperCase : string → string)
  (element : gmap string jstr) (row : gmap string Cell) :
  formatElement toUpperCase element = Ok row →
  ∃ node label,
    getField element "node" = Some node
    ∧ orElse (getField element "severityLabel") (getField element "severity")
      = Some label
    ∧ row !! "node" = Some (Text (Some (removeUrls node)))
    ∧ hasUrl (chars (removeUrls node)) = false
    ∧ row !! "property"
      = (if truthy (getField element "property")
         then Some (Text (Some (removeUrls (toString (getField element "property")))))
         else Text <$> element !! "property")
    ∧ row !! "message"
      = Some (Text (Some
          (toUpperCase label +:+ ":" +:+ String "010" "        "
           +:+ (if truthy (getField element "message")
                then removeUrls (toString (getField element "message"))
                else toString (getField element "message"))
           +:+ ". " +:+ orEmpty (getField element "description"))))
    ∧ row !! "url"
      = Some (Link (getField element "service") (getField element "url"))
    ∧ ∀ k, k ∉ ["message"; "property"; "node"; "url"] →
        row !! k = Text <$> element !! k.
Proof.
  unfold formatElement.
  set (e1 := if truthy (getField element "message") then _ else element).
  set (e2 := if truthy (getField e1 "property") then _ else e1).
  assert (∀ k, k ≠ "message" → e1 !! k = element !! k) as H1.
  { intros k Hk. unfold e1. destruct (truthy (getField element "message")); [|done].
    by rewrite lookup_insert_ne. }
  assert (getField e1 "property" = getField element "property") as Hprop.
  { unfold getField. by rewrite H1. }
  assert (∀ k, k ≠ "property" → e2 !! k = e1 !! k) as H2.
  { intros k Hk. unfold e2. destruct (truthy (getField e1 "property")); [|done].
    by rewrite lookup_insert_ne. }
  assert (∀ k, k ≠ "message" → k ≠ "property" → getField e2 k = getField element k)
    as Hsame.
  { intros k Hm Hp. unfold getField. by rewrite H2, H1. }
  assert (toString (getField e2 "message")
          = if truthy (getField element "message")
            then removeUrls (toString (getField element "message"))
            else toString (getField element "message")) as Hmsg.
  { unfold getField at 1. rewrite H2 by done. unfold e1.
    destruct (truthy (getField element "message")); [|done].
    by rewrite lookup_insert_eq. }
  assert (e2 !! "property"
          = if truthy (getField element "property")
            then Some (Some (removeUrls (toString (getField element "property"))))
            else element !! "property") as Hp2.
  { unfold e2. rewrite Hprop. destruct (truthy (getField element "property")).
    - by rewrite lookup_insert_eq.
    - by apply H1. }
  cbv zeta. rewrite (Hsame "node") by done.
  destruct (getField element "node") as [node|] eqn:Hnode; [|done].
  rewrite !(getField_insert_ne _ "node") by done.
  rewrite (Hsame "severityLabel"), (Hsame "severity"), (Hsame "description") by done.
  rewrite Hmsg.
  destruct (orElse (getField element "severityLabel") (getField element "severity"))
    as [label|] eqn:Hlabel; [|done].
  rewrite !(getField_insert_ne _ "message") by done.
  rewrite !(getField_insert_ne _ "node") by done.
  rewrite (Hsame "service"), (Hsame "url") by done.
  intros [= <-]. exists node, label. split_and!; [done|done| | | | | |].
  - rewrite lookup_insert_ne, lookup_fmap, lookup_insert_ne by done.
    by rewrite lookup_insert_eq.
  - apply TextFacts.removeUrls_clean.
  - rewrite lookup_insert_ne, lookup_fmap, !lookup_insert_ne by done.
    etrans; [exact (f_equal (fmap Text) Hp2)|].
    by destruct (truthy (getField element "property")).
  - rewrite lookup_insert_ne, lookup_fmap by done. by rewrite lookup_insert_eq.
  - by rewrite lookup_insert_eq.
  - intros k Hk. rewrite !not_elem_of_cons in Hk. destruct Hk as (? & ? & ? & ? & _).
    rewrite lookup_insert_ne, lookup_fmap, !lookup_insert_ne by done.
    f_equal. etrans; [by apply H2|by apply H1].
Qed.

Lemma formatElement_rewrites_fields_witness :
  ∃ node label,
    getField Examples.thingFailure "node" = Some node
    ∧ orElse (getField Examples.thingFailure "severityLabel")
        (getField Examples.thingFailure "severity") = Some label
    ∧ Inputs.thingRow !! "node" = Some (Text (Some (removeUrls node)))
    ∧ hasUrl (chars (removeUrls node)) = false
    ∧ Inputs.thingRow !! "property"
      = (if truthy (getField Examples.thingFailure "property")
         then Some (Text (Some (removeUrls
                                  (toString (getField Examples.thingFailure
                                               "property")))))
         else Text <$> Examples.thingFailure !! "property")
    ∧ Inputs.thingRow !! "message"
      = Some (Text (Some
          ((λ s, s) label +:+ ":" +:+ String "010" "        "
           +:+ (if truthy (getField Examples.thingFailure "message")
                then removeUrls (toString (getField Examples.thingFailure "message"))
                else toString (getField Examples.thingFailure "message"))
           +:+ ". " +:+ orEmpty (getField Examples.thingFailure "description"))))
    ∧ Inputs.thingRow !! "url"
      = Some (Link (getField Examples.thingFailure "service")
                (getField Examples.thingFailure "url"))
    ∧ ∀ k, k ∉ ["message"; "property"; "node"; "url"] →
        Inputs.thingRow !! k = Text <$> Examples.thingFailure !! k.
Proof.
  apply (formatElement_rewrites_fields (λ s, s) Examples.thingFailure Inputs.thingRow).
  reflexivity.
Defined.

Lemma orElse_right_string a b : is_Some b → is_Some (orElse a b).
Proof. unfold orElse. destruct (truthy a) eqn:E; [|done]. by destruct a. Qed.

(** X24: the audit ends with the error of [validateSchemaOrg] when there is
    one, and this is never an InvalidDataError. Otherwise the score is
    computed from the failures of severity [error] and [warning], and the
    table is built unless the node of a failure is the name of a property
    that objects inherit, in which case the audit ends with a TypeError. *)
Theorem audit_outcome (env : Env) (toUpperCase : string → string)
  (artifacts : Artifacts) :
  match validateSchemaOrg env (auditData artifacts) (finalUrl artifacts) with
  | Throw e =>
      audit env toUpperCase artifacts = Throw e ∧ ∀ msg, e ≠ InvalidDataError msg
  | Ok report =>
      let plain f :=
        removeUrls (toString (getField f "node")) ∉ objectPrototypeNames in
      (Forall plain report →
       ∃ items,
         audit env toUpperCase artifacts
         = Ok (score (count (hasSeverity "error") report)
                 (count (hasSeverity "warning") report), items))
      ∧ (¬ Forall plain report →
         ∃ msg, audit env toUpperCase artifacts = Throw (TypeError msg))
  end.
Proof.
  pose proof (validateSchemaOrg_displayable env (auditData artifacts)
                (finalUrl artifacts)) as Hout.
  unfold audit.
  destruct (validateSchemaOrg env _ _) as [report|e]; cbn [mbind Result_bind bind].
  - assert ((if Nat.ltb 0 (List.length report) then [] ++ report else []) = report)
      as -> by (by destruct report).
    assert (Forall formattable report
            ↔ Forall (λ f, removeUrls (toString (getField f "node"))
                           ∉ objectPrototypeNames) report) as Hiff.
    { rewrite !Forall_forall. rewrite Forall_forall in Hout. split.
      - intros H f Hf. by destruct (H f Hf) as (_ & _ & ?).
      - intros H f Hf. destruct (Hout f Hf) as [(Hsev & _ & Hnode) _].
        split_and!; [done|by apply orElse_right_string|by apply H]. }
    pose proof (reportToTable_result toUpperCase report) as Ht.
    cbv zeta. destruct (reportToTable toUpperCase report) as [items|e];
      cbn [bind].
    + split; [intros _; by eexists|]. intros Hbad. by apply Hiff in Ht.
    + destruct Ht as [[msg ->] Ht]. split; [|intros _; by eexists].
      intros Hall. by apply Hiff in Hall.
  - done.
Qed.

End AuditProps.
